(** * Verification of [utils.py] (dreamer-pytorch)

    A shallow embedding of the helpers of [utils.py]: [lambda_return],
    [imagine_ahead] (with its local [flatten]), [get_parameters],
    [FreezeParameters], [ActivateParameters], [write_video] and
    [contrastive].

    Modelling conventions.
    - A tensor is its shape together with its contiguous, row-major element
      storage.  Elements are real numbers: floating-point rounding and
      strides are outside the model.
    - A Python exception is a [Raise] result; every tensor operation that
      PyTorch makes fail fails here with the same exception class.
    - The policy and the transition model are records of functions, one per
      attribute that [imagine_ahead] calls.
    - The random source is a seeded stream of standard-normal draws with a
      cursor; [randn_like] reads as many draws as the tensor has elements.
    - Modules and parameters are objects in a heap; a parameter carries
      there its [requires_grad] flag and whether its dtype is a
      floating-point one, the only ones that can require gradients.
    - A NumPy array of floats is a tensor as well; an array of bytes is an
      [image].  In [write_video] the product with 255 is rounded before the
      cast to bytes truncates it, and the calls to OpenCV are recorded with
      their answers: any of them can raise.
    - The arguments of [contrastive] are matrices, given by their two sizes
      and their entries; its loss is a real number or [nan].  Dtypes and
      devices are outside the model: the arguments are [float32] matrices on
      the device that [contrastive] is given. *)

From Stdlib Require Import Reals Lra Lia.
From stdpp Require Import gmap list strings.

(** ** Exceptions and the error monad *)

(** The last one is [cv2.error], the exception of OpenCV. *)
Inductive exn := RuntimeError | IndexError | TypeError | ValueError | Cv2Error.

Inductive result (A : Type) := Ok (a : A) | Raise (e : exn).
Arguments Ok {A} a.
Arguments Raise {A} e.

#[global] Instance result_ret : MRet result := fun A a => Ok a.
#[global] Instance result_bind : MBind result :=
  fun A B f m => match m with Ok a => f a | Raise e => Raise e end.

#[global] Instance result_fmap : FMap result :=
  fun A B f m => match m with Ok a => Ok (f a) | Raise e => Raise e end.

(** [for index in idx: s = body(s, index)], stopping at the first exception. *)
Fixpoint for_loop {S : Type} (body : S -> nat -> result S) (idx : list nat) (s : S)
  : result S :=
  match idx with
  | [] => Ok s
  | i :: idx' => s' ← body s i; for_loop body idx' s'
  end.

(** Python list indexing [l[i]] and item assignment [l[i] = v], for [0 <= i]. *)
Definition getitem {A : Type} (l : list A) (i : nat) : result A :=
  match l !! i with
  | Some v => Ok v
  | None => Raise IndexError
  end.

Definition setitem {A : Type} (l : list A) (i : nat) (v : A) : result (list A) :=
  if i <? length l then Ok (<[i:=v]> l) else Raise IndexError.

(** Tuple unpacking [a, b = xs]. *)
Definition unpack2 {A : Type} (xs : list A) : result (A * A) :=
  match xs with
  | [a; b] => Ok (a, b)
  | _ => Raise ValueError
  end.

(** ** Tensors *)

Record tensor := Tensor { shape : list nat; data : list R }.

Definition numel (s : list nat) : nat := foldr Nat.mul 1 s.

Definition wf (x : tensor) : Prop := length (data x) = numel (shape x).

(** Entry [k] of the storage, and entry [k] of the row [i] along dimension 0. *)
Definition item (x : tensor) (k : nat) : R := nth k (data x) 0%R.

Definition entry (x : tensor) (i k : nat) : R :=
  item x (i * numel (tail (shape x)) + k).

(** [blocks w n d]: the first [n] consecutive blocks of width [w] of [d]. *)
Fixpoint blocks (w n : nat) (d : list R) : list (list R) :=
  match n with
  | 0 => []
  | S n' => take w d :: blocks w n' (drop w d)
  end.

(** *** Broadcasting *)

(** Shapes are aligned at their last dimension; [broadcast_rev] works on the
    reversed shapes. *)
Fixpoint broadcast_rev (a b : list nat) : option (list nat) :=
  match a, b with
  | [], _ => Some b
  | _, [] => Some a
  | x :: a', y :: b' =>
      if x =? y then cons x <$> broadcast_rev a' b'
      else if x =? 1 then cons y <$> broadcast_rev a' b'
      else if y =? 1 then cons x <$> broadcast_rev a' b'
      else None
  end.

Definition broadcast_shapes (s1 s2 : list nat) : option (list nat) :=
  reverse <$> broadcast_rev (reverse s1) (reverse s2).

Definition pad_shape (rank : nat) (s : list nat) : list nat :=
  replicate (rank - length s) 1 ++ s.

(** [expand tgt src d]: the storage of a tensor of shape [src] (same rank as
    [tgt], each dimension equal to that of [tgt] or 1) expanded to [tgt]. *)
Fixpoint expand (tgt src : list nat) (d : list R) : list R :=
  match tgt, src with
  | n :: tgt', m :: src' =>
      if m =? n
      then concat (map (expand tgt' src') (blocks (numel src') m d))
      else concat (replicate n (expand tgt' src' d))
  | _, _ => d
  end.

Definition expand_to (s : list nat) (x : tensor) : list R :=
  expand s (pad_shape (length s) (shape x)) (data x).

(** Elementwise binary operation on two tensors. *)
Definition binop (f : R -> R -> R) (x y : tensor) : result tensor :=
  match broadcast_shapes (shape x) (shape y) with
  | Some s => Ok (Tensor s (zip_with f (expand_to s x) (expand_to s y)))
  | None => Raise RuntimeError
  end.

(** [x + y] and [x * y] on tensors. *)
Definition add : tensor -> tensor -> result tensor := binop Rplus.
Definition mul : tensor -> tensor -> result tensor := binop Rmult.

(** [x + c], [x * c] and [c * x] for a Python float [c]. *)
Definition add_scalar (x : tensor) (c : R) : tensor :=
  Tensor (shape x) (map (fun v => (v + c)%R) (data x)).
Definition mul_scalar (x : tensor) (c : R) : tensor :=
  Tensor (shape x) (map (fun v => (v * c)%R) (data x)).
Definition scalar_mul (c : R) (x : tensor) : tensor :=
  Tensor (shape x) (map (fun v => (c * v)%R) (data x)).

(** [torch.ones_like(x)] and [torch.empty(0)]. *)
Definition ones_like (x : tensor) : tensor :=
  Tensor (shape x) (replicate (numel (shape x)) 1%R).
Definition empty0 : tensor := Tensor [0] [].

(** *** Indexing along dimension 0 *)

(** [len(x)]. *)
Definition len (x : tensor) : result nat :=
  match shape x with
  | [] => Raise TypeError
  | n :: _ => Ok n
  end.

(** [x[i]] for [0 <= i]. *)
Definition select (x : tensor) (i : nat) : result tensor :=
  match shape x with
  | [] => Raise IndexError
  | n :: s =>
      if i <? n
      then Ok (Tensor s (take (numel s) (drop (i * numel s) (data x))))
      else Raise IndexError
  end.

(** [x[1:]]. *)
Definition slice_from1 (x : tensor) : result tensor :=
  match shape x with
  | [] => Raise IndexError
  | n :: s => Ok (Tensor (pred n :: s) (drop (numel s) (data x)))
  end.

(** [x[None]]. *)
Definition unsqueeze0 (x : tensor) : tensor := Tensor (1 :: shape x) (data x).

(** *** Concatenating, splitting, stacking, viewing *)

(** [torch.cat] ignores one-dimensional empty tensors. *)
Definition legacy_empty (x : tensor) : bool :=
  match shape x with
  | [0] => true
  | _ => false
  end.

Fixpoint shape_eqb (s1 s2 : list nat) : bool :=
  match s1, s2 with
  | [], [] => true
  | a :: s1', b :: s2' => (a =? b) && shape_eqb s1' s2'
  | _, _ => false
  end.

(** [torch.cat([x, y], dim)] for [0 <= dim]. *)
Definition cat (x y : tensor) (dim : nat) : result tensor :=
  let sx := shape x in
  let sy := shape y in
  if (length sx =? 0) || (length sy =? 0) then Raise RuntimeError
  else if legacy_empty x then
    (if legacy_empty y || (dim <? length sy) then Ok y else Raise IndexError)
  else if legacy_empty y then
    (if dim <? length sx then Ok x else Raise IndexError)
  else if negb (length sx =? length sy) then Raise RuntimeError
  else if negb (dim <? length sx) then Raise IndexError
  else if negb (shape_eqb (take dim sx) (take dim sy)
                && shape_eqb (drop (S dim) sx) (drop (S dim) sy))
  then Raise RuntimeError
  else
    let outer := numel (take dim sx) in
    let inner := numel (drop (S dim) sx) in
    let dx := nth dim sx 0 in
    let dy := nth dim sy 0 in
    Ok (Tensor (take dim sx ++ (dx + dy) :: drop (S dim) sx)
          (concat (zip_with app (blocks (dx * inner) outer (data x))
                                (blocks (dy * inner) outer (data y))))).

(** [torch.chunk(x, 2, dim)] for [0 <= dim]: the split size is [ceil (d / 2)];
    a dimension of size 1 gives a single chunk, a dimension of size 0 gives
    two empty ones. *)
Definition chunk2 (x : tensor) (dim : nat) : result (list tensor) :=
  let sx := shape x in
  if length sx =? 0 then Raise RuntimeError
  else if negb (dim <? length sx) then Raise IndexError
  else
    let outer := numel (take dim sx) in
    let inner := numel (drop (S dim) sx) in
    let d := nth dim sx 0 in
    let h := Nat.div (d + 1) 2 in
    let piece (lo w : nat) :=
      Tensor (take dim sx ++ w :: drop (S dim) sx)
        (concat (map (fun r => take (w * inner) (drop (lo * inner) r))
                     (blocks (d * inner) outer (data x)))) in
    if d =? 0 then Ok [piece 0 0; piece 0 0]
    else if d =? 1 then Ok [piece 0 1]
    else Ok [piece 0 h; piece h (d - h)].

(** [torch.stack(ts, 0)]: the tensors, all of shape [s], laid out one after
    the other. *)
Definition stacked (s : list nat) (ts : list tensor) : tensor :=
  Tensor (length ts :: s) (concat (map data ts)).

Definition stack (ts : list tensor) : result tensor :=
  match ts with
  | [] => Raise RuntimeError
  | t :: ts' =>
      if forallb (fun u => shape_eqb (shape u) (shape t)) ts'
      then Ok (stacked (shape t) ts)
      else Raise RuntimeError
  end.

(** [x.view([-1] + rest)]: the size of the first dimension is inferred. *)
Definition view_infer (x : tensor) (rest : list nat) : result tensor :=
  let n := numel (shape x) in
  let p := numel rest in
  if p =? 0 then Raise RuntimeError
  else if negb (Nat.modulo n p =? 0) then Raise RuntimeError
  else Ok (Tensor (Nat.div n p :: rest) (data x)).

(** [F.softplus] with its defaults [beta = 1], [threshold = 20]. *)
Definition softplus (v : R) : R :=
  if Rlt_dec 20 v then v else ln (1 + exp v).

Definition softplus_t (x : tensor) : tensor :=
  Tensor (shape x) (map softplus (data x)).

(** *** The random source *)

Record generator := Generator { stream : nat -> R; offset : nat }.

(** [torch.randn_like(x)]: as many draws as [x] has elements. *)
Definition randn_like (x : tensor) (g : generator) : tensor * generator :=
  let n := numel (shape x) in
  (Tensor (shape x) (map (stream g) (seq (offset g) n)),
   Generator (stream g) (offset g + n)).

(** ** [lambda_return] *)

(** The body of the loop over [index], on the pair [(last, outputs)]. *)
Definition lambda_body (inputs discount_tensor : tensor) (lambda_ : R)
  : tensor * list tensor -> nat -> result (tensor * list tensor) :=
  fun '(last, outputs) index =>
    inp ← select inputs index;
    disc ← select discount_tensor index;
    decayed ← mul (mul_scalar disc lambda_) last;
    last' ← add inp decayed;
    mret (last', outputs ++ [last']).

(** The Python list [outputs] once the loop is over and the list is reversed. *)
Definition lambda_return_outputs (imged_reward value_pred bootstrap : tensor)
    (discount lambda_ : R) : result (list tensor) :=
  tail_values ← slice_from1 value_pred;
  next_values ← cat tail_values (unsqueeze0 bootstrap) 0;
  let discount_tensor := scalar_mul discount (ones_like imged_reward) in
  discounted ← mul discount_tensor next_values;
  inputs ← add imged_reward (mul_scalar discounted (1 - lambda_));
  n ← len inputs;
  '(_, outputs) ←
    for_loop (lambda_body inputs discount_tensor lambda_)
      (reverse (seq 0 n)) (bootstrap, []);
  mret (reverse outputs).

Definition lambda_return (imged_reward value_pred bootstrap : tensor)
    (discount lambda_ : R) : result tensor :=
  outputs ← lambda_return_outputs imged_reward value_pred bootstrap discount lambda_;
  stack outputs.

(** The return of one batch element as the specification words it: rewards
    [rw], values [v] and bootstrap [b] are those of that element. *)
Section LambdaSpec.
Variables (rw v : nat -> R) (b discount lambda_ : R) (N : nat).

Definition spec_next_values (i : nat) : R :=
  if i <? N - 1 then v (i + 1) else b.

Definition spec_target (i : nat) : R :=
  (rw i + discount * spec_next_values i * (1 - lambda_))%R.

(** [spec_last n]: the value of [last] once the backward recurrence has
    handled the indices [N-1] down to [N-n]. *)
Fixpoint spec_last (n : nat) : R :=
  match n with
  | 0 => b
  | S n' => (spec_target (N - S n') + discount * lambda_ * spec_last n')%R
  end.

Definition spec_G (i : nat) : R := spec_last (N - i).

(** The discounted Monte Carlo return from step [i]:
    the sum of [discount^(j-i) * rw j] for [i <= j < N], plus
    [discount^(N-i) * b]. *)
Definition monte_carlo (i : nat) : R :=
  (foldr Rplus 0 (map (fun j => discount ^ (j - i) * rw j) (seq i (N - i)))
   + discount ^ (N - i) * b)%R.

End LambdaSpec.

(** The tensor [last] after [n] iterations of the loop, as the scalar
    recurrence gives it for each batch element. *)
Definition lambda_row (imged_reward value_pred bootstrap : tensor)
    (discount lambda_ : R) (N n : nat) : tensor :=
  Tensor (shape bootstrap)
    (map (fun k => spec_last (fun j => entry imged_reward j k)
                     (fun j => entry value_pred j k) (item bootstrap k)
                     discount lambda_ N n)
         (seq 0 (numel (shape bootstrap)))).

(** The textbook lambda-return, for one batch element: the [n]-step return
    from step [i] sums [n] discounted rewards and closes with the discounted
    next value of the last of them; the lambda-return weighs the [n]-step
    returns geometrically, the longest one taking the rest of the weight. *)
Section NStep.
Variables (rw v : nat -> R) (b discount lambda_ : R) (N : nat).

Definition n_step_return (i n : nat) : R :=
  (foldr Rplus 0 (map (fun j => discount ^ j * rw (i + j)) (seq 0 n))
   + discount ^ n * spec_next_values v b N (i + n - 1))%R.

Definition lambda_mixture (i : nat) : R :=
  ((1 - lambda_)
   * foldr Rplus 0
       (map (fun n => lambda_ ^ (n - 1) * n_step_return i n) (seq 1 (N - i - 1)))
   + lambda_ ^ (N - i - 1) * n_step_return i (N - i))%R.

End NStep.

(** ** [imagine_ahead] *)

Record Policy := { get_action : tensor -> tensor -> result tensor }.

Record TransitionModel := {
  act_fn : tensor -> result tensor;
  fc_embed_state_action : tensor -> result tensor;
  rnn : tensor -> tensor -> result tensor;
  fc_embed_belief_prior : tensor -> result tensor;
  fc_state_prior : tensor -> result tensor;
  min_std_dev : R
}.

(** The four Python lists of the rollout and the random source. *)
Record rollout := Rollout {
  beliefs : list tensor;
  prior_states : list tensor;
  prior_means : list tensor;
  prior_std_devs : list tensor;
  gen : generator
}.

(** [x.view([-1] + list(x.size()[2:]))]. *)
Definition flatten (x : tensor) : result tensor :=
  view_infer x (drop 2 (shape x)).

(** One iteration of the loop over [t]; [detach] leaves the values alone. *)
Definition imagine_step (policy : Policy) (transition_model : TransitionModel)
    (st : rollout) (t : nat) : result rollout :=
  _state ← getitem (prior_states st) t;
  belief ← getitem (beliefs st) t;
  actions ← get_action policy belief _state;
  state_action ← cat _state actions 1;
  embedded ← fc_embed_state_action transition_model state_action;
  hidden ← act_fn transition_model embedded;
  belief ← getitem (beliefs st) t;
  new_belief ← rnn transition_model hidden belief;
  beliefs' ← setitem (beliefs st) (t + 1) new_belief;
  new_belief ← getitem beliefs' (t + 1);
  embedded ← fc_embed_belief_prior transition_model new_belief;
  hidden ← act_fn transition_model embedded;
  prior ← fc_state_prior transition_model hidden;
  chunks ← chunk2 prior 1;
  '(mean, _prior_std_dev) ← unpack2 chunks;
  prior_means' ← setitem (prior_means st) (t + 1) mean;
  prior_std_devs' ←
    setitem (prior_std_devs st) (t + 1)
      (add_scalar (softplus_t _prior_std_dev) (min_std_dev transition_model));
  mean ← getitem prior_means' (t + 1);
  std_dev ← getitem prior_std_devs' (t + 1);
  like ← getitem prior_means' (t + 1);
  let '(noise, g) := randn_like like (gen st) in
  scaled ← mul std_dev noise;
  state ← add mean scaled;
  prior_states' ← setitem (prior_states st) (t + 1) state;
  mret (Rollout beliefs' prior_states' prior_means' prior_std_devs' g).

(** The rollout up to the end of the loop: the four lists, each of
    [planning_horizon] entries, and the random source. *)
Definition imagine_lists (prev_state prev_belief : tensor) (policy : Policy)
    (transition_model : TransitionModel) (planning_horizon : nat) (g : generator)
  : result rollout :=
  prev_belief ← flatten prev_belief;
  prev_state ← flatten prev_state;
  let T := planning_horizon in
  let placeholders := replicate T empty0 in
  beliefs0 ← setitem placeholders 0 prev_belief;
  prior_states0 ← setitem placeholders 0 prev_state;
  for_loop (imagine_step policy transition_model) (seq 0 (T - 1))
    (Rollout beliefs0 prior_states0 placeholders placeholders g).

(** The result is the Python list [imagined_traj], paired with the random
    source as the call leaves it. *)
Definition imagine_ahead (prev_state prev_belief : tensor) (policy : Policy)
    (transition_model : TransitionModel) (planning_horizon : nat) (g : generator)
  : result (list tensor * generator) :=
  st ← imagine_lists prev_state prev_belief policy transition_model
         planning_horizon g;
  out_beliefs ← stack (drop 1 (beliefs st));
  out_states ← stack (drop 1 (prior_states st));
  out_means ← stack (drop 1 (prior_means st));
  out_std_devs ← stack (drop 1 (prior_std_devs st));
  mret ([out_beliefs; out_states; out_means; out_std_devs], gen st).

(** The rollout as the specification words it: time step [t + 1] from time
    step [t], on flattened belief and state. *)
Record timestep := Timestep {
  ts_belief : tensor;
  ts_state : tensor;
  ts_mean : tensor;
  ts_raw_std : tensor;
  ts_std_dev : tensor;
  ts_gen : generator
}.

Definition spec_step (policy : Policy) (transition_model : TransitionModel)
    (belief state : tensor) (g : generator) : result timestep :=
  action ← get_action policy belief state;
  state_action ← cat state action 1;
  embedded ← fc_embed_state_action transition_model state_action;
  hidden ← act_fn transition_model embedded;
  new_belief ← rnn transition_model hidden belief;
  embedded ← fc_embed_belief_prior transition_model new_belief;
  hidden ← act_fn transition_model embedded;
  prior ← fc_state_prior transition_model hidden;
  chunks ← chunk2 prior 1;
  '(mean, raw_std) ← unpack2 chunks;
  let std := add_scalar (softplus_t raw_std) (min_std_dev transition_model) in
  let '(noise, g') := randn_like mean g in
  scaled ← mul std noise;
  state' ← add mean scaled;
  mret (Timestep new_belief state' mean raw_std std g').

(** Time step [t] of the rollout from [(B0, S0)]; time step 0 is the input. *)
Fixpoint spec_rollout (policy : Policy) (transition_model : TransitionModel)
    (B0 S0 : tensor) (g : generator) (t : nat) : result timestep :=
  match t with
  | 0 => Ok (Timestep B0 S0 empty0 empty0 empty0 g)
  | S t' =>
      prev ← spec_rollout policy transition_model B0 S0 g t';
      spec_step policy transition_model (ts_belief prev) (ts_state prev) (ts_gen prev)
  end.

(** Writing time step [t + 1] into the four lists. *)
Definition record_step (st : rollout) (t : nat) (ts : timestep) : rollout :=
  Rollout (<[t + 1 := ts_belief ts]> (beliefs st))
          (<[t + 1 := ts_state ts]> (prior_states st))
          (<[t + 1 := ts_mean ts]> (prior_means st))
          (<[t + 1 := ts_std_dev ts]> (prior_std_devs st))
          (ts_gen ts).

(** Shape contracts of the policy and of the transition model: batch size
    [B], belief size [Dh], state size [Ds], action size [Da], and the two
    embedding sizes [E1] and [E2]. *)
Definition has_shape (s : list nat) (x : tensor) : Prop := shape x = s /\ wf x.

Definition maps1 (f : tensor -> result tensor) (s1 s2 : list nat) : Prop :=
  forall x, has_shape s1 x -> exists y, f x = Ok y /\ has_shape s2 y.

Definition maps2 (f : tensor -> tensor -> result tensor) (s1 s2 s3 : list nat) : Prop :=
  forall x y, has_shape s1 x -> has_shape s2 y ->
    exists z, f x y = Ok z /\ has_shape s3 z.

Record well_shaped (policy : Policy) (transition_model : TransitionModel)
    (B Dh Ds Da E1 E2 : nat) : Prop := {
  ws_get_action : maps2 (get_action policy) [B; Dh] [B; Ds] [B; Da];
  ws_embed_state_action :
    maps1 (fc_embed_state_action transition_model) [B; Ds + Da] [B; E1];
  ws_act_fn1 : maps1 (act_fn transition_model) [B; E1] [B; E1];
  ws_rnn : maps2 (rnn transition_model) [B; E1] [B; Dh] [B; Dh];
  ws_embed_belief_prior :
    maps1 (fc_embed_belief_prior transition_model) [B; Dh] [B; E2];
  ws_act_fn2 : maps1 (act_fn transition_model) [B; E2] [B; E2];
  ws_state_prior : maps1 (fc_state_prior transition_model) [B; E2] [B; 2 * Ds]
}.

(** What a time step after the first looks like under the contracts. *)
Definition step_shapes (transition_model : TransitionModel) (B Dh Ds : nat)
    (ts : timestep) : Prop :=
  has_shape [B; Dh] (ts_belief ts) /\ has_shape [B; Ds] (ts_state ts)
  /\ has_shape [B; Ds] (ts_mean ts) /\ has_shape [B; Ds] (ts_raw_std ts)
  /\ ts_std_dev ts
     = add_scalar (softplus_t (ts_raw_std ts)) (min_std_dev transition_model).

(** Time step [t] of the rollout, where the rollout gets that far. *)
Definition rollout_at (policy : Policy) (transition_model : TransitionModel)
    (B0 S0 : tensor) (g : generator) (t : nat) : timestep :=
  match spec_rollout policy transition_model B0 S0 g t with
  | Ok ts => ts
  | Raise _ => Timestep empty0 empty0 empty0 empty0 empty0 g
  end.

(** The loop invariant: after [t] iterations the four lists, of [T] entries
    each, hold the time steps [0..t] and the random source is that of time
    step [t]. *)
Definition rollout_inv (policy : Policy) (transition_model : TransitionModel)
    (B0 S0 : tensor) (g : generator) (T t : nat) (st : rollout) : Prop :=
  length (beliefs st) = T /\ length (prior_states st) = T
  /\ length (prior_means st) = T /\ length (prior_std_devs st) = T
  /\ (forall j, j <= t ->
        beliefs st !! j
        = Some (ts_belief (rollout_at policy transition_model B0 S0 g j))
        /\ prior_states st !! j
           = Some (ts_state (rollout_at policy transition_model B0 S0 g j)))
  /\ (forall j, 1 <= j <= t ->
        prior_means st !! j
        = Some (ts_mean (rollout_at policy transition_model B0 S0 g j))
        /\ prior_std_devs st !! j
           = Some (ts_std_dev (rollout_at policy transition_model B0 S0 g j)))
  /\ gen st = ts_gen (rollout_at policy transition_model B0 S0 g t).

(** Two random sources seeded alike: the same cursor and the same draws from
    the cursor on. *)
Definition gen_equiv (g1 g2 : generator) : Prop :=
  offset g1 = offset g2 /\ forall n, offset g1 <= n -> stream g1 n = stream g2 n.

Definition rollout_equiv (st1 st2 : rollout) : Prop :=
  beliefs st1 = beliefs st2 /\ prior_states st1 = prior_states st2
  /\ prior_means st1 = prior_means st2 /\ prior_std_devs st1 = prior_std_devs st2
  /\ gen_equiv (gen st1) (gen st2).

Definition result_equiv (r1 r2 : result rollout) : Prop :=
  match r1, r2 with
  | Ok st1, Ok st2 => rollout_equiv st1 st2
  | Raise e1, Raise e2 => e1 = e2
  | _, _ => False
  end.

(** ** Parameter scopes *)

(** Module objects own parameter objects; a parameter object carries its
    [requires_grad] flag, and has a dtype that is floating-point (or complex)
    or not.  Objects are named by their addresses. *)
Record heap := Heap {
  parameters : gmap nat (list nat);
  requires_grad : gmap nat bool;
  floating : nat -> bool
}.

Definition set_requires_grad (param : nat) (flag : bool) (h : heap) : heap :=
  Heap (parameters h) (<[param := flag]> (requires_grad h)) (floating h).

(** [param.requires_grad = flag]: only a tensor of a floating-point or
    complex dtype can require gradients. *)
Definition assign_requires_grad (param : nat) (flag : bool) (h : heap)
  : result heap :=
  if flag && negb (floating h param) then Raise RuntimeError
  else Ok (set_requires_grad param flag h).

Definition get_parameters (modules : list nat) (h : heap) : list nat :=
  foldl (fun model_parameters module => model_parameters ++ parameters h !!! module)
        [] modules.

(** The attributes of a scope object: [self.modules], a list of modules, and
    [self.param_states].  The modules are a list, which every traversal goes
    through again; an iterator, used up by the traversal of [__init__], is
    outside the model. *)
Record scope := Scope { modules : list nat; param_states : list bool }.

(** How a block of statements ends: it completes or it raises. *)
Inductive outcome := Completed | Raised (e : exn).

(** [for param in params: param.requires_grad = flag]; the loop stops at the
    first assignment that raises, and the flags set before it stay set. *)
Fixpoint set_all (flag : bool) (params : list nat) (h : heap) : heap * outcome :=
  match params with
  | [] => (h, Completed)
  | param :: params' =>
      match assign_requires_grad param flag h with
      | Ok h' => set_all flag params' h'
      | Raise e => (h, Raised e)
      end
  end.

(** [for i, param in enumerate(params): param.requires_grad = self.param_states[i]]. *)
Fixpoint restore (self : scope) (i : nat) (params : list nat) (h : heap)
  : result heap :=
  match params with
  | [] => Ok h
  | param :: params' =>
      flag ← getitem (param_states self) i;
      h' ← assign_requires_grad param flag h;
      restore self (S i) params' h'
  end.

Module ActivateParameters.

Definition __init__ (modules : list nat) (h : heap) : scope :=
  Scope modules (map (fun p => requires_grad h !!! p) (get_parameters modules h)).

Definition __enter__ (self : scope) (h : heap) : heap * outcome :=
  set_all true (get_parameters (modules self) h) h.

Definition __exit__ (self : scope) (h : heap) : result heap :=
  restore self 0 (get_parameters (modules self) h) h.

End ActivateParameters.

Module FreezeParameters.

Definition __init__ (modules : list nat) (h : heap) : scope :=
  Scope modules (map (fun p => requires_grad h !!! p) (get_parameters modules h)).

Definition __enter__ (self : scope) (h : heap) : heap * outcome :=
  set_all false (get_parameters (modules self) h) h.

Definition __exit__ (self : scope) (h : heap) : result heap :=
  restore self 0 (get_parameters (modules self) h) h.

End FreezeParameters.

(** [with self: body] for a scope object [self] of a class with the two
    methods: when [__enter__] raises, the body does not run and [__exit__] is
    not called; otherwise the body runs and [__exit__] runs whether or not
    the body raised.  [__exit__] returns [None], so an exception of the body
    goes on to the caller. *)
Definition with_object (enter : scope -> heap -> heap * outcome)
    (exit : scope -> heap -> result heap)
    (self : scope) (body : heap -> heap * outcome) (h : heap)
  : result (heap * outcome) :=
  match enter self h with
  | (h1, Raised e) => Ok (h1, Raised e)
  | (h1, Completed) =>
      let '(h2, o) := body h1 in
      h3 ← exit self h2;
      mret (h3, o)
  end.

(** [with Scope(modules): body]: the scope object is built by the statement
    itself, right before it is entered. *)
Definition with_scope (init : list nat -> heap -> scope)
    (enter : scope -> heap -> heap * outcome) (exit : scope -> heap -> result heap)
    (modules : list nat) (body : heap -> heap * outcome) (h : heap)
  : result (heap * outcome) :=
  with_object enter exit (init modules h) body h.

Definition with_ActivateParameters :=
  with_scope ActivateParameters.__init__ ActivateParameters.__enter__
    ActivateParameters.__exit__.

Definition with_FreezeParameters :=
  with_scope FreezeParameters.__init__ FreezeParameters.__enter__
    FreezeParameters.__exit__.

(** ** [write_video]

    A NumPy array of floats is a [tensor]; an array of [uint8] values is an
    [image].  Two things that the rest of the model leaves out matter here.
    - The cast to [uint8] drops the fractional part, so the rounding of the
      product with 255 shows: [np.multiply] returns the product rounded to
      the floating-point format of the frames, and [rounding] is that
      rounding.
    - The calls to OpenCV can raise.  What a call answers is up to the
      library and to the file system: [cv2_lib] gives the answer to a call
      after the calls made before it. *)

Record image := Image { im_shape : list nat; pixels : list Z }.

(** Rounding to a floating-point format is monotone and leaves the numbers
    of the format alone; 0 and 255 are numbers of every format of NumPy. *)
Record rounding := Rounding {
  fl :> R -> R;
  fl_monotone : forall x y : R, (x <= y)%R -> (fl x <= fl y)%R;
  fl_0 : fl 0%R = 0%R;
  fl_255 : fl 255%R = 255%R
}.

(** [np.stack(arrays, axis=0)]. *)
Definition np_stack (arrays : list tensor) : result tensor :=
  match arrays with
  | [] => Raise ValueError
  | t :: ts =>
      if forallb (fun u => shape_eqb (shape u) (shape t)) ts
      then Ok (stacked (shape t) arrays)
      else Raise ValueError
  end.

(** [x.transpose(0, 2, 3, 1)]: entry [(t, h, w, c)] of the result is entry
    [(t, c, h, w)] of [x]. *)
Definition transpose_0231 (x : tensor) : result tensor :=
  match shape x with
  | [T; C; H; W] =>
      Ok (Tensor [T; H; W; C]
            (flat_map (fun t =>
               flat_map (fun h =>
                 flat_map (fun w =>
                   map (fun c => nth (((t * C + c) * H + h) * W + w) (data x) 0%R)
                       (seq 0 C))
                   (seq 0 W))
                 (seq 0 H))
               (seq 0 T)))
  | _ => Raise ValueError
  end.

(** [np.multiply(x, c)]: every product is rounded. *)
Definition np_multiply (fl : rounding) (x : tensor) (c : R) : tensor :=
  Tensor (shape x) (map (fun v => fl (v * c)%R) (data x)).

(** [x.clip(lo, hi)]. *)
Definition clip (x : tensor) (lo hi : R) : tensor :=
  Tensor (shape x) (map (fun v => Rmin (Rmax v lo) hi) (data x)).

(** [x.astype(np.uint8)]: the cast drops the fractional part; on the values
    between 0 and 255 that [clip] leaves, that is the integer part. *)
Definition astype_uint8 (x : tensor) : image :=
  Image (shape x) (map Int_part (data x)).

(** [groups w n d]: the first [n] consecutive groups of [w] entries of [d]. *)
Fixpoint groups {A : Type} (w n : nat) (d : list A) : list (list A) :=
  match n with
  | 0 => []
  | S n' => take w d :: groups w n' (drop w d)
  end.

(** [x[:, :, :, ::-1]]. *)
Definition flip_channels (x : image) : result image :=
  match im_shape x with
  | [T; H; W; C] =>
      Ok (Image [T; H; W; C]
            (concat (map reverse (groups C (T * H * W) (pixels x)))))
  | _ => Raise IndexError
  end.

(** [for frame in frames]: the sub-arrays along dimension 0. *)
Definition im_rows (x : image) : list image :=
  match im_shape x with
  | [] => []
  | n :: s =>
      map (fun t => Image s (take (numel s) (drop (t * numel s) (pixels x))))
          (seq 0 n)
  end.

(** [os.path.join(a, b)] of [posixpath]. *)
Definition ends_with_sep (a : string) : bool :=
  String.eqb (String.substring (String.length a - 1) 1 a) "/".

Definition os_path_join (a b : string) : string :=
  if String.prefix "/" b then b
  else if (String.length a =? 0) || ends_with_sep a then String.app a b
  else String.app a (String.app "/" b).

(** The calls made to [cv2]: [cv2.VideoWriter(...)], [writer.write(frame)]
    and [writer.release()].  [cv2.VideoWriter_fourcc] only packs the four
    characters of the codec into a number: the codec is kept as its
    string. *)
Inductive cv2_call :=
  | VideoWriter (filename fourcc : string) (fps : R) (frameSize : nat * nat)
      (isColor : bool)
  | write (frame : image)
  | release.

(** The answer of OpenCV to a call, after the calls [made] before it: the
    call returns, or it raises. *)
Definition cv2_lib := list cv2_call -> cv2_call -> outcome.

(** A piece of code that calls OpenCV takes the calls made so far to the
    calls made when it stops, the one that raised included, and says how it
    stopped. *)
Definition cv2_code := list cv2_call -> list cv2_call * outcome.

Definition call (cv2 : cv2_lib) (c : cv2_call) : cv2_code :=
  fun made => (made ++ [c], cv2 made c).

(** [first] and then [next], unless [first] raises. *)
Definition and_then (first next : cv2_code) : cv2_code :=
  fun made =>
    match first made with
    | (made', Completed) => next made'
    | (made', Raised e) => (made', Raised e)
    end.

(** [for x in xs: body(x)]. *)
Fixpoint for_each {A : Type} (body : A -> cv2_code) (xs : list A) : cv2_code :=
  match xs with
  | [] => fun made => (made, Completed)
  | x :: xs' => and_then (body x) (for_each body xs')
  end.

(** The result is the list of the calls made to [cv2], with the way the
    function stopped.  An exception of NumPy comes before any call. *)
Definition write_video (cv2 : cv2_lib) (fl : rounding) (frames : list tensor)
    (title path : string) : list cv2_call * outcome :=
  let arrays :=
    stacked_frames ← np_stack frames;
    transposed ← transpose_0231 stacked_frames;
    frames ← flip_channels (astype_uint8 (clip (np_multiply fl transposed 255) 0 255));
    '(H, W) ← match im_shape frames with
              | [_; H; W; _] => Ok (H, W)
              | _ => Raise ValueError
              end;
    mret (frames, H, W) in
  match arrays with
  | Raise e => ([], Raised e)
  | Ok (frames, H, W) =>
      let writer :=
        VideoWriter (os_path_join path (String.app title ".mp4")) "mp4v" 30 (W, H)
          true in
      and_then (call cv2 writer)
        (and_then (for_each (fun frame => call cv2 (write frame)) (im_rows frames))
           (call cv2 release))
        []
  end.

(** Entry [(c, h, w)] of a frame and entry [(h, w, c)] of a written image. *)
Definition frame_entry (x : tensor) (c h w : nat) : R :=
  match shape x with
  | [_; H; W] => nth ((c * H + h) * W + w) (data x) 0%R
  | _ => 0%R
  end.

Definition pixel (x : image) (h w c : nat) : Z :=
  match im_shape x with
  | [_; W; C] => nth ((h * W + w) * C + c) (pixels x) 0%Z
  | _ => 0%Z
  end.

(** The images passed to [writer.write], in order. *)
Definition written (calls : list cv2_call) : list image :=
  flat_map (fun call => match call with write frame => [frame] | _ => [] end) calls.

(** ** [contrastive]

    [q] and [k] are matrices: two-dimensional tensors, one row per sample,
    given by their sizes and their entries.  A matrix has no dtype and no
    device here: [q] and [k] stand for [float32] matrices on the device that
    [contrastive] is given, where the projection [W] is put.  On arguments
    of another dtype or device [torch.matmul] raises, which the model does
    not show.  A loss is a float: a real number or [nan]. *)

Record matrix := Matrix { nrows : nat; ncols : nat; coeff : nat -> nat -> R }.

Inductive float := Finite (v : R) | NaN.

(** The sum of [f j] for [0 <= j < n]. *)
Definition sum_to (n : nat) (f : nat -> R) : R :=
  foldr Rplus 0%R (map f (seq 0 n)).

(** [F.normalize(x, dim=1)], with its defaults [p = 2] and [eps = 1e-12]:
    every row is divided by its Euclidean norm, or by [eps] if that is
    larger. *)
Definition normalize (x : matrix) : matrix :=
  Matrix (nrows x) (ncols x)
    (fun i j =>
       (coeff x i j
        / Rmax (sqrt (sum_to (ncols x) (fun l => coeff x i l ^ 2))) (/ 10 ^ 12))%R).

(** [torch.rand(n, m)]: the next [n * m] draws of the random source, filled
    in row by row. *)
Definition rand (n m : nat) (g : generator) : matrix * generator :=
  (Matrix n m (fun i j => stream g (offset g + i * m + j)),
   Generator (stream g) (offset g + n * m)).

(** [x.T]. *)
Definition transpose (x : matrix) : matrix :=
  Matrix (ncols x) (nrows x) (fun i j => coeff x j i).

(** [torch.matmul(a, b)]. *)
Definition matmul (a b : matrix) : result matrix :=
  if ncols a =? nrows b
  then Ok (Matrix (nrows a) (ncols b)
             (fun i j => sum_to (ncols a) (fun l => (coeff a i l * coeff b l j)%R)))
  else Raise RuntimeError.

(** [torch.max(x, 1)[0]]: the largest entry of each row; a matrix without
    columns has none. *)
Definition max_dim1 (x : matrix) : result (nat -> R) :=
  if ncols x =? 0 then Raise IndexError
  else Ok (fun i => foldr (fun j acc => Rmax (coeff x i j) acc) (coeff x i 0)
                      (seq 1 (ncols x - 1))).

(** [x - v[:, None]] and [x * c]. *)
Definition sub_column (x : matrix) (v : nat -> R) : matrix :=
  Matrix (nrows x) (ncols x) (fun i j => (coeff x i j - v i)%R).

Definition scale (x : matrix) (c : R) : matrix :=
  Matrix (nrows x) (ncols x) (fun i j => (coeff x i j * c)%R).

(** [nn.CrossEntropyLoss()(logits, labels)]: the mean over the rows of minus
    the log-softmax of the row at its label.  A label that is not a column
    raises [IndexError]; the mean over no row is [nan]. *)
Definition log_softmax (x : matrix) (i j : nat) : R :=
  (coeff x i j - ln (sum_to (ncols x) (fun l => exp (coeff x i l))))%R.

Definition CrossEntropyLoss (logits : matrix) (labels : list nat) : result float :=
  if negb (length labels =? nrows logits) then Raise ValueError
  else if negb (forallb (fun label => label <? ncols logits) labels)
  then Raise IndexError
  else if nrows logits =? 0 then Ok NaN
  else
    let total :=
      sum_to (nrows logits) (fun i => log_softmax logits i (nth i labels 0)) in
    Ok (Finite (- total / INR (nrows logits))%R).

Definition contrastive (q k : matrix) (g : generator) : result (float * generator) :=
  let q := normalize q in
  let k := normalize k in
  let '(W, g) := rand (ncols q) (ncols q) g in
  k_ ← matmul W (transpose k);
  logits ← matmul q k_;
  row_max ← max_dim1 logits;
  let logits := sub_column logits row_max in
  let logits := scale logits 0.1 in
  let labels := seq 0 (nrows logits) in
  contrastive_loss ← CrossEntropyLoss logits labels;
  mret (contrastive_loss, g).

(** ** Concrete inputs

    A small policy and transition model (the action repeats the state, every
    layer is the identity), tensors and a heap, on which the theorems below
    are instantiated. *)

Definition demo_policy : Policy := {| get_action := fun _ state => Ok state |}.

Definition demo_model : TransitionModel := {|
  act_fn := Ok;
  fc_embed_state_action := Ok;
  rnn := fun _ belief => Ok belief;
  fc_embed_belief_prior := Ok;
  fc_state_prior := Ok;
  min_std_dev := 0.1
|}.

Definition demo_belief : tensor := Tensor [1; 2; 2] [1; 2; 3; 4]%R.
Definition demo_state : tensor := Tensor [1; 2; 1] [5; 6]%R.
Definition demo_gen : generator := Generator (fun _ => 0%R) 0.
Definition demo_gen' : generator := Generator (fun n => (0 * INR n)%R) 0.

Definition demo_matrix : tensor := Tensor [2; 3] [1; 2; 3; 4; 5; 6]%R.
Definition demo_batches : tensor :=
  Tensor [2; 2; 1; 3] [1; 2; 3; 4; 5; 6; 7; 8; 9; 10; 11; 12]%R.

Definition demo_reward : tensor := Tensor [3] [1; 1; 1]%R.
Definition demo_value : tensor := Tensor [3] [2; 2; 2]%R.
Definition demo_bootstrap : tensor := Tensor [] [3%R].
Definition demo_empty : tensor := Tensor [0] [].

Definition demo_heap : heap :=
  Heap {[ 0 := [10; 11]; 1 := [11; 12] ]} {[ 10 := true; 11 := false; 12 := true ]}
       (fun _ => true).

(** A module whose second parameter is an integer tensor. *)
Definition demo_heap_int : heap :=
  Heap {[ 2 := [20; 21; 22] ]} {[ 20 := false; 21 := false; 22 := false ]}
       (fun p => negb (p =? 21)).

Definition demo_body (h : heap) : heap * outcome :=
  (set_requires_grad 10 true (set_requires_grad 11 true h), Raised RuntimeError).

(** A policy that fails. *)
Definition failing_policy : Policy := {| get_action := fun _ _ => Raise ValueError |}.

Definition demo_frame : tensor := Tensor [3; 1; 2] [0.5; 2; 0; 1; -1; 0.25]%R.

(** A frame without channels, the rounding of a format that holds every
    product, and an OpenCV that refuses to write an image without pixels. *)
Definition demo_frame_empty : tensor := Tensor [0; 1; 2] [].

Definition exact_rounding : rounding :=
  Rounding (fun x => x) (fun x y Hxy => Hxy) eq_refl eq_refl.

Definition demo_cv2 : cv2_lib :=
  fun made c =>
    match c with
    | write frame =>
        match pixels frame with
        | [] => Raised Cv2Error
        | _ => Completed
        end
    | _ => Completed
    end.

Definition demo_queries : matrix :=
  Matrix 1 2 (fun i j => if j =? 0 then 3%R else 4%R).
Definition demo_keys : matrix :=
  Matrix 2 2 (fun i j => if i =? j then 1%R else 0%R).

(** * Proofs *)

(** ** Storage lemmas *)

Lemma nth_zip_with (f : R -> R -> R) (a b : list R) (k : nat) :
  k < length a -> k < length b ->
  nth k (zip_with f a b) 0%R = f (nth k a 0%R) (nth k b 0%R).
Proof.
  revert b k. induction a as [|x a IH]; intros [|y b] [|k] Ha Hb; simpl in *; try lia.
  - reflexivity.
  - apply IH; lia.
Qed.

Lemma nth_map_lt (f : R -> R) (l : list R) (k : nat) :
  k < length l -> nth k (map f l) 0%R = f (nth k l 0%R).
Proof.
  revert k. induction l as [|x l IH]; intros [|k] Hk; simpl in *; try lia.
  - reflexivity.
  - apply IH; lia.
Qed.

Lemma nth_take (w k : nat) (l : list R) :
  k < w -> nth k (take w l) 0%R = nth k l 0%R.
Proof.
  revert k l. induction w as [|w IH]; intros k [|x l] Hk; try lia; try reflexivity.
  destruct k as [|k]; simpl; [reflexivity | apply IH; lia].
Qed.

Lemma nth_drop (o k : nat) (l : list R) :
  nth k (drop o l) 0%R = nth (o + k) l 0%R.
Proof.
  revert l. induction o as [|o IH]; intros [|x l]; simpl; try reflexivity.
  - destruct k; reflexivity.
  - apply IH.
Qed.

Lemma nth_replicate_lt (n k : nat) (x : R) :
  k < n -> nth k (replicate n x) 0%R = x.
Proof.
  revert k. induction n as [|n IH]; intros [|k] Hk; simpl; try lia.
  - reflexivity.
  - apply IH; lia.
Qed.

Lemma nth_map_seq {A : Type} (f : nat -> A) (a n k : nat) (d : A) :
  k < n -> nth k (map f (seq a n)) d = f (a + k).
Proof.
  revert a k. induction n as [|n IH]; intros a [|k] Hk; simpl; try lia.
  - f_equal; lia.
  - rewrite IH by lia. f_equal; lia.
Qed.

Lemma list_eq_map_seq (l : list R) (n : nat) (f : nat -> R) :
  length l = n -> (forall k, k < n -> nth k l 0%R = f k) -> l = map f (seq 0 n).
Proof.
  intros Hl Hf. apply (nth_ext _ _ 0%R 0%R).
  - rewrite length_map, length_seq. exact Hl.
  - intros k Hk. rewrite Hf by lia. rewrite nth_map_seq by lia. reflexivity.
Qed.

(** ** Blocks *)

Lemma length_blocks (w n : nat) (d : list R) : length (blocks w n d) = n.
Proof.
  revert d. induction n as [|n IH]; intros d; simpl; [reflexivity | by rewrite IH].
Qed.

Lemma concat_blocks (w n : nat) (d : list R) :
  length d = n * w -> concat (blocks w n d) = d.
Proof.
  revert d. induction n as [|n IH]; intros d Hd; simpl in *.
  - by destruct d.
  - rewrite IH; [apply take_drop | rewrite length_drop; lia].
Qed.

Lemma Forall_blocks (w n : nat) (d : list R) :
  length d = n * w -> Forall (fun r => length r = w) (blocks w n d).
Proof.
  revert d. induction n as [|n IH]; intros d Hd; simpl in *; constructor.
  - rewrite length_take. lia.
  - apply IH. rewrite length_drop. lia.
Qed.

Lemma nth_concat_uniform (w : nat) (rows : list (list R)) (i k : nat) :
  Forall (fun r => length r = w) rows -> i < length rows -> k < w ->
  nth (i * w + k) (concat rows) 0%R = nth k (nth i rows []) 0%R.
Proof.
  intros Hrows. revert i.
  induction Hrows as [|r rows Hr _ IH]; intros i Hi Hk; simpl in *; [lia|].
  destruct i as [|i]; simpl.
  - rewrite app_nth1 by lia. reflexivity.
  - rewrite app_nth2 by lia. replace (w + i * w + k - length r) with (i * w + k) by lia.
    apply IH; lia.
Qed.

(** ** Shapes *)

Lemma shape_eqb_eq (s1 s2 : list nat) : shape_eqb s1 s2 = true <-> s1 = s2.
Proof.
  revert s2. induction s1 as [|a s1 IH]; intros [|b s2]; simpl; split;
    try congruence; try done.
  - intros [Hab H]%andb_prop. apply Nat.eqb_eq in Hab. apply IH in H. congruence.
  - intros [= -> ->]. rewrite Nat.eqb_refl. simpl. by apply IH.
Qed.

Lemma shape_eqb_refl (s : list nat) : shape_eqb s s = true.
Proof. by apply shape_eqb_eq. Qed.

Lemma broadcast_rev_same (a : list nat) : broadcast_rev a a = Some a.
Proof.
  induction a as [|x a IH]; simpl; [reflexivity|].
  rewrite Nat.eqb_refl, IH. reflexivity.
Qed.

Lemma broadcast_shapes_same (s : list nat) : broadcast_shapes s s = Some s.
Proof.
  unfold broadcast_shapes. rewrite broadcast_rev_same. simpl.
  by rewrite reverse_involutive.
Qed.

Lemma pad_shape_same (s : list nat) : pad_shape (length s) s = s.
Proof. unfold pad_shape. by rewrite Nat.sub_diag. Qed.

Lemma expand_same (s : list nat) (d : list R) :
  length d = numel s -> expand s s d = d.
Proof.
  revert d. induction s as [|n s IH]; intros d Hd; [reflexivity|].
  cbn [expand]. change (numel (n :: s)) with (n * numel s) in Hd.
  rewrite Nat.eqb_refl.
  assert (Hb : Forall (fun r => length r = numel s) (blocks (numel s) n d))
    by (apply Forall_blocks; lia).
  rewrite (map_ext_Forall _ (fun r : list R => r)).
  - rewrite map_id. apply concat_blocks. lia.
  - eapply Forall_impl; [exact Hb|]. intros r Hr. by apply IH.
Qed.

Lemma binop_same_shape (f : R -> R -> R) (x y : tensor) :
  shape x = shape y -> wf x -> wf y ->
  binop f x y = Ok (Tensor (shape x) (zip_with f (data x) (data y))).
Proof.
  intros Hs Hx Hy. unfold binop, expand_to, wf in *. rewrite <- Hs in *.
  rewrite broadcast_shapes_same, pad_shape_same, !expand_same by assumption.
  reflexivity.
Qed.

Lemma binop_same_shape_wf (f : R -> R -> R) (x y : tensor) :
  shape x = shape y -> wf x -> wf y ->
  wf (Tensor (shape x) (zip_with f (data x) (data y))).
Proof.
  intros Hs Hx Hy. unfold wf in *. simpl. rewrite length_zip_with, Hx, Hy, Hs. lia.
Qed.

#[global] Arguments numel : simpl never.

Lemma numel_cons (n : nat) (s : list nat) : numel (n :: s) = n * numel s.
Proof. reflexivity. Qed.

Ltac len_simpl :=
  repeat first
    [ rewrite length_zip_with | rewrite length_map | rewrite length_take
    | rewrite length_drop | rewrite length_app | rewrite length_replicate
    | rewrite length_seq | rewrite numel_cons ].

Lemma mul_le_sub (i N w : nat) : i < N -> w <= N * w - i * w.
Proof. intros Hi. nia. Qed.

Lemma tensor_eta (x : tensor) : Tensor (shape x) (data x) = x.
Proof. by destruct x. Qed.

Lemma cat0_rows (x y : tensor) (n1 n2 : nat) (s : list nat) :
  shape x = n1 :: s -> shape y = n2 :: s -> wf x -> wf y ->
  cat x y 0 = Ok (Tensor ((n1 + n2) :: s) (data x ++ data y)).
Proof.
  destruct x as [sx dx], y as [sy dy]. unfold wf. simpl. intros -> -> Hx Hy.
  unfold cat, legacy_empty. simpl shape. simpl data.
  change (numel (?n :: s)) with (n * numel s) in *.
  destruct n1 as [|n1], s as [|d s];
    try (destruct n2 as [|n2]); simpl in Hx, Hy |- *.
  all: rewrite ?Nat.eqb_refl, ?shape_eqb_refl; simpl.
  all: rewrite ?take_ge by lia.
  all: rewrite ?app_nil_r.
  all: try (destruct dx; [|discriminate]).
  all: try (destruct dy; [|discriminate]).
  all: try rewrite ?app_nil_r, ?Nat.add_0_r; try reflexivity.
Qed.

Lemma select_row (x : tensor) (n : nat) (s : list nat) (i : nat) :
  shape x = n :: s -> i < n ->
  select x i = Ok (Tensor s (take (numel s) (drop (i * numel s) (data x)))).
Proof.
  intros Hs Hi. unfold select. rewrite Hs.
  destruct (i <? n) eqn:E; [reflexivity | apply Nat.ltb_ge in E; lia].
Qed.

Lemma stack_same_shape (ts : list tensor) (s : list nat) :
  ts <> [] -> Forall (fun t => shape t = s) ts -> stack ts = Ok (stacked s ts).
Proof.
  intros Hne Hall. destruct ts as [|t ts]; [done|].
  inversion Hall as [|? ? Ht Hts]; subst. unfold stack.
  replace (forallb _ ts) with true; [reflexivity|].
  symmetry. apply forallb_forall. intros u Hu.
  rewrite Forall_forall in Hts. apply shape_eqb_eq.
  apply Hts. by apply list_elem_of_In.
Qed.

Lemma entry_stack (ts : list tensor) (s : list nat) (i k : nat) :
  Forall (fun t => shape t = s /\ wf t) ts -> i < length ts -> k < numel s ->
  entry (stacked s ts) i k = item (nth i ts empty0) k.
Proof.
  intros Hall Hi Hk. unfold entry, item, stacked. simpl.
  rewrite (nth_concat_uniform (numel s)); [| |by rewrite length_map|exact Hk].
  - f_equal. change [] with (data empty0). apply map_nth.
  - apply Forall_map. eapply Forall_impl; [exact Hall|].
    intros t [Hs Hw]. unfold wf in Hw. simpl. congruence.
Qed.

Section LambdaReturn.
Variables (imged_reward value_pred bootstrap : tensor) (discount lambda_ : R).
Variables (N : nat) (s : list nat).
Hypothesis HN : 1 <= N.
Hypothesis Hreward : shape imged_reward = N :: s.
Hypothesis Hvalue : shape value_pred = N :: s.
Hypothesis Hboot : shape bootstrap = s.
Hypothesis wf_reward : wf imged_reward.
Hypothesis wf_value : wf value_pred.
Hypothesis wf_boot : wf bootstrap.

Local Abbreviation w := (numel s).
Let row := lambda_row imged_reward value_pred bootstrap discount lambda_ N.
Let next_values :=
  Tensor (N :: s) (drop w (data value_pred) ++ data bootstrap).
Let discount_tensor := scalar_mul discount (ones_like imged_reward).
Let inputs :=
  Tensor (N :: s)
    (zip_with Rplus (data imged_reward)
       (map (fun v => (v * (1 - lambda_))%R)
          (zip_with Rmult (data discount_tensor) (data next_values)))).

Lemma len_reward : length (data imged_reward) = N * w.
Proof. unfold wf in wf_reward. by rewrite wf_reward, Hreward. Qed.

Lemma len_value : length (data value_pred) = N * w.
Proof. unfold wf in wf_value. by rewrite wf_value, Hvalue. Qed.

Lemma len_boot : length (data bootstrap) = w.
Proof. unfold wf in wf_boot. by rewrite wf_boot, Hboot. Qed.

Lemma len_discount : length (data discount_tensor) = N * w.
Proof.
  unfold discount_tensor, scalar_mul, ones_like. simpl. len_simpl. by rewrite Hreward.
Qed.

Lemma len_next : length (data next_values) = N * w.
Proof.
  unfold next_values. simpl. len_simpl. rewrite len_value, len_boot. nia.
Qed.

Lemma len_inputs : length (data inputs) = N * w.
Proof.
  unfold inputs. cbn [data]. len_simpl. rewrite len_reward, len_discount, len_next. lia.
Qed.

Lemma next_values_ok :
  (tail_values ← slice_from1 value_pred; cat tail_values (unsqueeze0 bootstrap) 0)
  = Ok next_values.
Proof.
  unfold slice_from1. rewrite Hvalue. simpl.
  rewrite (cat0_rows _ _ (pred N) 1 s); simpl; try reflexivity; try congruence.
  - unfold next_values. do 2 f_equal. f_equal. lia.
  - unfold wf. simpl. len_simpl. rewrite len_value. nia.
  - unfold wf. simpl. len_simpl. rewrite len_boot, Hboot. lia.
Qed.

Lemma inputs_ok :
  (discounted ← mul discount_tensor next_values;
   add imged_reward (mul_scalar discounted (1 - lambda_))) = Ok inputs.
Proof.
  assert (Hd : shape discount_tensor = N :: s) by exact Hreward.
  unfold mul, add. rewrite binop_same_shape; [|by rewrite Hd| |].
  - cbn [mbind result_bind]. rewrite binop_same_shape.
    + cbn [data shape mul_scalar]. unfold inputs. by rewrite Hreward.
    + cbn [data shape mul_scalar]. by rewrite Hreward, Hd.
    + exact wf_reward.
    + unfold wf. cbn [data shape mul_scalar]. len_simpl.
      rewrite len_discount, len_next, Hd. len_simpl. lia.
  - unfold wf. rewrite len_discount, Hd. by len_simpl.
  - unfold wf. rewrite len_next. cbn [shape next_values]. by len_simpl.
Qed.

Lemma nth_discount (j : nat) :
  j < N * w -> nth j (data discount_tensor) 0%R = (discount * 1)%R.
Proof.
  intros Hj. unfold discount_tensor, scalar_mul, ones_like. simpl.
  rewrite Hreward. rewrite numel_cons.
  rewrite nth_map_lt by (len_simpl; lia). by rewrite nth_replicate_lt.
Qed.

Lemma nth_next (i k : nat) :
  i < N -> k < w ->
  nth (i * w + k) (data next_values) 0%R
  = if i <? N - 1 then entry value_pred (i + 1) k else item bootstrap k.
Proof.
  intros Hi Hk. unfold next_values, entry, item. simpl. rewrite Hvalue. simpl.
  destruct (i <? N - 1) eqn:E.
  - apply Nat.ltb_lt in E. rewrite app_nth1 by (len_simpl; rewrite len_value; nia).
    rewrite nth_drop. f_equal. lia.
  - apply Nat.ltb_ge in E. rewrite app_nth2 by (len_simpl; rewrite len_value; nia).
    len_simpl. rewrite len_value. f_equal. nia.
Qed.

Lemma nth_inputs (i k : nat) :
  i < N -> k < w ->
  nth (i * w + k) (data inputs) 0%R
  = spec_target (fun j => entry imged_reward j k) (fun j => entry value_pred j k)
      (item bootstrap k) discount lambda_ N i.
Proof.
  intros Hi Hk. assert (Hik : i * w + k < N * w) by nia.
  unfold inputs. cbn [data].
  rewrite nth_zip_with
    by (len_simpl; rewrite ?len_reward, ?len_discount, ?len_next; lia).
  rewrite nth_map_lt by (len_simpl; rewrite ?len_discount, ?len_next; lia).
  rewrite nth_zip_with by (rewrite ?len_discount, ?len_next; lia).
  rewrite nth_discount, nth_next by assumption.
  unfold spec_target, spec_next_values, entry, item.
  rewrite ?Hreward, ?Hvalue. cbn [tail]. destruct (i <? N - 1); ring.
Qed.

Lemma row_shape (n : nat) : shape (row n) = s.
Proof. exact Hboot. Qed.

Lemma row_wf (n : nat) : wf (row n).
Proof. unfold wf, row, lambda_row. simpl. by len_simpl. Qed.

Lemma row_item (n k : nat) :
  k < w ->
  item (row n) k
  = spec_last (fun j => entry imged_reward j k) (fun j => entry value_pred j k)
      (item bootstrap k) discount lambda_ N n.
Proof.
  intros Hk. unfold item, row, lambda_row. simpl data. rewrite Hboot.
  by rewrite nth_map_seq.
Qed.

Lemma row_0 : row 0 = bootstrap.
Proof.
  transitivity (Tensor (shape bootstrap) (data bootstrap)); [|apply tensor_eta].
  unfold row, lambda_row. f_equal.
  symmetry. apply list_eq_map_seq; [by rewrite Hboot; apply len_boot|]. reflexivity.
Qed.

Lemma lambda_body_step (n : nat) (outputs : list tensor) :
  n < N ->
  lambda_body inputs discount_tensor lambda_ (row n, outputs) (N - 1 - n)
  = Ok (row (S n), outputs ++ [row (S n)]).
Proof.
  intros Hn. set (i := N - 1 - n). assert (Hi : i < N) by lia.
  assert (Hw : w <= N * w - i * w) by (apply mul_le_sub; exact Hi).
  pose proof (row_wf n) as Hr. unfold wf in Hr. rewrite row_shape in Hr.
  unfold lambda_body.
  rewrite (select_row inputs N s i eq_refl Hi). cbn [mbind result_bind].
  rewrite (select_row discount_tensor N s i Hreward Hi). cbn [mbind result_bind].
  set (inp := Tensor s (take w (drop (i * w) (data inputs)))).
  set (disc := Tensor s (take w (drop (i * w) (data discount_tensor)))).
  assert (Hinp : length (data inp) = w)
    by (unfold inp; cbn [data]; len_simpl; rewrite len_inputs; lia).
  assert (Hdisc : length (data disc) = w)
    by (unfold disc; cbn [data]; len_simpl; rewrite len_discount; lia).
  unfold mul, add.
  rewrite (binop_same_shape Rmult (mul_scalar disc lambda_) (row n));
    [|by rewrite row_shape|unfold wf; cbn [data shape mul_scalar]; len_simpl; exact Hdisc
     |apply row_wf].
  cbn [mbind result_bind].
  rewrite binop_same_shape.
  2: reflexivity.
  2: exact Hinp.
  2: { unfold wf. cbn [data shape mul_scalar]. len_simpl. rewrite Hdisc, Hr.
       unfold disc. cbn [shape]. lia. }
  cbn [mbind result_bind mret result_ret data shape mul_scalar].
  assert (Hrow : Tensor (shape inp)
    (zip_with Rplus (data inp)
       (zip_with Rmult (map (fun v => (v * lambda_)%R) (data disc)) (data (row n))))
    = row (S n)).
  { unfold row at 2, lambda_row. rewrite Hboot. cbn [shape inp]. f_equal.
    apply list_eq_map_seq.
    - len_simpl. lia.
    - intros k Hk.
      rewrite nth_zip_with by (len_simpl; lia).
      rewrite nth_zip_with by (len_simpl; lia).
      rewrite nth_map_lt by lia.
      unfold inp, disc. cbn [data].
      rewrite !nth_take, !nth_drop by exact Hk.
      rewrite nth_inputs, nth_discount by (assumption || nia).
      change (nth k (data (row n)) 0%R) with (item (row n) k).
      rewrite row_item by exact Hk. cbn [spec_last].
      replace (N - S n) with i by lia. ring. }
  rewrite Hrow. reflexivity.
Qed.

Lemma lambda_loop (m : nat) :
  m <= N ->
  for_loop (lambda_body inputs discount_tensor lambda_) (reverse (seq 0 m))
    (row (N - m), map (fun j => row (S j)) (seq 0 (N - m)))
  = Ok (row N, map (fun j => row (S j)) (seq 0 N)).
Proof.
  induction m as [|m IH]; intros Hm.
  - rewrite Nat.sub_0_r. reflexivity.
  - rewrite seq_S, reverse_app, reverse_singleton. cbn [app for_loop Nat.add].
    pose proof (lambda_body_step (N - S m)
      (map (fun j => row (S j)) (seq 0 (N - S m)))) as Hstep.
    replace (N - 1 - (N - S m)) with m in Hstep by lia.
    rewrite Hstep by lia. cbn [mbind result_bind].
    replace (S (N - S m)) with (N - m) by lia.
    rewrite <- IH by lia. f_equal. f_equal.
    replace (N - m) with (S (N - S m)) at 2 by lia.
    rewrite seq_S, map_app. simpl. do 3 f_equal. lia.
Qed.

Lemma lambda_return_outputs_ok :
  lambda_return_outputs imged_reward value_pred bootstrap discount lambda_
  = Ok (reverse (map (fun j => row (S j)) (seq 0 N))).
Proof.
  unfold lambda_return_outputs.
  pose proof next_values_ok as H1. simpl in H1.
  destruct (slice_from1 value_pred) as [tv|]; [|discriminate]. simpl in *.
  rewrite H1. simpl.
  pose proof inputs_ok as H2. simpl in H2. fold discount_tensor.
  destruct (mul discount_tensor next_values) as [dn|]; [|discriminate]. simpl in *.
  rewrite H2. simpl.
  pose proof (lambda_loop N (le_n N)) as H3. rewrite Nat.sub_diag in H3. simpl in H3.
  rewrite row_0 in H3. rewrite H3. reflexivity.
Qed.

End LambdaReturn.

Lemma length_concat_uniform (w : nat) (rows : list (list R)) :
  Forall (fun r => length r = w) rows -> length (concat rows) = length rows * w.
Proof.
  induction 1 as [|r rows Hr _ IH]; simpl; [reflexivity|].
  rewrite length_app, IH, Hr. lia.
Qed.

Lemma nth_reverse_map_seq {A : Type} (f : nat -> A) (n i : nat) (d : A) :
  i < n -> nth i (reverse (map f (seq 0 n))) d = f (n - 1 - i).
Proof.
  intros Hi.
  rewrite nth_lookup, reverse_lookup by (rewrite length_map, length_seq; exact Hi).
  rewrite length_map, length_seq, list_lookup_fmap, lookup_seq_lt by lia.
  simpl. f_equal. lia.
Qed.

Section LambdaReturnRows.
Variables (imged_reward value_pred bootstrap : tensor) (discount lambda_ : R).
Variables (N : nat) (s : list nat).
Hypothesis HN : 1 <= N.
Hypothesis Hreward : shape imged_reward = N :: s.
Hypothesis Hvalue : shape value_pred = N :: s.
Hypothesis Hboot : shape bootstrap = s.
Hypothesis wf_reward : wf imged_reward.
Hypothesis wf_value : wf value_pred.
Hypothesis wf_boot : wf bootstrap.

Let rows : list tensor :=
  reverse (map (fun j => lambda_row imged_reward value_pred bootstrap
                           discount lambda_ N (S j)) (seq 0 N)).

Lemma rows_length : length rows = N.
Proof. unfold rows. by rewrite length_reverse, length_map, length_seq. Qed.

Lemma rows_Forall : Forall (fun t => shape t = s /\ wf t) rows.
Proof.
  unfold rows. rewrite Forall_reverse. apply Forall_map, Forall_forall.
  intros j _. split; [exact Hboot | apply row_wf].
Qed.

Lemma lambda_return_rows :
  lambda_return imged_reward value_pred bootstrap discount lambda_
  = Ok (stacked s rows) /\ length rows = N.
Proof.
  unfold lambda_return.
  rewrite (lambda_return_outputs_ok _ _ _ _ _ N s) by assumption.
  cbn [mbind result_bind]. fold rows.
  rewrite (stack_same_shape rows s).
  - split; [reflexivity | apply rows_length].
  - intros Hnil. pose proof rows_length as Hl. rewrite Hnil in Hl. simpl in Hl. lia.
  - eapply Forall_impl; [apply rows_Forall|]. by intros t [Ht _].
Qed.

Lemma lambda_rows_wf : wf (stacked s rows).
Proof.
  unfold wf, stacked. cbn [data shape]. rewrite (length_concat_uniform (numel s)).
  - by rewrite length_map, numel_cons.
  - apply Forall_map. eapply Forall_impl; [apply rows_Forall|].
    intros t [Ht Hw]. unfold wf in Hw. simpl. congruence.
Qed.

Lemma lambda_rows_entry (i k : nat) :
  i < N -> k < numel s ->
  entry (stacked s rows) i k
  = spec_last (fun j => entry imged_reward j k) (fun j => entry value_pred j k)
      (item bootstrap k) discount lambda_ N (N - i).
Proof.
  intros Hi Hk.
  rewrite (entry_stack rows s) by (rewrite ?rows_length; assumption || apply rows_Forall).
  unfold rows. rewrite nth_reverse_map_seq by exact Hi.
  rewrite (row_item _ _ _ _ _ N s) by assumption.
  f_equal. lia.
Qed.

End LambdaReturnRows.

(** ** The scalar recurrence *)

(** [spec_G] read forwards: the return of step [i] from that of step [i + 1],
    or from the bootstrap at the last step. *)
Lemma spec_G_step (rw v : nat -> R) (b discount lambda_ : R) (N i : nat) :
  i < N ->
  spec_G rw v b discount lambda_ N i
  = (spec_target rw v b discount lambda_ N i
     + discount * lambda_
       * (if S i <? N then spec_G rw v b discount lambda_ N (S i) else b))%R.
Proof.
  intros Hi. unfold spec_G. replace (N - i) with (S (N - S i)) by lia.
  cbn [spec_last]. replace (N - S (N - S i)) with i by lia.
  destruct (S i <? N) eqn:E; [reflexivity|].
  apply Nat.ltb_ge in E. replace (N - S i) with 0 by lia. reflexivity.
Qed.

Lemma sum_scale (c : R) (f : nat -> R) (l : list nat) :
  foldr Rplus 0%R (map (fun j => (c * f j)%R) l)
  = (c * foldr Rplus 0%R (map f l))%R.
Proof. induction l as [|j l IH]; simpl; [ring | rewrite IH; ring]. Qed.

Lemma sum_ext_seq (f g : nat -> R) (a n : nat) :
  (forall j, a <= j < a + n -> f j = g j) ->
  foldr Rplus 0%R (map f (seq a n)) = foldr Rplus 0%R (map g (seq a n)).
Proof.
  revert a. induction n as [|n IH]; intros a H; simpl; [reflexivity|].
  rewrite H by lia. rewrite IH; [reflexivity|]. intros j Hj. apply H. lia.
Qed.

Lemma spec_last_monte_carlo (rw v : nat -> R) (b discount : R) (N n : nat) :
  n <= N ->
  spec_last rw v b discount 1 N n
  = (foldr Rplus 0 (map (fun j => discount ^ (j - (N - n)) * rw j) (seq (N - n) n))
     + discount ^ n * b)%R.
Proof.
  induction n as [|n IH]; intros Hn.
  - simpl. ring.
  - cbn [spec_last]. rewrite IH by lia. unfold spec_target.
    replace (seq (N - S n) (S n)) with ((N - S n) :: seq (N - n) n)
      by (simpl; f_equal; f_equal; lia).
    cbn [map foldr]. rewrite Nat.sub_diag.
    rewrite (sum_ext_seq (fun j => (discount ^ (j - (N - S n)) * rw j)%R)
               (fun j => (discount * (discount ^ (j - (N - n)) * rw j))%R)).
    + rewrite sum_scale. simpl. ring.
    + intros j Hj. replace (j - (N - S n)) with (S (j - (N - n))) by lia. simpl. ring.
Qed.

Lemma spec_G_monte_carlo (rw v : nat -> R) (b discount : R) (N i : nat) :
  i <= N -> spec_G rw v b discount 1 N i = monte_carlo rw b discount N i.
Proof.
  intros Hi. unfold spec_G, monte_carlo. rewrite spec_last_monte_carlo by lia.
  replace (N - (N - i)) with i by lia. reflexivity.
Qed.

Lemma spec_G_one_step (rw v : nat -> R) (b discount : R) (N i : nat) :
  i < N ->
  spec_G rw v b discount 0 N i
  = (rw i + discount * spec_next_values v b N i)%R.
Proof.
  intros Hi. unfold spec_G. replace (N - i) with (S (N - S i)) by lia.
  cbn [spec_last]. unfold spec_target. replace (N - S (N - S i)) with i by lia. ring.
Qed.

(** ** An empty reward sequence *)

Lemma broadcast_rev_0_1 (a : list nat) :
  broadcast_rev (a ++ [0]) (a ++ [1]) = Some (a ++ [0]).
Proof.
  induction a as [|x a IH]; simpl; [reflexivity|].
  rewrite Nat.eqb_refl, IH. reflexivity.
Qed.

Lemma binop_empty_rows (f : R -> R -> R) (x y : tensor) (s : list nat) :
  shape x = 0 :: s -> shape y = 1 :: s ->
  binop f x y = Ok (Tensor (0 :: s) []).
Proof.
  intros Hx Hy. unfold binop, broadcast_shapes, expand_to. rewrite Hx, Hy.
  rewrite !reverse_cons, broadcast_rev_0_1. cbn [fmap option_fmap option_map].
  rewrite reverse_app, reverse_involutive. cbn [reverse rev_append app].
  rewrite pad_shape_same. reflexivity.
Qed.

Lemma lambda_return_empty (imged_reward value_pred bootstrap : tensor)
    (discount lambda_ : R) (s : list nat) :
  shape imged_reward = 0 :: s -> shape value_pred = 0 :: s -> shape bootstrap = s ->
  wf imged_reward -> wf value_pred -> wf bootstrap ->
  lambda_return_outputs imged_reward value_pred bootstrap discount lambda_ = Ok []
  /\ lambda_return imged_reward value_pred bootstrap discount lambda_
     = Raise RuntimeError.
Proof.
  intros Hr Hv Hb Wr Wv Wb.
  assert (Hout : lambda_return_outputs imged_reward value_pred bootstrap
                   discount lambda_ = Ok []).
  { unfold lambda_return_outputs, slice_from1. rewrite Hv. cbn [mbind result_bind pred].
    assert (Hdv : data value_pred = []).
    { unfold wf in Wv. rewrite Hv, numel_cons in Wv. by destruct (data value_pred). }
    assert (Hdr : data imged_reward = []).
    { unfold wf in Wr. rewrite Hr, numel_cons in Wr. by destruct (data imged_reward). }
    rewrite (cat0_rows _ _ 0 1 s); cbn [shape data unsqueeze0]; try congruence.
    2: { unfold wf. cbn [shape data]. by rewrite Hdv, drop_nil. }
    2: { unfold wf, unsqueeze0 in *. simpl. rewrite numel_cons, Wb. lia. }
    cbn [mbind result_bind]. unfold mul.
    rewrite (binop_empty_rows _ _ _ s) by (exact Hr || reflexivity).
    cbn [mbind result_bind]. unfold add.
    rewrite binop_same_shape; [| by rewrite Hr | exact Wr | reflexivity].
    cbn [mbind result_bind len shape]. rewrite Hr. reflexivity. }
  split; [exact Hout|]. unfold lambda_return. rewrite Hout. reflexivity.
Qed.

(** ** Parameter scopes *)

Lemma get_parameters_set_requires_grad (mods : list nat) (p : nat) (v : bool)
    (h : heap) :
  get_parameters mods (set_requires_grad p v h) = get_parameters mods h.
Proof. reflexivity. Qed.


Ltac elem_cases :=
  repeat case_decide; rewrite ?elem_of_cons, ?elem_of_nil in *;
  (reflexivity || tauto).

Lemma set_all_spec (flag : bool) (pre rest : list nat) (h : heap) :
  (flag = true -> forall p, p ∈ pre -> floating h p = true) ->
  exists h1,
    set_all flag (pre ++ rest) h = set_all flag rest h1
    /\ parameters h1 = parameters h /\ floating h1 = floating h
    /\ forall p, requires_grad h1 !!! p
                 = if decide (p ∈ pre) then flag else requires_grad h !!! p.
Proof.
  revert h. induction pre as [|q pre IH]; intros h Hfl; cbn [app set_all].
  - exists h. split; [reflexivity|]. split; [reflexivity|]. split; [reflexivity|].
    intros p. elem_cases.
  - assert (Hq : flag && negb (floating h q) = false).
    { destruct flag; [|reflexivity]. rewrite Hfl by (reflexivity || by left).
      reflexivity. }
    unfold assign_requires_grad. rewrite Hq.
    destruct (IH (set_requires_grad q flag h)) as (h1 & Hs & Hp & Hf & Hg).
    { intros Hflag p Hp. apply Hfl; [exact Hflag | by right]. }
    exists h1. split; [exact Hs|]. split; [exact Hp|]. split; [exact Hf|].
    intros p. rewrite Hg. cbn [requires_grad set_requires_grad].
    destruct (decide (p = q)) as [->|Hne].
    + rewrite lookup_total_insert_eq. elem_cases.
    + rewrite lookup_total_insert_ne by done. elem_cases.
Qed.

Lemma set_all_completes (flag : bool) (params : list nat) (h : heap) :
  (flag = true -> forall p, p ∈ params -> floating h p = true) ->
  exists h1,
    set_all flag params h = (h1, Completed)
    /\ parameters h1 = parameters h /\ floating h1 = floating h
    /\ forall p, requires_grad h1 !!! p
                 = if decide (p ∈ params) then flag else requires_grad h !!! p.
Proof.
  intros Hfl. destruct (set_all_spec flag params [] h Hfl) as (h1 & Hs & Hrest).
  exists h1. rewrite app_nil_r in Hs. by split.
Qed.

Lemma set_all_raises (pre post : list nat) (q : nat) (h : heap) :
  (forall p, p ∈ pre -> floating h p = true) -> floating h q = false ->
  exists h1,
    set_all true (pre ++ q :: post) h = (h1, Raised RuntimeError)
    /\ parameters h1 = parameters h
    /\ forall p, requires_grad h1 !!! p
                 = if decide (p ∈ pre) then true else requires_grad h !!! p.
Proof.
  intros Hpre Hq.
  destruct (set_all_spec true pre (q :: post) h (fun _ => Hpre))
    as (h1 & Hs & Hp & Hf & Hg).
  exists h1. split; [|by split]. rewrite Hs. cbn [set_all].
  unfold assign_requires_grad. by rewrite Hf, Hq.
Qed.

Lemma restore_spec (f : nat -> bool) (self : scope) (pre params : list nat) (h : heap) :
  param_states self = map f (pre ++ params) ->
  (forall p, p ∈ params -> f p = true -> floating h p = true) ->
  exists h',
    restore self (length pre) params h = Ok h'
    /\ parameters h' = parameters h /\ floating h' = floating h
    /\ forall p, requires_grad h' !!! p
                 = if decide (p ∈ params) then f p else requires_grad h !!! p.
Proof.
  revert pre h. induction params as [|q params IH]; intros pre h Hst Hfl; cbn [restore].
  - exists h. split; [reflexivity|]. split; [reflexivity|]. split; [reflexivity|].
    intros p. elem_cases.
  - unfold getitem. rewrite Hst.
    change (map f (pre ++ q :: params)) with (f <$> (pre ++ q :: params)).
    rewrite list_lookup_fmap, list_lookup_middle by reflexivity.
    cbn [fmap option_fmap option_map mbind result_bind].
    assert (Hq : f q && negb (floating h q) = false).
    { destruct (f q) eqn:E; [|reflexivity]. rewrite (Hfl q) by (by left || exact E).
      reflexivity. }
    unfold assign_requires_grad. rewrite Hq. cbn [mbind result_bind].
    destruct (IH (pre ++ [q]) (set_requires_grad q (f q) h)) as (h' & Hr & Hp & Hd & Hf).
    { by rewrite <- app_assoc. }
    { intros p Hp. apply Hfl. by right. }
    rewrite length_app in Hr. cbn [length] in Hr. rewrite Nat.add_1_r in Hr.
    exists h'. split; [exact Hr|]. split; [by rewrite Hp|]. split; [by rewrite Hd|].
    intros p. rewrite Hf. cbn [requires_grad set_requires_grad].
    destruct (decide (p = q)) as [->|Hne].
    + rewrite lookup_total_insert_eq. elem_cases.
    + rewrite lookup_total_insert_ne by done. elem_cases.
Qed.

(** How [restore] ends, position by position: it runs out of recorded flags,
    or it is refused a flag [True] by a parameter that is not floating-point,
    or it completes. *)
Lemma restore_cases (self : scope) (i : nat) (params : list nat) (h : heap) :
  i <= length (param_states self) ->
  match restore self i params h with
  | Ok h' =>
      parameters h' = parameters h /\ floating h' = floating h
      /\ i + length params <= length (param_states self)
      /\ forall j p, params !! j = Some p -> param_states self !! (i + j) = Some true ->
                     floating h p = true
  | Raise e =>
      (e = IndexError
       /\ length (param_states self) < i + length params
       /\ forall j p, i + j < length (param_states self) -> params !! j = Some p ->
                      param_states self !! (i + j) = Some true -> floating h p = true)
      \/ (e = RuntimeError
          /\ exists j p, params !! j = Some p
                         /\ param_states self !! (i + j) = Some true
                         /\ floating h p = false)
  end.
Proof.
  revert i h. induction params as [|q params IH]; intros i h Hi; cbn [restore].
  - split; [reflexivity|]. split; [reflexivity|]. cbn [length].
    split; [lia|]. intros j p Hj. by rewrite lookup_nil in Hj.
  - unfold getitem. destruct (param_states self !! i) as [flag|] eqn:Ei;
      cbn [mbind result_bind].
    2: { apply lookup_ge_None in Ei. left. split; [reflexivity|]. cbn [length].
         split; [lia|]. intros j p Hj. lia. }
    pose proof (lookup_lt_Some _ _ _ Ei) as Hlt.
    unfold assign_requires_grad.
    destruct (flag && negb (floating h q)) eqn:Eq; cbn [mbind result_bind].
    { right. split; [reflexivity|]. exists 0, q.
      apply andb_true_iff in Eq as [-> Hq]. apply negb_true_iff in Hq.
      rewrite Nat.add_0_r. by repeat split. }
    assert (Hq : flag = true -> floating h q = true).
    { intros ->. by destruct (floating h q). }
    specialize (IH (S i) (set_requires_grad q flag h) ltac:(lia)).
    destruct (restore self (S i) params (set_requires_grad q flag h)) as [h'|e].
    + destruct IH as (Hp & Hd & Hlen & Hall). split; [exact Hp|]. split; [exact Hd|].
      cbn [length]. split; [lia|]. intros [|j] p Hj Hs.
      * injection Hj as <-. rewrite Nat.add_0_r, Ei in Hs. injection Hs as ->.
        by apply Hq.
      * apply (Hall j p Hj). by replace (S i + j) with (i + S j) by lia.
    + destruct IH as [(-> & Hlen & Hall)|(-> & j & p & Hj & Hs & Hd)].
      * left. split; [reflexivity|]. cbn [length]. split; [lia|].
        intros [|j] p Hlt' Hj Hs.
        -- injection Hj as <-. rewrite Nat.add_0_r, Ei in Hs. injection Hs as ->.
           by apply Hq.
        -- apply (Hall j p); [lia | exact Hj |].
           by replace (S i + j) with (i + S j) by lia.
      * right. split; [reflexivity|]. exists (S j), p.
        split; [exact Hj|]. split; [|exact Hd].
        by replace (i + S j) with (S i + j) by lia.
Qed.


(** ** One step of the rollout *)

Lemma setitem_lt {A : Type} (l : list A) (i : nat) (v : A) :
  i < length l -> setitem l i v = Ok (<[i:=v]> l).
Proof.
  intros Hi. unfold setitem.
  destruct (i <? length l) eqn:E; [reflexivity | apply Nat.ltb_ge in E; lia].
Qed.

Lemma getitem_Some {A : Type} (l : list A) (i : nat) (v : A) :
  l !! i = Some v -> getitem l i = Ok v.
Proof. intros H. unfold getitem. by rewrite H. Qed.

Lemma getitem_insert {A : Type} (l : list A) (i : nat) (v : A) :
  i < length l -> getitem (<[i:=v]> l) i = Ok v.
Proof. intros Hi. apply getitem_Some. by apply list_lookup_insert_eq. Qed.

Lemma imagine_step_spec (policy : Policy) (transition_model : TransitionModel)
    (st : rollout) (t : nat) (b s : tensor) :
  beliefs st !! t = Some b -> prior_states st !! t = Some s ->
  t + 1 < length (beliefs st) -> t + 1 < length (prior_states st) ->
  t + 1 < length (prior_means st) -> t + 1 < length (prior_std_devs st) ->
  imagine_step policy transition_model st t
  = (ts ← spec_step policy transition_model b s (gen st); mret (record_step st t ts)).
Proof.
  intros Hb Hs Lb Ls Lm Ld. unfold imagine_step, spec_step.
  rewrite (getitem_Some _ _ _ Hs), (getitem_Some _ _ _ Hb).
  cbn [mbind result_bind].
  destruct (get_action policy b s) as [a|e]; [|reflexivity]. cbn [mbind result_bind].
  destruct (cat s a 1) as [sa|e]; [|reflexivity]. cbn [mbind result_bind].
  destruct (fc_embed_state_action transition_model sa) as [e1|e]; [|reflexivity].
  cbn [mbind result_bind].
  destruct (act_fn transition_model e1) as [h1|e]; [|reflexivity].
  cbn [mbind result_bind].
  destruct (rnn transition_model h1 b) as [nb|e]; [|reflexivity].
  cbn [mbind result_bind].
  rewrite (setitem_lt _ _ _ Lb). cbn [mbind result_bind].
  rewrite (getitem_insert _ _ _ Lb). cbn [mbind result_bind].
  destruct (fc_embed_belief_prior transition_model nb) as [e2|e]; [|reflexivity].
  cbn [mbind result_bind].
  destruct (act_fn transition_model e2) as [h2|e]; [|reflexivity].
  cbn [mbind result_bind].
  destruct (fc_state_prior transition_model h2) as [pr|e]; [|reflexivity].
  cbn [mbind result_bind].
  destruct (chunk2 pr 1) as [ch|e]; [|reflexivity]. cbn [mbind result_bind].
  destruct (unpack2 ch) as [[mean raw]|e]; [|reflexivity]. cbn [mbind result_bind].
  rewrite (setitem_lt _ _ _ Lm), (setitem_lt _ _ _ Ld). cbn [mbind result_bind].
  rewrite (getitem_insert _ _ _ Lm), (getitem_insert _ _ _ Ld).
  cbn [mbind result_bind].
  destruct (randn_like mean (gen st)) as [noise g'].
  destruct (mul _ noise) as [sc|e]; [|reflexivity]. cbn [mbind result_bind].
  destruct (add mean sc) as [ns|e]; [|reflexivity]. cbn [mbind result_bind].
  rewrite (setitem_lt _ _ _ Ls). reflexivity.
Qed.

(** ** Shapes along dimension 1 *)

Lemma numel_nil : numel [] = 1.
Proof. reflexivity. Qed.

Lemma length_concat_zip_app (w1 w2 n : nat) (d1 d2 : list R) :
  length d1 = n * w1 -> length d2 = n * w2 ->
  length (concat (zip_with app (blocks w1 n d1) (blocks w2 n d2))) = n * (w1 + w2).
Proof.
  revert d1 d2. induction n as [|n IH]; intros d1 d2 H1 H2; [reflexivity|].
  cbn [blocks zip_with concat]. rewrite !length_app, !length_take.
  rewrite IH by (rewrite length_drop; lia). lia.
Qed.

Lemma length_concat_take_drop (d lo w : nat) (rows : list (list R)) :
  Forall (fun r => length r = d) rows -> lo + w <= d ->
  length (concat (map (fun r => take w (drop lo r)) rows)) = length rows * w.
Proof.
  intros Hrows Hle. rewrite (length_concat_uniform w); [by rewrite length_map|].
  apply Forall_map. eapply Forall_impl; [exact Hrows|]. intros r Hr. simpl in *.
  rewrite length_take, length_drop. lia.
Qed.

Lemma legacy_empty_rank2 (x : tensor) (a b : nat) (s : list nat) :
  shape x = a :: b :: s -> legacy_empty x = false.
Proof. intros H. unfold legacy_empty. rewrite H. by destruct a. Qed.

Lemma cat_dim1 (x y : tensor) (B D1 D2 : nat) :
  has_shape [B; D1] x -> has_shape [B; D2] y ->
  exists z, cat x y 1 = Ok z /\ has_shape [B; D1 + D2] z.
Proof.
  intros [Hx Wx] [Hy Wy]. unfold wf in *. rewrite Hx in Wx. rewrite Hy in Wy.
  rewrite !numel_cons, numel_nil in Wx, Wy.
  unfold cat. rewrite (legacy_empty_rank2 x B D1 []), (legacy_empty_rank2 y B D2 [])
    by assumption.
  rewrite Hx, Hy.
  cbn [length Nat.eqb orb negb Nat.ltb Nat.leb take drop shape_eqb nth andb].
  rewrite Nat.eqb_refl. cbn [andb negb app].
  eexists. split; [reflexivity|]. split; [reflexivity|].
  unfold wf. cbn [data shape]. rewrite !numel_cons, numel_nil.
  rewrite length_concat_zip_app by lia. lia.
Qed.

Lemma half_double (n : nat) : Nat.div (2 * n + 1) 2 = n.
Proof. symmetry. apply (Nat.div_unique _ 2 n 1); lia. Qed.

Lemma chunk2_dim1 (x : tensor) (B D : nat) :
  has_shape [B; 2 * D] x ->
  exists m r, chunk2 x 1 = Ok [m; r] /\ has_shape [B; D] m /\ has_shape [B; D] r.
Proof.
  intros [Hx Wx]. unfold wf in Wx. rewrite Hx, !numel_cons, numel_nil in Wx.
  pose proof (Forall_blocks (2 * D * 1) (B * 1) (data x) ltac:(lia)) as Hrows.
  unfold chunk2. rewrite Hx.
  cbn [length Nat.eqb negb Nat.ltb Nat.leb take drop nth app].
  rewrite !numel_cons, numel_nil, half_double.
  destruct D as [|D].
  - cbn [Nat.mul Nat.eqb]. do 2 eexists. split; [reflexivity|].
    split; (split; [reflexivity|]); unfold wf; cbn [data shape];
      rewrite !numel_cons, numel_nil;
      rewrite (length_concat_take_drop (2 * 0 * 1)), length_blocks by (assumption || lia);
      lia.
  - replace (2 * S D =? 0) with false by (symmetry; apply Nat.eqb_neq; lia).
    replace (2 * S D =? 1) with false by (symmetry; apply Nat.eqb_neq; lia).
    replace (2 * S D - S D) with (S D) by lia.
    do 2 eexists. split; [reflexivity|].
    split; (split; [reflexivity|]); unfold wf; cbn [data shape];
      rewrite ?numel_cons, ?numel_nil;
      rewrite (length_concat_take_drop (2 * S D * 1)), length_blocks
        by (assumption || lia);
      lia.
Qed.

Lemma has_shape_softplus (s : list nat) (x : tensor) :
  has_shape s x -> has_shape s (softplus_t x).
Proof.
  intros [Hs Hw]. split; [exact Hs|]. unfold wf in *. simpl. by rewrite length_map.
Qed.

Lemma has_shape_add_scalar (s : list nat) (x : tensor) (c : R) :
  has_shape s x -> has_shape s (add_scalar x c).
Proof.
  intros [Hs Hw]. split; [exact Hs|]. unfold wf in *. simpl. by rewrite length_map.
Qed.

Lemma has_shape_randn_like (s : list nat) (x : tensor) (g : generator) :
  shape x = s -> has_shape s (randn_like x g).1.
Proof.
  intros Hs. split; [exact Hs|]. unfold wf. simpl.
  by rewrite length_map, length_seq.
Qed.

Lemma binop_has_shape (f : R -> R -> R) (s : list nat) (x y : tensor) :
  has_shape s x -> has_shape s y ->
  exists z, binop f x y = Ok z /\ has_shape s z
            /\ data z = zip_with f (data x) (data y).
Proof.
  intros [Hx Wx] [Hy Wy]. eexists. split; [|split].
  - apply binop_same_shape; congruence.
  - split; [exact Hx|]. apply binop_same_shape_wf; congruence.
  - reflexivity.
Qed.

(** ** The rollout under the shape contracts *)

Section Rollout.
Variables (policy : Policy) (transition_model : TransitionModel).
Variables (B Dh Ds Da E1 E2 : nat).
Hypothesis Hws : well_shaped policy transition_model B Dh Ds Da E1 E2.

Local Abbreviation step_ok := (step_shapes transition_model B Dh Ds).

Lemma spec_step_shapes (b s : tensor) (g : generator) :
  has_shape [B; Dh] b -> has_shape [B; Ds] s ->
  exists ts, spec_step policy transition_model b s g = Ok ts /\ step_ok ts.
Proof.
  intros Hb Hs. destruct Hws as [Hact Hesa Ha1 Hrnn Hebp Ha2 Hsp]. unfold spec_step.
  destruct (Hact b s Hb Hs) as (a & -> & Sa). cbn [mbind result_bind].
  destruct (cat_dim1 s a B Ds Da Hs Sa) as (sa & -> & Ssa). cbn [mbind result_bind].
  destruct (Hesa sa Ssa) as (e1 & -> & Se1). cbn [mbind result_bind].
  destruct (Ha1 e1 Se1) as (h1 & -> & Sh1). cbn [mbind result_bind].
  destruct (Hrnn h1 b Sh1 Hb) as (nb & -> & Snb). cbn [mbind result_bind].
  destruct (Hebp nb Snb) as (e2 & -> & Se2). cbn [mbind result_bind].
  destruct (Ha2 e2 Se2) as (h2 & -> & Sh2). cbn [mbind result_bind].
  destruct (Hsp h2 Sh2) as (pr & -> & Spr). cbn [mbind result_bind].
  destruct (chunk2_dim1 pr B Ds Spr) as (mean & raw & -> & Sm & Sr).
  cbn [mbind result_bind unpack2].
  pose proof (has_shape_randn_like [B; Ds] mean g (proj1 Sm)) as Sn.
  destruct (randn_like mean g) as [noise g']. cbn [fst] in Sn.
  pose proof (has_shape_add_scalar _ _ (min_std_dev transition_model)
                (has_shape_softplus _ _ Sr)) as Sstd.
  destruct (binop_has_shape Rmult _ _ _ Sstd Sn) as (sc & Hsc & Ssc & _).
  unfold mul. rewrite Hsc. cbn [mbind result_bind].
  destruct (binop_has_shape Rplus _ _ _ Sm Ssc) as (ns & Hns & Sns & _).
  unfold add. rewrite Hns. cbn [mbind result_bind].
  eexists. split; [reflexivity|].
  split; [exact Snb|]. split; [exact Sns|]. split; [exact Sm|]. split; [exact Sr|].
  reflexivity.
Qed.

Variables (B0 S0 : tensor) (g : generator).
Hypothesis HB0 : has_shape [B; Dh] B0.
Hypothesis HS0 : has_shape [B; Ds] S0.

Lemma spec_rollout_shapes (t : nat) :
  exists ts,
    spec_rollout policy transition_model B0 S0 g t = Ok ts
    /\ has_shape [B; Dh] (ts_belief ts) /\ has_shape [B; Ds] (ts_state ts)
    /\ (1 <= t -> step_ok ts).
Proof.
  induction t as [|t (prev & Hprev & Sb & Ss & _)].
  - eexists. split; [reflexivity|]. split; [exact HB0|]. split; [exact HS0|]. lia.
  - cbn [spec_rollout]. rewrite Hprev. cbn [mbind result_bind].
    destruct (spec_step_shapes (ts_belief prev) (ts_state prev) (ts_gen prev) Sb Ss)
      as (ts & -> & Hts).
    exists ts. split; [reflexivity|]. pose proof Hts as (H1 & H2 & _).
    split; [exact H1|]. split; [exact H2|]. intros _. exact Hts.
Qed.

Local Abbreviation traj := (rollout_at policy transition_model B0 S0 g).
Local Abbreviation inv := (rollout_inv policy transition_model B0 S0 g).

Lemma rollout_at_ok (t : nat) :
  spec_rollout policy transition_model B0 S0 g t = Ok (traj t).
Proof.
  unfold rollout_at. destruct (spec_rollout_shapes t) as (ts & -> & _). reflexivity.
Qed.

Lemma rollout_at_shapes (t : nat) : 1 <= t -> step_ok (traj t).
Proof.
  intros Ht. destruct (spec_rollout_shapes t) as (ts & Hts & _ & _ & Hs).
  unfold rollout_at. rewrite Hts. by apply Hs.
Qed.

Lemma rollout_at_step (t : nat) :
  spec_step policy transition_model (ts_belief (traj t))
    (ts_state (traj t)) (ts_gen (traj t))
  = Ok (traj (S t)).
Proof.
  pose proof (rollout_at_ok (S t)) as H. cbn [spec_rollout] in H.
  rewrite rollout_at_ok in H. exact H.
Qed.

Lemma rollout_inv_step (T t : nat) (st : rollout) :
  inv T t st -> t + 1 < T ->
  exists st', imagine_step policy transition_model st t = Ok st'
              /\ inv T (S t) st'.
Proof.
  intros (Lb & Ls & Lm & Ld & Hbs & Hms & Hg) Ht.
  destruct (Hbs t (le_n t)) as [Hb Hs].
  rewrite (imagine_step_spec _ _ _ _ _ _ Hb Hs) by lia.
  rewrite Hg, rollout_at_step. cbn [mbind result_bind].
  eexists. split; [reflexivity|]. unfold record_step, rollout_inv.
  cbn [beliefs prior_states prior_means prior_std_devs gen].
  rewrite !length_insert. repeat split; try assumption.
  - destruct (decide (j = t + 1)) as [->|Hne].
    + replace (S t) with (t + 1) by lia. by rewrite list_lookup_insert_eq by lia.
    + rewrite list_lookup_insert_ne by lia. apply Hbs. lia.
  - destruct (decide (j = t + 1)) as [->|Hne].
    + replace (S t) with (t + 1) by lia. by rewrite list_lookup_insert_eq by lia.
    + rewrite list_lookup_insert_ne by lia. apply Hbs. lia.
  - destruct (decide (j = t + 1)) as [->|Hne].
    + replace (S t) with (t + 1) by lia. by rewrite list_lookup_insert_eq by lia.
    + rewrite list_lookup_insert_ne by lia. apply Hms. lia.
  - destruct (decide (j = t + 1)) as [->|Hne].
    + replace (S t) with (t + 1) by lia. by rewrite list_lookup_insert_eq by lia.
    + rewrite list_lookup_insert_ne by lia. apply Hms. lia.
Qed.

Lemma rollout_inv_loop (T n t : nat) (st : rollout) :
  inv T t st -> t + n < T ->
  exists st', for_loop (imagine_step policy transition_model) (seq t n) st = Ok st'
              /\ inv T (t + n) st'.
Proof.
  revert t st. induction n as [|n IH]; intros t st Hinv Ht.
  - exists st. rewrite Nat.add_0_r. by split.
  - cbn [seq for_loop].
    destruct (rollout_inv_step T t st Hinv) as (st1 & -> & Hinv1); [lia|].
    cbn [mbind result_bind].
    destruct (IH (S t) st1 Hinv1) as (st' & Hloop & Hinv'); [lia|].
    exists st'. split; [exact Hloop|]. by replace (t + S n) with (S t + n) by lia.
Qed.

End Rollout.

(** ** [flatten] *)

Lemma flatten_merge (x : tensor) (a b : nat) (rest : list nat) :
  shape x = a :: b :: rest -> numel rest <> 0 ->
  flatten x = Ok (Tensor (a * b :: rest) (data x)).
Proof.
  intros Hx Hrest. unfold flatten, view_infer. rewrite Hx.
  change (drop 2 (a :: b :: rest)) with rest.
  rewrite !numel_cons.
  replace (numel rest =? 0) with false by (symmetry; by apply Nat.eqb_neq).
  replace (a * (b * numel rest)) with (a * b * numel rest) by lia.
  rewrite Nat.Div0.mod_mul, Nat.div_mul by exact Hrest. reflexivity.
Qed.

Lemma flatten_rank3 (x : tensor) (a c D : nat) :
  has_shape [a; c; D] x -> 0 < D ->
  flatten x = Ok (Tensor [a * c; D] (data x))
  /\ has_shape [a * c; D] (Tensor [a * c; D] (data x)).
Proof.
  intros [Hx Wx] HD. split.
  - apply flatten_merge; [exact Hx|]. rewrite numel_cons, numel_nil. lia.
  - split; [reflexivity|]. unfold wf in *. cbn [data shape].
    rewrite Wx, Hx, !numel_cons. lia.
Qed.

(** ** Stacked lists *)

Lemma drop1_map_seq {A : Type} (l : list A) (T : nat) (f : nat -> A) :
  length l = T -> (forall j, 1 <= j < T -> l !! j = Some (f j)) ->
  drop 1 l = map (fun i => f (S i)) (seq 0 (T - 1)).
Proof.
  intros Hl Hf. apply list_eq. intros i. rewrite lookup_drop.
  change (map (fun i => f (S i)) (seq 0 (T - 1)))
    with ((fun i => f (S i)) <$> seq 0 (T - 1)).
  rewrite list_lookup_fmap.
  destruct (decide (i < T - 1)) as [Hi|Hi].
  - rewrite lookup_seq_lt by exact Hi. rewrite Hf by lia. reflexivity.
  - rewrite lookup_seq_ge by lia. apply lookup_ge_None_2. lia.
Qed.

Lemma take_drop_concat_uniform (w : nat) (rows : list (list R)) (i : nat) (r : list R) :
  Forall (fun r => length r = w) rows -> rows !! i = Some r ->
  take w (drop (i * w) (concat rows)) = r.
Proof.
  intros Hrows. revert i. induction Hrows as [|r0 rows Hr0 _ IH]; intros i Hi; [done|].
  destruct i as [|i]; cbn [concat].
  - injection Hi as ->. cbn [Nat.mul drop]. by apply take_app_length'.
  - cbn [Nat.mul]. rewrite drop_app_add' by done. by apply IH.
Qed.

Lemma select_stacked (ts : list tensor) (s : list nat) (i : nat) (t : tensor) :
  Forall (has_shape s) ts -> ts !! i = Some t ->
  select (stacked s ts) i = Ok t.
Proof.
  intros Hall Hi. pose proof (lookup_lt_Some _ _ _ Hi) as Hlt.
  rewrite (select_row _ (length ts) s) by (reflexivity || exact Hlt).
  unfold stacked. cbn [data].
  rewrite (take_drop_concat_uniform (numel s) _ i (data t)).
  - rewrite Forall_forall in Hall. destruct (Hall t) as [<- _].
    + apply list_elem_of_lookup. by exists i.
    + by rewrite tensor_eta.
  - apply Forall_map. eapply Forall_impl; [exact Hall|].
    intros u [Hu Wu]. unfold wf in Wu. simpl. congruence.
  - change (map data ts) with (data <$> ts). by rewrite list_lookup_fmap, Hi.
Qed.

Lemma stack_has_shape (ts : list tensor) (s : list nat) :
  ts <> [] -> Forall (has_shape s) ts -> stack ts = Ok (stacked s ts).
Proof.
  intros Hne Hall. apply stack_same_shape; [exact Hne|].
  eapply Forall_impl; [exact Hall|]. by intros t [Ht _].
Qed.

Section ImagineAhead.
Variables (policy : Policy) (transition_model : TransitionModel).
Variables (a c Dh Ds Da E1 E2 : nat).
Variables (prev_state prev_belief : tensor) (T : nat) (g : generator).
Hypothesis Hws : well_shaped policy transition_model (a * c) Dh Ds Da E1 E2.
Hypothesis Hbelief : has_shape [a; c; Dh] prev_belief.
Hypothesis Hstate : has_shape [a; c; Ds] prev_state.
Hypothesis HDh : 0 < Dh.
Hypothesis HDs : 0 < Ds.
Hypothesis HT : 2 <= T.

Let B0 := Tensor [a * c; Dh] (data prev_belief).
Let S0 := Tensor [a * c; Ds] (data prev_state).
Let traj := rollout_at policy transition_model B0 S0 g.

Lemma flat_belief_shape : has_shape [a * c; Dh] B0.
Proof. by apply flatten_rank3. Qed.

Lemma flat_state_shape : has_shape [a * c; Ds] S0.
Proof. by apply flatten_rank3. Qed.

Lemma traj_shapes (t : nat) :
  1 <= t -> step_shapes transition_model (a * c) Dh Ds (traj t).
Proof.
  intros Ht. unfold traj.
  apply (rollout_at_shapes policy transition_model (a * c) Dh Ds Da E1 E2 Hws
           B0 S0 g flat_belief_shape flat_state_shape t Ht).
Qed.

Lemma traj_ok (t : nat) :
  spec_rollout policy transition_model B0 S0 g t = Ok (traj t).
Proof.
  apply (rollout_at_ok policy transition_model (a * c) Dh Ds Da E1 E2 Hws
           B0 S0 g flat_belief_shape flat_state_shape).
Qed.

Lemma traj_std_dev_shape (t : nat) :
  1 <= t -> has_shape [a * c; Ds] (ts_std_dev (traj t)).
Proof.
  intros Ht. destruct (traj_shapes t Ht) as (_ & _ & _ & Hr & ->).
  by apply has_shape_add_scalar, has_shape_softplus.
Qed.

Lemma traj_belief_shape (t : nat) :
  1 <= t -> has_shape [a * c; Dh] (ts_belief (traj t)).
Proof. intros Ht. apply (traj_shapes t Ht). Qed.

Lemma traj_state_shape (t : nat) :
  1 <= t -> has_shape [a * c; Ds] (ts_state (traj t)).
Proof. intros Ht. apply (traj_shapes t Ht). Qed.

Lemma traj_mean_shape (t : nat) :
  1 <= t -> has_shape [a * c; Ds] (ts_mean (traj t)).
Proof. intros Ht. apply (traj_shapes t Ht). Qed.

Lemma imagine_lists_ok :
  exists st,
    imagine_lists prev_state prev_belief policy transition_model T g = Ok st
    /\ rollout_inv policy transition_model B0 S0 g T (T - 1) st.
Proof.
  unfold imagine_lists.
  rewrite (proj1 (flatten_rank3 _ _ _ _ Hbelief HDh)). cbn [mbind result_bind].
  rewrite (proj1 (flatten_rank3 _ _ _ _ Hstate HDs)). cbn [mbind result_bind].
  rewrite !setitem_lt by (rewrite length_replicate; lia). cbn [mbind result_bind].
  fold B0 S0.
  destruct (rollout_inv_loop policy transition_model (a * c) Dh Ds Da E1 E2 Hws
              B0 S0 g flat_belief_shape flat_state_shape T (T - 1) 0
              (Rollout (<[0:=B0]> (replicate T empty0)) (<[0:=S0]> (replicate T empty0))
                 (replicate T empty0) (replicate T empty0) g))
    as (st & Hloop & Hinv).
  - unfold rollout_inv. cbn [beliefs prior_states prior_means prior_std_devs gen].
    rewrite !length_insert, !length_replicate. repeat split.
    + replace j with 0 by lia.
      rewrite list_lookup_insert_eq by (rewrite length_replicate; lia). reflexivity.
    + replace j with 0 by lia.
      rewrite list_lookup_insert_eq by (rewrite length_replicate; lia). reflexivity.
    + lia.
    + lia.
  - lia.
  - exists st. split; [exact Hloop | exact Hinv].
Qed.

Lemma imagine_ahead_result :
  imagine_ahead prev_state prev_belief policy transition_model T g
  = Ok ([stacked [a * c; Dh] (map (fun i => ts_belief (traj (S i))) (seq 0 (T - 1)));
         stacked [a * c; Ds] (map (fun i => ts_state (traj (S i))) (seq 0 (T - 1)));
         stacked [a * c; Ds] (map (fun i => ts_mean (traj (S i))) (seq 0 (T - 1)));
         stacked [a * c; Ds] (map (fun i => ts_std_dev (traj (S i))) (seq 0 (T - 1)))],
        ts_gen (traj (T - 1))).
Proof.
  destruct imagine_lists_ok as (st & Hst & Lb & Ls & Lm & Ld & Hbs & Hms & Hg).
  unfold imagine_ahead. rewrite Hst. cbn [mbind result_bind].
  rewrite (drop1_map_seq (beliefs st) T (fun j => ts_belief (traj j)) Lb)
    by (intros j Hj; apply Hbs; lia).
  rewrite (drop1_map_seq (prior_states st) T (fun j => ts_state (traj j)) Ls)
    by (intros j Hj; apply Hbs; lia).
  rewrite (drop1_map_seq (prior_means st) T (fun j => ts_mean (traj j)) Lm)
    by (intros j Hj; apply Hms; lia).
  rewrite (drop1_map_seq (prior_std_devs st) T (fun j => ts_std_dev (traj j)) Ld)
    by (intros j Hj; apply Hms; lia).
  assert (Hne : forall (f : nat -> tensor), map f (seq 0 (T - 1)) <> []).
  { intros f Hnil. apply (f_equal length) in Hnil.
    rewrite length_map, length_seq in Hnil. simpl in Hnil. lia. }
  rewrite (stack_has_shape (map (fun i => ts_belief (traj (S i))) _) [a * c; Dh]);
    [|apply Hne
     |apply Forall_map, Forall_forall; intros j _; apply traj_belief_shape; lia].
  cbn [mbind result_bind].
  rewrite (stack_has_shape (map (fun i => ts_state (traj (S i))) _) [a * c; Ds]);
    [|apply Hne
     |apply Forall_map, Forall_forall; intros j _; apply traj_state_shape; lia].
  cbn [mbind result_bind].
  rewrite (stack_has_shape (map (fun i => ts_mean (traj (S i))) _) [a * c; Ds]);
    [|apply Hne
     |apply Forall_map, Forall_forall; intros j _; apply traj_mean_shape; lia].
  cbn [mbind result_bind].
  rewrite (stack_has_shape (map (fun i => ts_std_dev (traj (S i))) _) [a * c; Ds]);
    [|apply Hne
     |apply Forall_map, Forall_forall; intros j _; apply traj_std_dev_shape; lia].
  cbn [mbind result_bind]. rewrite Hg. reflexivity.
Qed.

End ImagineAhead.

(** ** The random source *)

Lemma softplus_pos (v : R) : (0 < softplus v)%R.
Proof.
  unfold softplus. destruct (Rlt_dec 20 v); [lra|].
  rewrite <- ln_1. apply ln_increasing; [lra|]. pose proof (exp_pos v). lra.
Qed.

Lemma randn_like_equiv (x : tensor) (g1 g2 : generator) :
  gen_equiv g1 g2 ->
  (randn_like x g1).1 = (randn_like x g2).1
  /\ gen_equiv (randn_like x g1).2 (randn_like x g2).2.
Proof.
  intros [Ho Hs]. unfold randn_like. cbn [fst snd]. split.
  - f_equal. rewrite <- Ho. apply map_ext_in. intros n Hn.
    apply in_seq in Hn. apply Hs. lia.
  - split; cbn [offset stream]; [by rewrite Ho|]. intros n Hn. apply Hs. lia.
Qed.

Section Determinism.
Variables (policy : Policy) (transition_model : TransitionModel).

Lemma imagine_step_equiv (st1 st2 : rollout) (t : nat) :
  rollout_equiv st1 st2 ->
  result_equiv (imagine_step policy transition_model st1 t)
               (imagine_step policy transition_model st2 t).
Proof.
  destruct st1 as [b1 s1 m1 d1 g1], st2 as [b2 s2 m2 d2 g2].
  unfold rollout_equiv. cbn [beliefs prior_states prior_means prior_std_devs gen].
  intros (-> & -> & -> & -> & Hg). unfold imagine_step.
  cbn [beliefs prior_states prior_means prior_std_devs gen].
  repeat match goal with
  | |- result_equiv (mbind _ ?m) (mbind _ ?m) =>
      destruct m; cbn [mbind result_bind]; [|reflexivity]
  | |- result_equiv (let '(_, _) := ?p in _) (let '(_, _) := ?p in _) =>
      destruct p
  end.
  match goal with
  | |- context [randn_like ?x g1] =>
      destruct (randn_like_equiv x g1 g2 Hg) as [Hn Hg'];
      destruct (randn_like x g1) as [n1 g1'], (randn_like x g2) as [n2 g2']
  end.
  cbn [fst snd] in Hn, Hg'. subst n2.
  repeat match goal with
  | |- result_equiv (mbind _ ?m) (mbind _ ?m) =>
      destruct m; cbn [mbind result_bind]; [|reflexivity]
  end.
  unfold mret, result_ret, result_equiv, rollout_equiv.
  cbn [beliefs prior_states prior_means prior_std_devs gen].
  repeat split; (reflexivity || apply Hg').
Qed.

Lemma for_loop_equiv (idx : list nat) (st1 st2 : rollout) :
  rollout_equiv st1 st2 ->
  result_equiv (for_loop (imagine_step policy transition_model) idx st1)
               (for_loop (imagine_step policy transition_model) idx st2).
Proof.
  revert st1 st2. induction idx as [|t idx IH]; intros st1 st2 Heq; [exact Heq|].
  cbn [for_loop]. pose proof (imagine_step_equiv st1 st2 t Heq) as Hstep.
  destruct (imagine_step policy transition_model st1 t) as [st1'|e1],
           (imagine_step policy transition_model st2 t) as [st2'|e2];
    cbn [mbind result_bind]; try done.
  by apply IH.
Qed.

Lemma imagine_lists_equiv (prev_state prev_belief : tensor) (T : nat)
    (g1 g2 : generator) :
  gen_equiv g1 g2 ->
  result_equiv (imagine_lists prev_state prev_belief policy transition_model T g1)
               (imagine_lists prev_state prev_belief policy transition_model T g2).
Proof.
  intros Hg. unfold imagine_lists.
  destruct (flatten prev_belief); cbn [mbind result_bind]; [|exact eq_refl].
  destruct (flatten prev_state); cbn [mbind result_bind]; [|exact eq_refl].
  unfold setitem.
  destruct (0 <? length (replicate T empty0)); cbn [mbind result_bind]; [|exact eq_refl].
  apply for_loop_equiv. unfold rollout_equiv.
  cbn [beliefs prior_states prior_means prior_std_devs gen].
  repeat split; (reflexivity || apply Hg).
Qed.

End Determinism.

(** ** The concrete inputs *)

Lemma demo_well_shaped : well_shaped demo_policy demo_model (1 * 2) 2 1 1 2 2.
Proof.
  split; try (intros x Hx; exists x; split; [reflexivity | exact Hx]).
  - intros x y Hx Hy. exists y. split; [reflexivity | exact Hy].
  - intros x y Hx Hy. exists y. split; [reflexivity | exact Hy].
Defined.

Example demo_heap_parameters : get_parameters [0; 1] demo_heap = [10; 11; 11; 12].
Proof. reflexivity. Qed.

Example demo_freeze_raised :
  exists h3,
    with_FreezeParameters [0; 1] demo_body demo_heap = Ok (h3, Raised RuntimeError)
    /\ requires_grad h3 !!! 10 = true /\ requires_grad h3 !!! 11 = false
    /\ requires_grad h3 !!! 12 = true.
Proof. eexists. split; [reflexivity|]. repeat split; reflexivity. Qed.

Example lambda_return_regression :
  exists G,
    lambda_return demo_reward demo_value demo_bootstrap 0.9 0.5 = Ok G
    /\ shape G = [3]
    /\ item G 0 = 3.50425%R /\ item G 1 = 3.565%R /\ item G 2 = 3.7%R.
Proof.
  eexists. split; [reflexivity|]. split; [reflexivity|].
  cbv -[IZR]. repeat split; lra.
Qed.

(** An [ActivateParameters] scope over a module with an integer parameter is
    not entered: [__enter__] raises at that parameter, [__exit__] is not
    called, and the parameter before it is left requiring gradients. *)
Example demo_activate_integer :
  exists h1,
    with_ActivateParameters [2] (fun h => (h, Completed)) demo_heap_int
    = Ok (h1, Raised RuntimeError)
    /\ requires_grad demo_heap_int !!! 20 = false /\ requires_grad h1 !!! 20 = true
    /\ requires_grad h1 !!! 22 = false.
Proof. eexists. split; [reflexivity|]. repeat split; reflexivity. Qed.

(** [__exit__] is refused as well when it writes a recorded [True] back to a
    parameter that is an integer tensor by then. *)
Example demo_exit_integer :
  FreezeParameters.__exit__ (Scope [2] [false; true; false]) demo_heap_int
  = Raise RuntimeError.
Proof. reflexivity. Qed.

(** A two-dimensional input loses its feature dimension, and the rollout then
    stops at [torch.cat(..., dim=1)]. *)
Example flatten_matrix : flatten demo_matrix = Ok (Tensor [6] (data demo_matrix)).
Proof. reflexivity. Qed.

Example imagine_ahead_matrix_inputs :
  imagine_ahead demo_matrix demo_matrix demo_policy demo_model 2 demo_gen
  = Raise IndexError.
Proof. reflexivity. Qed.

(** Frames without channels: the writer is opened, the first image is refused
    and the writer is never released. *)
Example demo_video_without_channels :
  write_video demo_cv2 exact_rounding [demo_frame_empty; demo_frame_empty] "rollout" ""
  = ([VideoWriter "rollout.mp4" "mp4v" 30 (2, 1) true; write (Image [1; 2; 0] [])],
     Raised Cv2Error).
Proof. reflexivity. Qed.

(** * The claims *)

(** C1.  For rewards of [N >= 1] time steps, values aligned with them and a
    bootstrap of the shape of one time step, [lambda_return] returns a tensor
    [G] of the shape of the rewards whose entry for time step [i] and batch
    element [k] is [spec_G] at [i]: the backward recurrence
    [last = target i + discount * lambda_ * last] started from the bootstrap,
    with [target i = rw i + discount * next_values i * (1 - lambda_)] and
    [next_values] the values shifted by one step and closed by the bootstrap;
    [G] is in forward time order. *)
Theorem lambda_return_refines_spec (imged_reward value_pred bootstrap : tensor)
    (discount lambda_ : R) (N : nat) (s : list nat) :
  1 <= N ->
  shape imged_reward = N :: s -> shape value_pred = N :: s -> shape bootstrap = s ->
  wf imged_reward -> wf value_pred -> wf bootstrap ->
  exists G,
    lambda_return imged_reward value_pred bootstrap discount lambda_ = Ok G
    /\ shape G = N :: s /\ wf G
    /\ forall i k, i < N -> k < numel s ->
       entry G i k
       = spec_G (fun j => entry imged_reward j k) (fun j => entry value_pred j k)
           (item bootstrap k) discount lambda_ N i.
Proof.
  intros HN Hr Hv Hb Wr Wv Wb.
  destruct (lambda_return_rows _ _ _ discount lambda_ N s HN Hr Hv Hb Wr Wv Wb)
    as [HG Hlen].
  eexists. split; [exact HG|]. split; [|split].
  - unfold stacked. cbn [shape]. by rewrite Hlen.
  - by apply lambda_rows_wf.
  - intros i k Hi Hk. unfold spec_G. by apply lambda_rows_entry.
Qed.

Lemma lambda_return_refines_spec_witness :
  exists G,
    lambda_return demo_reward demo_value demo_bootstrap 0.9 0.5 = Ok G
    /\ shape G = [3] /\ wf G
    /\ forall i k, i < 3 -> k < numel [] ->
       entry G i k
       = spec_G (fun j => entry demo_reward j k) (fun j => entry demo_value j k)
           (item demo_bootstrap k) 0.9 0.5 3 i.
Proof.
  apply (lambda_return_refines_spec demo_reward demo_value demo_bootstrap
           0.9 0.5 3 []); (lia || reflexivity).
Defined.

(** C2.  For a horizon [T >= 2], beliefs and states of shapes [[a; c; Dh]] and
    [[a; c; Ds]] and a policy and transition model that keep their shape
    contracts, [imagine_ahead] returns the list of four tensors (beliefs,
    states, means, standard deviations), each of [T - 1] entries along
    dimension 0, and entry [i] of each is time step [i + 1] of the rollout
    from the flattened inputs: entry 0 is time step 1, and the inputs
    themselves (time step 0) are not part of the outputs. *)
Theorem imagine_ahead_trajectory (policy : Policy) (transition_model : TransitionModel)
    (a c Dh Ds Da E1 E2 : nat) (prev_state prev_belief : tensor) (T : nat)
    (g : generator) :
  well_shaped policy transition_model (a * c) Dh Ds Da E1 E2 ->
  has_shape [a; c; Dh] prev_belief -> has_shape [a; c; Ds] prev_state ->
  0 < Dh -> 0 < Ds -> 2 <= T ->
  exists B0 S0 out_beliefs out_states out_means out_std_devs g',
    flatten prev_belief = Ok B0 /\ flatten prev_state = Ok S0
    /\ imagine_ahead prev_state prev_belief policy transition_model T g
       = Ok ([out_beliefs; out_states; out_means; out_std_devs], g')
    /\ len out_beliefs = Ok (T - 1) /\ len out_states = Ok (T - 1)
    /\ len out_means = Ok (T - 1) /\ len out_std_devs = Ok (T - 1)
    /\ forall i, i < T - 1 ->
       exists ts,
         spec_rollout policy transition_model B0 S0 g (i + 1) = Ok ts
         /\ select out_beliefs i = Ok (ts_belief ts)
         /\ select out_states i = Ok (ts_state ts)
         /\ select out_means i = Ok (ts_mean ts)
         /\ select out_std_devs i = Ok (ts_std_dev ts).
Proof.
  intros Hws Hb Hs HDh HDs HT.
  pose proof (imagine_ahead_result policy transition_model a c Dh Ds Da E1 E2
                prev_state prev_belief T g Hws Hb Hs HDh HDs HT) as Hres.
  cbv zeta in Hres.
  do 7 eexists.
  split; [apply (flatten_rank3 _ _ _ _ Hb HDh)|].
  split; [apply (flatten_rank3 _ _ _ _ Hs HDs)|].
  split; [exact Hres|].
  assert (Hlen : forall f : nat -> tensor, length (map f (seq 0 (T - 1))) = T - 1)
    by (intros f; by rewrite length_map, length_seq).
  repeat (split; [unfold len, stacked; cbn [shape]; by rewrite Hlen|]).
  intros i Hi. eexists. split.
  { replace (i + 1) with (S i) by lia.
    apply (traj_ok policy transition_model a c Dh Ds Da E1 E2 prev_state prev_belief g
             Hws Hb Hs HDh HDs). }
  assert (Hlk : forall f : nat -> tensor,
            map f (seq 0 (T - 1)) !! i = Some (f i)).
  { intros f. change (map f (seq 0 (T - 1))) with (f <$> seq 0 (T - 1)).
    by rewrite list_lookup_fmap, lookup_seq_lt. }
  repeat split.
  - apply select_stacked; [|apply Hlk]. apply Forall_map, Forall_forall. intros j _.
    apply (traj_belief_shape policy transition_model a c Dh Ds Da E1 E2 prev_state
             prev_belief g Hws Hb Hs HDh HDs). lia.
  - apply select_stacked; [|apply Hlk]. apply Forall_map, Forall_forall. intros j _.
    apply (traj_state_shape policy transition_model a c Dh Ds Da E1 E2 prev_state
             prev_belief g Hws Hb Hs HDh HDs). lia.
  - apply select_stacked; [|apply Hlk]. apply Forall_map, Forall_forall. intros j _.
    apply (traj_mean_shape policy transition_model a c Dh Ds Da E1 E2 prev_state
             prev_belief g Hws Hb Hs HDh HDs). lia.
  - apply select_stacked; [|apply Hlk]. apply Forall_map, Forall_forall. intros j _.
    apply (traj_std_dev_shape policy transition_model a c Dh Ds Da E1 E2 prev_state
             prev_belief g Hws Hb Hs HDh HDs). lia.
Qed.

Lemma imagine_ahead_trajectory_witness :
  exists B0 S0 out_beliefs out_states out_means out_std_devs g',
    flatten demo_belief = Ok B0 /\ flatten demo_state = Ok S0
    /\ imagine_ahead demo_state demo_belief demo_policy demo_model 3 demo_gen
       = Ok ([out_beliefs; out_states; out_means; out_std_devs], g')
    /\ len out_beliefs = Ok (3 - 1) /\ len out_states = Ok (3 - 1)
    /\ len out_means = Ok (3 - 1) /\ len out_std_devs = Ok (3 - 1)
    /\ forall i, i < 3 - 1 ->
       exists ts,
         spec_rollout demo_policy demo_model B0 S0 demo_gen (i + 1) = Ok ts
         /\ select out_beliefs i = Ok (ts_belief ts)
         /\ select out_states i = Ok (ts_state ts)
         /\ select out_means i = Ok (ts_mean ts)
         /\ select out_std_devs i = Ok (ts_std_dev ts).
Proof.
  apply (imagine_ahead_trajectory demo_policy demo_model 1 2 2 1 1 2 2
           demo_state demo_belief 3 demo_gen).
  - exact demo_well_shaped.
  - split; reflexivity.
  - split; reflexivity.
  - lia.
  - lia.
  - lia.
Defined.

(** C3, as the code has it.  With horizon 1 [imagine_ahead] never returns
    output sequences: an exception of flattening either input goes on to the
    caller, and otherwise the loop body does not run, each of the four lists
    has one entry, its slice [[1:]] is empty and [torch.stack] of the empty
    list raises [RuntimeError]. *)
Theorem imagine_ahead_horizon_one (prev_state prev_belief : tensor)
    (policy : Policy) (transition_model : TransitionModel) (g : generator) :
  imagine_lists prev_state prev_belief policy transition_model 1 g
  = (B0 ← flatten prev_belief; S0 ← flatten prev_state;
     mret (Rollout [B0] [S0] [empty0] [empty0] g))
  /\ stack (drop 1 [empty0]) = Raise RuntimeError
  /\ imagine_ahead prev_state prev_belief policy transition_model 1 g
     = match flatten prev_belief, flatten prev_state with
       | Ok _, Ok _ => Raise RuntimeError
       | Ok _, Raise e => Raise e
       | Raise e, _ => Raise e
       end.
Proof.
  split; [|split; [reflexivity|]]; unfold imagine_ahead, imagine_lists;
    (destruct (flatten prev_belief); cbn [mbind result_bind]; [|reflexivity]);
    destruct (flatten prev_state); reflexivity.
Qed.

(** C3 fails on the code: with horizon 1 the call raises instead of returning
    four empty sequences. *)
Lemma imagine_ahead_horizon_one_counterexample :
  imagine_ahead demo_state demo_belief demo_policy demo_model 1 demo_gen
  = Raise RuntimeError
  /\ ~ exists out g',
         imagine_ahead demo_state demo_belief demo_policy demo_model 1 demo_gen
         = Ok (out, g').
Proof.
  assert (H : imagine_ahead demo_state demo_belief demo_policy demo_model 1 demo_gen
              = Raise RuntimeError) by reflexivity.
  split; [exact H|]. intros (out & g' & Hok). rewrite H in Hok. discriminate.
Qed.

(** C4, as the code has it.  [flatten] merges exactly the first two
    dimensions of its input into one, and keeps every later dimension and
    the storage: an input of shape [[a; b; d; ...]] becomes [[a * b; d; ...]].
    The result is two-dimensional, with the last dimension of the input, when
    the input is three-dimensional. *)
Theorem flatten_merges_two_leading (x : tensor) (a b d : nat) (rest : list nat) :
  shape x = a :: b :: d :: rest -> numel (d :: rest) <> 0 ->
  exists y,
    flatten x = Ok y /\ shape y = a * b :: d :: rest /\ data y = data x
    /\ (rest = [] -> length (shape y) = 2 /\ last (shape y) = last (shape x)).
Proof.
  intros Hx Hrest. eexists. split; [by apply flatten_merge|].
  cbn [shape data]. split; [reflexivity|]. split; [reflexivity|].
  intros ->. rewrite Hx. split; reflexivity.
Qed.

Lemma flatten_merges_two_leading_witness :
  exists y,
    flatten demo_belief = Ok y /\ shape y = 1 * 2 :: 2 :: [] /\ data y = data demo_belief
    /\ (@nil nat = [] ->
        length (shape y) = 2 /\ last (shape y) = last (shape demo_belief)).
Proof.
  apply (flatten_merges_two_leading demo_belief 1 2 2 []).
  - reflexivity.
  - vm_compute. lia.
Defined.

(** C4 fails on the code: of the three leading dimensions of an input of
    shape [[2; 2; 1; 3]] only the first two are merged; the result has the
    three dimensions [[4; 1; 3]], not two. *)
Lemma flatten_rank4_counterexample :
  flatten demo_batches = Ok (Tensor [4; 1; 3] (data demo_batches))
  /\ ~ exists y,
         flatten demo_batches = Ok y /\ length (shape y) = 2
         /\ last (shape y) = last (shape demo_batches).
Proof.
  assert (H : flatten demo_batches = Ok (Tensor [4; 1; 3] (data demo_batches)))
    by reflexivity.
  split; [exact H|]. intros (y & Hy & Hlen & _). rewrite H in Hy.
  injection Hy as <-. discriminate.
Qed.

(** C5.  With [lambda_ = 1] every entry of the result of [lambda_return] is
    the discounted Monte Carlo return: the sum of [discount^(j-i) * R[j]] for
    [i <= j < N], plus [discount^(N-i)] times the bootstrap. *)
Theorem lambda_return_monte_carlo (imged_reward value_pred bootstrap : tensor)
    (discount : R) (N : nat) (s : list nat) :
  1 <= N ->
  shape imged_reward = N :: s -> shape value_pred = N :: s -> shape bootstrap = s ->
  wf imged_reward -> wf value_pred -> wf bootstrap ->
  exists G,
    lambda_return imged_reward value_pred bootstrap discount 1 = Ok G
    /\ forall i k, i < N -> k < numel s ->
       entry G i k
       = monte_carlo (fun j => entry imged_reward j k) (item bootstrap k) discount N i.
Proof.
  intros HN Hr Hv Hb Wr Wv Wb.
  destruct (lambda_return_rows _ _ _ discount 1%R N s HN Hr Hv Hb Wr Wv Wb)
    as [HG _].
  eexists. split; [exact HG|].
  intros i k Hi Hk. rewrite lambda_rows_entry by assumption.
  rewrite <- (spec_G_monte_carlo _ (fun j => entry value_pred j k)) by lia.
  reflexivity.
Qed.

Lemma lambda_return_monte_carlo_witness :
  exists G,
    lambda_return demo_reward demo_value demo_bootstrap 0.9 1 = Ok G
    /\ forall i k, i < 3 -> k < numel [] ->
       entry G i k
       = monte_carlo (fun j => entry demo_reward j k) (item demo_bootstrap k) 0.9 3 i.
Proof.
  apply (lambda_return_monte_carlo demo_reward demo_value demo_bootstrap 0.9 3 []);
    (lia || reflexivity).
Defined.

(** C6.  With [lambda_ = 0] every entry of the result of [lambda_return] is
    the one-step return [R[i] + discount * next_values[i]], where
    [next_values[i]] is [V[i+1]] for [i < N - 1] and the bootstrap for
    [i = N - 1]. *)
Theorem lambda_return_one_step (imged_reward value_pred bootstrap : tensor)
    (discount : R) (N : nat) (s : list nat) :
  1 <= N ->
  shape imged_reward = N :: s -> shape value_pred = N :: s -> shape bootstrap = s ->
  wf imged_reward -> wf value_pred -> wf bootstrap ->
  exists G,
    lambda_return imged_reward value_pred bootstrap discount 0 = Ok G
    /\ forall i k, i < N -> k < numel s ->
       entry G i k
       = (entry imged_reward i k
          + discount * spec_next_values (fun j => entry value_pred j k)
                         (item bootstrap k) N i)%R.
Proof.
  intros HN Hr Hv Hb Wr Wv Wb.
  destruct (lambda_return_rows _ _ _ discount 0%R N s HN Hr Hv Hb Wr Wv Wb)
    as [HG _].
  eexists. split; [exact HG|].
  intros i k Hi Hk. rewrite lambda_rows_entry by assumption.
  exact (spec_G_one_step (fun j => entry imged_reward j k)
           (fun j => entry value_pred j k) (item bootstrap k) discount N i Hi).
Qed.

Lemma lambda_return_one_step_witness :
  exists G,
    lambda_return demo_reward demo_value demo_bootstrap 0.9 0 = Ok G
    /\ forall i k, i < 3 -> k < numel [] ->
       entry G i k
       = (entry demo_reward i k
          + 0.9 * spec_next_values (fun j => entry demo_value j k)
                    (item demo_bootstrap k) 3 i)%R.
Proof.
  apply (lambda_return_one_step demo_reward demo_value demo_bootstrap 0.9 3 []);
    (lia || reflexivity).
Defined.

(** C7.  For a horizon [T >= 2], under the shape contracts, every entry of
    the standard deviations that [imagine_ahead] returns, at every time step
    and batch element, is [softplus] of the raw standard deviation of that
    time step plus [min_std_dev]; it is at least [min_std_dev], and positive
    when [min_std_dev] is. *)
Theorem imagine_ahead_std_dev_floor (policy : Policy)
    (transition_model : TransitionModel) (a c Dh Ds Da E1 E2 : nat)
    (prev_state prev_belief : tensor) (T : nat) (g : generator) :
  well_shaped policy transition_model (a * c) Dh Ds Da E1 E2 ->
  has_shape [a; c; Dh] prev_belief -> has_shape [a; c; Ds] prev_state ->
  0 < Dh -> 0 < Ds -> 2 <= T ->
  exists B0 S0 out_beliefs out_states out_means out_std_devs g',
    flatten prev_belief = Ok B0 /\ flatten prev_state = Ok S0
    /\ imagine_ahead prev_state prev_belief policy transition_model T g
       = Ok ([out_beliefs; out_states; out_means; out_std_devs], g')
    /\ forall i k, i < T - 1 -> k < a * c * Ds ->
       exists ts,
         spec_rollout policy transition_model B0 S0 g (i + 1) = Ok ts
         /\ entry out_std_devs i k
            = (softplus (item (ts_raw_std ts) k) + min_std_dev transition_model)%R
         /\ (min_std_dev transition_model <= entry out_std_devs i k)%R
         /\ ((0 < min_std_dev transition_model)%R ->
             (0 < entry out_std_devs i k)%R).
Proof.
  intros Hws Hb Hs HDh HDs HT.
  pose proof (imagine_ahead_result policy transition_model a c Dh Ds Da E1 E2
                prev_state prev_belief T g Hws Hb Hs HDh HDs HT) as Hres.
  cbv zeta in Hres.
  do 7 eexists.
  split; [apply (flatten_rank3 _ _ _ _ Hb HDh)|].
  split; [apply (flatten_rank3 _ _ _ _ Hs HDs)|].
  split; [exact Hres|].
  intros i k Hi Hk. eexists. split.
  { replace (i + 1) with (S i) by lia.
    apply (traj_ok policy transition_model a c Dh Ds Da E1 E2 prev_state prev_belief g
             Hws Hb Hs HDh HDs). }
  pose proof (traj_shapes policy transition_model a c Dh Ds Da E1 E2 prev_state
                prev_belief g Hws Hb Hs HDh HDs (S i) ltac:(lia))
    as (_ & _ & _ & [Hrs Hrw] & Hstd).
  unfold wf in Hrw. rewrite Hrs, !numel_cons, numel_nil in Hrw.
  set (tr := rollout_at policy transition_model
               (Tensor [a * c; Dh] (data prev_belief))
               (Tensor [a * c; Ds] (data prev_state)) g) in *.
  assert (Hentry :
    entry (stacked [a * c; Ds] (map (fun j => ts_std_dev (tr (S j))) (seq 0 (T - 1))))
      i k
    = (softplus (item (ts_raw_std (tr (S i))) k) + min_std_dev transition_model)%R).
  { rewrite entry_stack.
    - rewrite nth_map_seq by exact Hi. cbn [Nat.add]. rewrite Hstd.
      unfold item, add_scalar, softplus_t. cbn [data].
      rewrite nth_map_lt by (rewrite length_map; lia).
      rewrite nth_map_lt by lia. reflexivity.
    - apply Forall_map, Forall_forall. intros j _.
      apply (traj_std_dev_shape policy transition_model a c Dh Ds Da E1 E2 prev_state
               prev_belief g Hws Hb Hs HDh HDs). lia.
    - by rewrite length_map, length_seq.
    - rewrite !numel_cons, numel_nil. lia. }
  rewrite Hentry. split; [reflexivity|].
  pose proof (softplus_pos (item (ts_raw_std (tr (S i))) k)) as Hpos.
  split; [lra | intros Hmin; lra].
Qed.

Lemma imagine_ahead_std_dev_floor_witness :
  exists B0 S0 out_beliefs out_states out_means out_std_devs g',
    flatten demo_belief = Ok B0 /\ flatten demo_state = Ok S0
    /\ imagine_ahead demo_state demo_belief demo_policy demo_model 3 demo_gen
       = Ok ([out_beliefs; out_states; out_means; out_std_devs], g')
    /\ forall i k, i < 3 - 1 -> k < 1 * 2 * 1 ->
       exists ts,
         spec_rollout demo_policy demo_model B0 S0 demo_gen (i + 1) = Ok ts
         /\ entry out_std_devs i k
            = (softplus (item (ts_raw_std ts) k) + min_std_dev demo_model)%R
         /\ (min_std_dev demo_model <= entry out_std_devs i k)%R
         /\ ((0 < min_std_dev demo_model)%R -> (0 < entry out_std_devs i k)%R).
Proof.
  apply (imagine_ahead_std_dev_floor demo_policy demo_model 1 2 2 1 1 2 2
           demo_state demo_belief 3 demo_gen).
  - exact demo_well_shaped.
  - split; reflexivity.
  - split; reflexivity.
  - lia.
  - lia.
  - lia.
Defined.




(** C9.  Two runs of [imagine_ahead] on the same inputs, policy, transition
    model and horizon, with random sources seeded alike, give the same result:
    the same four output tensors, or the same exception. *)
Theorem imagine_ahead_deterministic (prev_state prev_belief : tensor)
    (policy : Policy) (transition_model : TransitionModel) (T : nat)
    (g1 g2 : generator) :
  gen_equiv g1 g2 ->
  fst <$> imagine_ahead prev_state prev_belief policy transition_model T g1
  = fst <$> imagine_ahead prev_state prev_belief policy transition_model T g2.
Proof.
  intros Hg. unfold imagine_ahead.
  pose proof (imagine_lists_equiv policy transition_model prev_state prev_belief T
                g1 g2 Hg) as Heq.
  destruct (imagine_lists _ _ _ _ _ g1) as [st1|e1],
           (imagine_lists _ _ _ _ _ g2) as [st2|e2]; cbn in Heq; try done.
  - cbn [mbind result_bind]. destruct Heq as (-> & -> & -> & -> & _).
    destruct (stack (drop 1 (beliefs st2))); cbn; [|reflexivity].
    destruct (stack (drop 1 (prior_states st2))); cbn; [|reflexivity].
    destruct (stack (drop 1 (prior_means st2))); cbn; [|reflexivity].
    destruct (stack (drop 1 (prior_std_devs st2))); cbn; reflexivity.
  - by subst.
Qed.

Lemma imagine_ahead_deterministic_witness :
  fst <$> imagine_ahead demo_state demo_belief demo_policy demo_model 3 demo_gen
  = fst <$> imagine_ahead demo_state demo_belief demo_policy demo_model 3 demo_gen'.
Proof.
  apply (imagine_ahead_deterministic demo_state demo_belief demo_policy demo_model 3
           demo_gen demo_gen').
  split; [reflexivity|]. intros n _. simpl. ring.
Defined.

(** C10.  On an empty reward sequence ([N = 0]) the loop of [lambda_return]
    leaves the list of outputs empty and [torch.stack] of that list raises
    [RuntimeError]; for [N >= 1] the result has [N] entries along dimension 0,
    as many as the rewards. *)
Theorem lambda_return_empty_raises (imged_reward value_pred bootstrap : tensor)
    (discount lambda_ : R) (N : nat) (s : list nat) :
  shape imged_reward = N :: s -> shape value_pred = N :: s -> shape bootstrap = s ->
  wf imged_reward -> wf value_pred -> wf bootstrap ->
  (N = 0 ->
   lambda_return_outputs imged_reward value_pred bootstrap discount lambda_ = Ok []
   /\ stack [] = Raise RuntimeError
   /\ lambda_return imged_reward value_pred bootstrap discount lambda_
      = Raise RuntimeError)
  /\ (1 <= N ->
      exists G,
        lambda_return imged_reward value_pred bootstrap discount lambda_ = Ok G
        /\ len G = Ok N).
Proof.
  intros Hr Hv Hb Wr Wv Wb. split.
  - intros ->. destruct (lambda_return_empty _ _ _ discount lambda_ s Hr Hv Hb Wr Wv Wb)
      as [H1 H2]. by repeat split.
  - intros HN.
    destruct (lambda_return_rows _ _ _ discount lambda_ N s HN Hr Hv Hb Wr Wv Wb)
      as [HG Hlen].
    eexists. split; [exact HG|]. unfold len, stacked. cbn [shape]. by rewrite Hlen.
Qed.

Lemma lambda_return_empty_raises_witness :
  (0 = 0 ->
   lambda_return_outputs demo_empty demo_empty demo_bootstrap 0.9 0.5 = Ok []
   /\ stack [] = Raise RuntimeError
   /\ lambda_return demo_empty demo_empty demo_bootstrap 0.9 0.5 = Raise RuntimeError)
  /\ (1 <= 0 ->
      exists G,
        lambda_return demo_empty demo_empty demo_bootstrap 0.9 0.5 = Ok G
        /\ len G = Ok 0).
Proof.
  apply (lambda_return_empty_raises demo_empty demo_empty demo_bootstrap 0.9 0.5 0 []);
    reflexivity.
Defined.

(** * Further properties *)

(** ** Parameter lists and scopes *)

Lemma get_parameters_foldl (mods acc : list nat) (h : heap) :
  foldl (fun model_parameters module => model_parameters ++ parameters h !!! module)
        acc mods
  = acc ++ concat (map (fun module => parameters h !!! module) mods).
Proof.
  revert acc. induction mods as [|m mods IH]; intros acc; cbn [foldl map concat].
  - by rewrite app_nil_r.
  - rewrite IH. by rewrite <- app_assoc.
Qed.

(** X1.  [get_parameters] returns the parameter lists of the modules one
    after the other, in the order of the modules and with every repetition
    kept: a parameter shared by two modules, or a module listed twice, shows
    up once per occurrence.  A parameter is in the result exactly when one of
    the modules owns it. *)
Theorem get_parameters_concat (modules : list nat) (h : heap) :
  get_parameters modules h
  = concat (map (fun module => parameters h !!! module) modules)
  /\ length (get_parameters modules h)
     = sum_list (map (fun module => length (parameters h !!! module)) modules)
  /\ forall p, p ∈ get_parameters modules h
               <-> exists module, module ∈ modules /\ p ∈ parameters h !!! module.
Proof.
  assert (Hc : get_parameters modules h
               = concat (map (fun module => parameters h !!! module) modules))
    by apply (get_parameters_foldl modules [] h).
  split; [exact Hc|]. rewrite Hc. clear Hc. split.
  - induction modules as [|m ms IH]; cbn [map concat sum_list]; [reflexivity|].
    rewrite length_app. by f_equal.
  - intros p. induction modules as [|m ms IH]; cbn [map concat].
    + split; [by intros ?%elem_of_nil | by intros (m & ?%elem_of_nil & _)].
    + rewrite elem_of_app, IH. split.
      * intros [Hp|(m' & Hm & Hp)]; [exists m | exists m'];
          (split; [|exact Hp]); rewrite elem_of_cons; tauto.
      * intros (m' & [->|Hm]%elem_of_cons & Hp); [by left | right; by exists m'].
Qed.

(** X2.  [__enter__] of [FreezeParameters] always completes and leaves every
    parameter of the modules with [requires_grad = False].  [__enter__] of
    [ActivateParameters] completes, and leaves every parameter of the modules
    with [requires_grad = True], when all of them can require gradients; it
    raises [RuntimeError] at the first parameter that cannot (an integer
    tensor), and the parameters before that one stay at [True].  In each
    case the flag of no other parameter changes, nor do the parameter lists
    of the modules. *)
Theorem enter_sets_module_flags (self : scope) (h : heap) (p : nat) :
  let params := get_parameters (modules self) h in
  (exists frozen,
     FreezeParameters.__enter__ self h = (frozen, Completed)
     /\ parameters frozen = parameters h
     /\ requires_grad frozen !!! p
        = if decide (p ∈ params) then false else requires_grad h !!! p)
  /\ ((forall q, q ∈ params -> floating h q = true) ->
      exists active,
        ActivateParameters.__enter__ self h = (active, Completed)
        /\ parameters active = parameters h
        /\ requires_grad active !!! p
           = if decide (p ∈ params) then true else requires_grad h !!! p)
  /\ (forall pre q post,
        params = pre ++ q :: post ->
        (forall x, x ∈ pre -> floating h x = true) -> floating h q = false ->
        exists stopped,
          ActivateParameters.__enter__ self h = (stopped, Raised RuntimeError)
          /\ parameters stopped = parameters h
          /\ requires_grad stopped !!! p
             = if decide (p ∈ pre) then true else requires_grad h !!! p).
Proof.
  cbv zeta. unfold FreezeParameters.__enter__, ActivateParameters.__enter__.
  split; [|split].
  - destruct (set_all_completes false (get_parameters (modules self) h) h
                ltac:(discriminate)) as (h1 & Hs & Hp & _ & Hf).
    exists h1. split; [exact Hs|]. split; [exact Hp | apply Hf].
  - intros Hfl.
    destruct (set_all_completes true (get_parameters (modules self) h) h
                (fun _ => Hfl)) as (h1 & Hs & Hp & _ & Hf).
    exists h1. split; [exact Hs|]. split; [exact Hp | apply Hf].
  - intros pre q post -> Hpre Hq.
    destruct (set_all_raises pre post q h Hpre Hq) as (h1 & Hs & Hp & Hf).
    exists h1. split; [exact Hs|]. split; [exact Hp | apply Hf].
Qed.

Lemma enter_sets_module_flags_witness :
  let params := get_parameters [2] demo_heap_int in
  (exists frozen,
     FreezeParameters.__enter__ (Scope [2] []) demo_heap_int = (frozen, Completed)
     /\ parameters frozen = parameters demo_heap_int
     /\ requires_grad frozen !!! 20
        = if decide (20 ∈ params) then false else requires_grad demo_heap_int !!! 20)
  /\ ((forall q, q ∈ params -> floating demo_heap_int q = true) ->
      exists active,
        ActivateParameters.__enter__ (Scope [2] []) demo_heap_int = (active, Completed)
        /\ parameters active = parameters demo_heap_int
        /\ requires_grad active !!! 20
           = if decide (20 ∈ params) then true else requires_grad demo_heap_int !!! 20)
  /\ (forall pre q post,
        params = pre ++ q :: post ->
        (forall x, x ∈ pre -> floating demo_heap_int x = true) ->
        floating demo_heap_int q = false ->
        exists stopped,
          ActivateParameters.__enter__ (Scope [2] []) demo_heap_int
          = (stopped, Raised RuntimeError)
          /\ parameters stopped = parameters demo_heap_int
          /\ requires_grad stopped !!! 20
             = if decide (20 ∈ pre) then true else requires_grad demo_heap_int !!! 20).
Proof. exact (enter_sets_module_flags (Scope [2] []) demo_heap_int 20). Defined.

(** X3.  [__exit__] writes back the flags recorded when the scope object was
    built, not those at the time of [__enter__].  Whatever the flags are when
    [__exit__] runs, and whether or not [__enter__] ran, if the modules still
    list the parameters they listed at construction: when the parameters
    recorded as requiring gradients are floating-point, every parameter of
    the modules ends at its flag of construction time and no other flag
    changes; when one of them is not floating-point any more, [__exit__]
    raises [RuntimeError]. *)
Theorem exit_restores_construction_flags (modules : list nat) (h0 h : heap) :
  get_parameters modules h = get_parameters modules h0 ->
  ((forall p, p ∈ get_parameters modules h0 -> requires_grad h0 !!! p = true ->
      floating h p = true) ->
   exists h',
     FreezeParameters.__exit__ (FreezeParameters.__init__ modules h0) h = Ok h'
     /\ ActivateParameters.__exit__ (ActivateParameters.__init__ modules h0) h = Ok h'
     /\ parameters h' = parameters h
     /\ forall p, requires_grad h' !!! p
                  = if decide (p ∈ get_parameters modules h0)
                    then requires_grad h0 !!! p else requires_grad h !!! p)
  /\ ((exists p, p ∈ get_parameters modules h0 /\ requires_grad h0 !!! p = true
                 /\ floating h p = false) ->
      FreezeParameters.__exit__ (FreezeParameters.__init__ modules h0) h
      = Raise RuntimeError
      /\ ActivateParameters.__exit__ (ActivateParameters.__init__ modules h0) h
         = Raise RuntimeError).
Proof.
  intros Hsame. split.
  - intros Hfl.
    destruct (restore_spec (fun p => requires_grad h0 !!! p)
                (FreezeParameters.__init__ modules h0) []
                (get_parameters modules h0) h) as (h' & Hr & Hp & _ & Hf);
      [reflexivity | exact Hfl |].
    rewrite <- Hsame in Hr. exists h'.
    split; [exact Hr|]. split; [exact Hr|]. split; [exact Hp | exact Hf].
  - intros (p & Hin & Hflag & Hint).
    assert (Hexit : FreezeParameters.__exit__ (FreezeParameters.__init__ modules h0) h
                    = Raise RuntimeError); [|split; exact Hexit].
    change (FreezeParameters.__exit__ (FreezeParameters.__init__ modules h0) h)
      with (restore (FreezeParameters.__init__ modules h0) 0
              (get_parameters modules h) h).
    pose proof (restore_cases (FreezeParameters.__init__ modules h0) 0
                  (get_parameters modules h) h ltac:(lia)) as Hcases.
    rewrite Hsame in *.
    apply list_elem_of_lookup in Hin as [j Hj].
    assert (Hstate : param_states (FreezeParameters.__init__ modules h0) !! (0 + j)
                     = Some true).
    { cbn [param_states FreezeParameters.__init__ Nat.add].
      change (map ?f ?l) with (f <$> l). by rewrite list_lookup_fmap, Hj, <- Hflag. }
    destruct (restore _ 0 _ h) as [h'|e].
    + destruct Hcases as (_ & _ & _ & Hall). rewrite (Hall j p Hj Hstate) in Hint.
      discriminate.
    + destruct Hcases as [(_ & Hlen & _)|(-> & _)]; [|reflexivity].
      cbn [param_states FreezeParameters.__init__ Nat.add] in Hlen.
      rewrite length_map in Hlen. lia.
Qed.

Lemma exit_restores_construction_flags_witness :
  exists h',
    FreezeParameters.__exit__ (FreezeParameters.__init__ [0; 1] demo_heap)
      (set_requires_grad 11 true demo_heap) = Ok h'
    /\ ActivateParameters.__exit__ (ActivateParameters.__init__ [0; 1] demo_heap)
         (set_requires_grad 11 true demo_heap) = Ok h'
    /\ parameters h' = parameters (set_requires_grad 11 true demo_heap)
    /\ forall p, requires_grad h' !!! p
                 = if decide (p ∈ get_parameters [0; 1] demo_heap)
                   then requires_grad demo_heap !!! p
                   else requires_grad (set_requires_grad 11 true demo_heap) !!! p.
Proof.
  destruct (exit_restores_construction_flags [0; 1] demo_heap
              (set_requires_grad 11 true demo_heap) eq_refl) as [Hok _].
  apply Hok. intros p _ _. reflexivity.
Defined.

(** X4.  How [__exit__] ends, for any scope object and any heap.  It goes
    through the parameters of the modules in order, and at position [i] it
    is refused when the flag recorded at [i] is [True] and the parameter at
    [i] is not floating-point.  [__exit__] raises [RuntimeError] exactly when
    there is such a position; it raises [IndexError] exactly when the
    modules list more parameters than the scope object recorded flags for (a
    module gained a parameter since the construction) and no recorded flag
    is refused; in every other case, so with as many parameters or fewer and
    no flag refused, it completes and keeps the parameter lists.  The two
    classes have the same [__exit__]. *)
Theorem exit_raises_iff_parameters_added (self : scope) (h : heap) :
  let params := get_parameters (modules self) h in
  let refused i :=
    exists p, params !! i = Some p /\ param_states self !! i = Some true
              /\ floating h p = false in
  (FreezeParameters.__exit__ self h = Raise RuntimeError <-> exists i, refused i)
  /\ (FreezeParameters.__exit__ self h = Raise IndexError
      <-> length (param_states self) < length params /\ ~ exists i, refused i)
  /\ ((exists h', FreezeParameters.__exit__ self h = Ok h'
                  /\ parameters h' = parameters h)
      <-> length params <= length (param_states self) /\ ~ exists i, refused i)
  /\ ActivateParameters.__exit__ self h = FreezeParameters.__exit__ self h.
Proof.
  cbv zeta. unfold FreezeParameters.__exit__, ActivateParameters.__exit__.
  pose proof (restore_cases self 0 (get_parameters (modules self) h) h ltac:(lia))
    as Hcases.
  cbn [Nat.add] in Hcases.
  set (params := get_parameters (modules self) h) in *.
  destruct (restore self 0 params h) as [h'|e].
  - destruct Hcases as (Hp & _ & Hlen & Hall).
    assert (Hnone : ~ exists i p, params !! i = Some p
                                  /\ param_states self !! i = Some true
                                  /\ floating h p = false).
    { intros (i & p & Hi & Hs & Hd). rewrite (Hall i p Hi Hs) in Hd. discriminate. }
    split; [split; [discriminate | by intros ?]|].
    split; [split; [discriminate | intros [? _]; lia]|].
    split; [|reflexivity]. split; [by intros _ | intros _; by exists h'].
  - destruct Hcases as [(-> & Hlen & Hall)|(-> & j & p & Hj & Hs & Hd)].
    + assert (Hnone : ~ exists i p, params !! i = Some p
                                    /\ param_states self !! i = Some true
                                    /\ floating h p = false).
      { intros (i & p & Hi & Hs & Hd).
        rewrite (Hall i p (lookup_lt_Some _ _ _ Hs) Hi Hs) in Hd. discriminate. }
      split; [split; [discriminate | by intros ?]|].
      split; [split; [by intros _ | reflexivity]|].
      split; [|reflexivity]. split; [by intros (? & ? & _) | intros [? _]; lia].
    + assert (Hsome : exists i p, params !! i = Some p
                                  /\ param_states self !! i = Some true
                                  /\ floating h p = false) by (by exists j, p).
      split; [split; [by intros _ | reflexivity]|].
      split; [split; [discriminate | by intros [_ ?]]|].
      split; [|reflexivity]. split; [by intros (? & ? & _) | by intros [_ ?]].
Qed.

(** ** More on the scalar recurrence *)

Lemma spec_last_ext (rw rw' v v' : nat -> R) (b discount lambda_ : R) (N n : nat) :
  n <= N ->
  (forall i, i < N -> rw i = rw' i) -> (forall i, 1 <= i < N -> v i = v' i) ->
  spec_last rw v b discount lambda_ N n = spec_last rw' v' b discount lambda_ N n.
Proof.
  intros Hn Hrw Hv. induction n as [|n IH]; [reflexivity|].
  cbn [spec_last]. rewrite IH by lia. unfold spec_target, spec_next_values.
  rewrite Hrw by lia. destruct (N - S n <? N - 1) eqn:E; [|reflexivity].
  apply Nat.ltb_lt in E. rewrite Hv by lia. reflexivity.
Qed.

Lemma spec_last_mono (rw rw' v v' : nat -> R) (b b' discount lambda_ : R) (N n : nat) :
  (0 <= discount)%R -> (0 <= lambda_ <= 1)%R -> n <= N ->
  (forall i, i < N -> (rw i <= rw' i)%R) ->
  (forall i, 1 <= i < N -> (v i <= v' i)%R) -> (b <= b')%R ->
  (spec_last rw v b discount lambda_ N n
   <= spec_last rw' v' b' discount lambda_ N n)%R.
Proof.
  intros Hd Hl Hn Hrw Hv Hb. induction n as [|n IH]; [exact Hb|].
  cbn [spec_last]. specialize (IH ltac:(lia)).
  assert (Hnv : (spec_next_values v b N (N - S n)
                 <= spec_next_values v' b' N (N - S n))%R).
  { unfold spec_next_values. destruct (N - S n <? N - 1) eqn:E; [|exact Hb].
    apply Nat.ltb_lt in E. apply Hv. lia. }
  unfold spec_target. specialize (Hrw (N - S n) ltac:(lia)).
  assert (H1 : (0 <= discount * (1 - lambda_))%R) by (apply Rmult_le_pos; lra).
  assert (H2 : (0 <= discount * lambda_)%R) by (apply Rmult_le_pos; lra).
  pose proof (Rmult_le_compat_l _ _ _ H1 Hnv).
  pose proof (Rmult_le_compat_l _ _ _ H2 IH).
  lra.
Qed.

Lemma geometric_weights (x : R) (n : nat) :
  ((1 - x) * foldr Rplus 0 (map (fun j => x ^ j) (seq 0 n)) + x ^ n = 1)%R.
Proof.
  induction n as [|n IH]; [simpl; ring|].
  rewrite seq_S, map_app, foldr_app. cbn [map foldr Nat.add].
  assert (Hacc : forall (l : list R) (c : R),
            foldr Rplus c l = (foldr Rplus 0 l + c)%R).
  { intros l c. induction l as [|y l IHl]; simpl; [ring | rewrite IHl; ring]. }
  rewrite Hacc. simpl pow. lra.
Qed.

Lemma sum_shift (f : nat -> R) (a n : nat) :
  foldr Rplus 0%R (map f (seq (S a) n))
  = foldr Rplus 0%R (map (fun j => f (S j)) (seq a n)).
Proof. by rewrite <- seq_shift, map_map. Qed.

Lemma sum_plus (f g : nat -> R) (l : list nat) :
  foldr Rplus 0%R (map (fun j => (f j + g j)%R) l)
  = (foldr Rplus 0%R (map f l) + foldr Rplus 0%R (map g l))%R.
Proof. induction l as [|j l IH]; simpl; [ring | rewrite IH; ring]. Qed.

Lemma n_step_return_succ (rw v : nat -> R) (b discount : R) (N i n : nat) :
  1 <= n ->
  n_step_return rw v b discount N i (S n)
  = (rw i + discount * n_step_return rw v b discount N (S i) n)%R.
Proof.
  intros Hn. unfold n_step_return. cbn [seq map foldr]. rewrite sum_shift.
  rewrite (sum_ext_seq _ (fun j => (discount * (discount ^ j * rw (S i + j)%nat))%R)).
  - rewrite sum_scale. rewrite Nat.add_0_r.
    replace (i + S n - 1) with (S i + n - 1) by lia. simpl pow. ring.
  - intros j _. replace (i + S j) with (S i + j) by lia. simpl pow. ring.
Qed.

Lemma spec_last_mixture (rw v : nat -> R) (b discount lambda_ : R) (N m : nat) :
  1 <= m <= N ->
  spec_last rw v b discount lambda_ N m
  = lambda_mixture rw v b discount lambda_ N (N - m).
Proof.
  intros [Hm HN]. induction m as [|m IH]; [lia|].
  destruct m as [|m].
  - clear IH. cbn [spec_last]. unfold lambda_mixture, n_step_return, spec_target.
    replace (N - (N - 1) - 1) with 0 by lia. replace (N - (N - 1)) with 1 by lia.
    cbn [seq map foldr]. rewrite Nat.add_0_r.
    replace (N - 1 + 1 - 1) with (N - 1) by lia.
    unfold spec_next_values. rewrite Nat.ltb_irrefl. simpl pow. ring.
  - cbn [spec_last] in IH |- *. rewrite IH by lia. clear IH.
    set (i := N - S (S m)).
    replace (N - S m) with (S i) by lia.
    unfold lambda_mixture.
    replace (N - i - 1) with (S m) by lia. replace (N - S i - 1) with m by lia.
    replace (N - i) with (S (S m)) by lia. replace (N - S i) with (S m) by lia.
    rewrite (n_step_return_succ _ _ _ _ _ i (S m)) by lia.
    change (seq 1 (S m)) with (1 :: seq 2 m). cbn [map foldr].
    rewrite (sum_shift _ 1 m).
    rewrite (sum_ext_seq
               (fun j => (lambda_ ^ (S j - 1) * n_step_return rw v b discount N i (S j))%R)
               (fun j => (rw i * lambda_ ^ j
                          + discount * lambda_
                            * (lambda_ ^ (j - 1)
                               * n_step_return rw v b discount N (S i) j))%R)).
    2: { intros j Hj. rewrite n_step_return_succ by lia.
         replace (S j - 1) with j by lia.
         replace j with (S (j - 1)) at 1 3 by lia. simpl pow. ring. }
    rewrite sum_plus, !sum_scale.
    set (S1 := foldr Rplus 0%R (map (pow lambda_) (seq 1 m))).
    set (A := foldr Rplus 0%R (map _ (seq 1 m))).
    set (Gm := n_step_return rw v b discount N (S i) (S m)).
    assert (Hgeo : ((1 - lambda_) * (1 + S1) + lambda_ * lambda_ ^ m = 1)%R).
    { pose proof (geometric_weights lambda_ (S m)) as H.
      cbn [seq map foldr] in H. simpl pow in H. exact H. }
    assert (H1 : n_step_return rw v b discount N i 1
                 = (rw i + discount * spec_next_values v b N i)%R).
    { unfold n_step_return. cbn [seq map foldr]. rewrite Nat.add_0_r.
      replace (i + 1 - 1) with i by lia. simpl pow. ring. }
    rewrite H1. unfold spec_target. simpl pow.
    replace (rw i) with ((rw i) * ((1 - lambda_) * (1 + S1) + lambda_ * lambda_ ^ m))%R
      at 1 by (rewrite Hgeo; ring).
    ring.
Qed.

(** ** More on [lambda_return] *)

Lemma drop_row_ext (x y : tensor) (N : nat) (s : list nat) :
  shape x = N :: s -> shape y = N :: s -> wf x -> wf y ->
  (forall i k, 1 <= i < N -> k < numel s -> entry x i k = entry y i k) ->
  drop (numel s) (data x) = drop (numel s) (data y).
Proof.
  intros Hx Hy Wx Wy Heq. unfold wf in *. rewrite Hx in Wx. rewrite Hy in Wy.
  rewrite numel_cons in Wx, Wy.
  apply (nth_ext _ _ 0%R 0%R); [len_simpl; lia|].
  intros j Hj. rewrite length_drop, Wx in Hj. rewrite !nth_drop.
  assert (Hw : numel s <> 0) by (intros E; rewrite E in Hj; lia).
  pose proof (Nat.div_mod_eq j (numel s)) as Hdm.
  pose proof (Nat.mod_upper_bound j (numel s) Hw) as Hk.
  assert (Hi : j / numel s < N - 1) by (apply Nat.Div0.div_lt_upper_bound; nia).
  specialize (Heq (1 + j / numel s) (j mod numel s) ltac:(lia) Hk).
  unfold entry, item in Heq. rewrite Hx, Hy in Heq. cbn [tail] in Heq.
  replace (numel s + j) with ((1 + j / numel s) * numel s + j mod numel s) by nia.
  exact Heq.
Qed.

(** X5.  The result of [lambda_return] does not depend on the first time
    step of [value_pred]: two value tensors of the same shape that agree from
    time step 1 on give the same result (the same tensor or the same
    exception), for any rewards and bootstrap.  The code reads [value_pred]
    only through [value_pred[1:]]. *)
Theorem lambda_return_ignores_first_value
    (imged_reward value_pred value_pred' bootstrap : tensor) (discount lambda_ : R)
    (N : nat) (s : list nat) :
  shape value_pred = N :: s -> shape value_pred' = N :: s ->
  wf value_pred -> wf value_pred' ->
  (forall i k, 1 <= i < N -> k < numel s ->
     entry value_pred' i k = entry value_pred i k) ->
  lambda_return imged_reward value_pred' bootstrap discount lambda_
  = lambda_return imged_reward value_pred bootstrap discount lambda_.
Proof.
  intros Hv Hv' Wv Wv' Heq.
  unfold lambda_return, lambda_return_outputs, slice_from1. rewrite Hv, Hv'.
  by rewrite (drop_row_ext value_pred' value_pred N s).
Qed.

Lemma lambda_return_ignores_first_value_witness :
  lambda_return demo_reward (Tensor [3] [7; 2; 2]%R) demo_bootstrap 0.9 0.5
  = lambda_return demo_reward demo_value demo_bootstrap 0.9 0.5.
Proof.
  apply (lambda_return_ignores_first_value demo_reward demo_value
           (Tensor [3] [7; 2; 2]%R) demo_bootstrap 0.9 0.5 3 []);
    try reflexivity.
  intros i k Hi Hk. change (numel []) with 1 in Hk.
  assert (Hk0 : k = 0) by lia. subst k.
  destruct i as [|[|[|i]]]; try lia; reflexivity.
Defined.

(** X6.  The returns satisfy the forward recursion of the lambda-return: the
    return of a time step is its reward plus the discounted blend, with
    weights [1 - lambda_] and [lambda_], of the next value and the next
    return; after the last time step both are the bootstrap, so the last
    return is the reward plus the discounted bootstrap whatever [lambda_]
    is. *)
Theorem lambda_return_recursion (imged_reward value_pred bootstrap : tensor)
    (discount lambda_ : R) (N : nat) (s : list nat) :
  1 <= N ->
  shape imged_reward = N :: s -> shape value_pred = N :: s -> shape bootstrap = s ->
  wf imged_reward -> wf value_pred -> wf bootstrap ->
  exists G,
    lambda_return imged_reward value_pred bootstrap discount lambda_ = Ok G
    /\ (forall i k, i + 1 < N -> k < numel s ->
          entry G i k
          = (entry imged_reward i k
             + discount * ((1 - lambda_) * entry value_pred (i + 1) k
                           + lambda_ * entry G (i + 1) k))%R)
    /\ (forall k, k < numel s ->
          entry G (N - 1) k
          = (entry imged_reward (N - 1) k + discount * item bootstrap k)%R).
Proof.
  intros HN Hr Hv Hb Wr Wv Wb.
  destruct (lambda_return_rows _ _ _ discount lambda_ N s HN Hr Hv Hb Wr Wv Wb)
    as [HG _].
  eexists. split; [exact HG|]. split.
  - intros i k Hi Hk. rewrite !lambda_rows_entry by (assumption || lia).
    pose proof (spec_G_step (fun j => entry imged_reward j k)
                  (fun j => entry value_pred j k) (item bootstrap k)
                  discount lambda_ N i ltac:(lia)) as Hstep.
    unfold spec_G, spec_target, spec_next_values in Hstep. rewrite Hstep.
    replace (i <? N - 1) with true by (symmetry; apply Nat.ltb_lt; lia).
    replace (S i <? N) with true by (symmetry; apply Nat.ltb_lt; lia).
    replace (i + 1) with (S i) by lia. ring.
  - intros k Hk. rewrite lambda_rows_entry by (assumption || lia).
    pose proof (spec_G_step (fun j => entry imged_reward j k)
                  (fun j => entry value_pred j k) (item bootstrap k)
                  discount lambda_ N (N - 1) ltac:(lia)) as Hstep.
    unfold spec_G, spec_target, spec_next_values in Hstep. rewrite Hstep.
    rewrite Nat.ltb_irrefl.
    replace (S (N - 1) <? N) with false by (symmetry; apply Nat.ltb_ge; lia).
    ring.
Qed.

Lemma lambda_return_recursion_witness :
  exists G,
    lambda_return demo_reward demo_value demo_bootstrap 0.9 0.5 = Ok G
    /\ (forall i k, i + 1 < 3 -> k < numel [] ->
          entry G i k
          = (entry demo_reward i k
             + 0.9 * ((1 - 0.5) * entry demo_value (i + 1) k
                      + 0.5 * entry G (i + 1) k))%R)
    /\ (forall k, k < numel [] ->
          entry G (3 - 1) k
          = (entry demo_reward (3 - 1) k + 0.9 * item demo_bootstrap k)%R).
Proof.
  apply (lambda_return_recursion demo_reward demo_value demo_bootstrap 0.9 0.5 3 []);
    (lia || reflexivity).
Defined.

(** X7.  For a discount [>= 0] and [lambda_] in [[0, 1]] the returns are
    monotone in their inputs: larger rewards, larger values (from time step 1
    on) and a larger bootstrap never make any return smaller. *)
Theorem lambda_return_monotone
    (imged_reward value_pred bootstrap imged_reward' value_pred' bootstrap' : tensor)
    (discount lambda_ : R) (N : nat) (s : list nat) :
  1 <= N ->
  shape imged_reward = N :: s -> shape value_pred = N :: s -> shape bootstrap = s ->
  wf imged_reward -> wf value_pred -> wf bootstrap ->
  shape imged_reward' = N :: s -> shape value_pred' = N :: s -> shape bootstrap' = s ->
  wf imged_reward' -> wf value_pred' -> wf bootstrap' ->
  (0 <= discount)%R -> (0 <= lambda_ <= 1)%R ->
  (forall i k, i < N -> k < numel s ->
     (entry imged_reward i k <= entry imged_reward' i k)%R) ->
  (forall i k, 1 <= i < N -> k < numel s ->
     (entry value_pred i k <= entry value_pred' i k)%R) ->
  (forall k, k < numel s -> (item bootstrap k <= item bootstrap' k)%R) ->
  exists G G',
    lambda_return imged_reward value_pred bootstrap discount lambda_ = Ok G
    /\ lambda_return imged_reward' value_pred' bootstrap' discount lambda_ = Ok G'
    /\ forall i k, i < N -> k < numel s -> (entry G i k <= entry G' i k)%R.
Proof.
  intros HN Hr Hv Hb Wr Wv Wb Hr' Hv' Hb' Wr' Wv' Wb' Hd Hl Lr Lv Lb.
  destruct (lambda_return_rows _ _ _ discount lambda_ N s HN Hr Hv Hb Wr Wv Wb)
    as [HG _].
  destruct (lambda_return_rows _ _ _ discount lambda_ N s HN Hr' Hv' Hb' Wr' Wv' Wb')
    as [HG' _].
  do 2 eexists. split; [exact HG|]. split; [exact HG'|].
  intros i k Hi Hk. rewrite !lambda_rows_entry by assumption.
  apply spec_last_mono; try assumption; try lia.
  - intros j Hj. by apply Lr.
  - intros j Hj. by apply Lv.
  - by apply Lb.
Qed.

Lemma lambda_return_monotone_witness :
  exists G G',
    lambda_return demo_reward demo_value demo_bootstrap 0.9 0.5 = Ok G
    /\ lambda_return demo_reward demo_value demo_bootstrap 0.9 0.5 = Ok G'
    /\ forall i k, i < 3 -> k < numel [] -> (entry G i k <= entry G' i k)%R.
Proof.
  apply (lambda_return_monotone demo_reward demo_value demo_bootstrap
           demo_reward demo_value demo_bootstrap 0.9 0.5 3 []);
    try (lia || reflexivity || lra); intros; lra.
Defined.

(** X8.  The returns are the lambda-return of the textbooks: the return of
    time step [i] is the geometric blend of the [n]-step returns from [i],
    the [n]-step return with [n < N - i] weighing
    [(1 - lambda_) * lambda_^(n-1)] and the longest one, which runs to the
    end and closes with the bootstrap, weighing [lambda_^(N-i-1)]. *)
Theorem lambda_return_geometric_mixture (imged_reward value_pred bootstrap : tensor)
    (discount lambda_ : R) (N : nat) (s : list nat) :
  1 <= N ->
  shape imged_reward = N :: s -> shape value_pred = N :: s -> shape bootstrap = s ->
  wf imged_reward -> wf value_pred -> wf bootstrap ->
  exists G,
    lambda_return imged_reward value_pred bootstrap discount lambda_ = Ok G
    /\ forall i k, i < N -> k < numel s ->
       entry G i k
       = lambda_mixture (fun j => entry imged_reward j k)
           (fun j => entry value_pred j k) (item bootstrap k) discount lambda_ N i.
Proof.
  intros HN Hr Hv Hb Wr Wv Wb.
  destruct (lambda_return_rows _ _ _ discount lambda_ N s HN Hr Hv Hb Wr Wv Wb)
    as [HG _].
  eexists. split; [exact HG|].
  intros i k Hi Hk. rewrite lambda_rows_entry by assumption.
  rewrite spec_last_mixture by lia. f_equal. lia.
Qed.

Lemma lambda_return_geometric_mixture_witness :
  exists G,
    lambda_return demo_reward demo_value demo_bootstrap 0.9 0.5 = Ok G
    /\ forall i k, i < 3 -> k < numel [] ->
       entry G i k
       = lambda_mixture (fun j => entry demo_reward j k)
           (fun j => entry demo_value j k) (item demo_bootstrap k) 0.9 0.5 3 i.
Proof.
  apply (lambda_return_geometric_mixture demo_reward demo_value demo_bootstrap
           0.9 0.5 3 []); (lia || reflexivity).
Defined.

Lemma spec_last_ext_tail (rw rw' v v' : nat -> R) (b discount lambda_ : R) (N n : nat) :
  n <= N ->
  (forall j, N - n <= j < N -> rw j = rw' j) ->
  (forall j, N - n < j < N -> v j = v' j) ->
  spec_last rw v b discount lambda_ N n = spec_last rw' v' b discount lambda_ N n.
Proof.
  induction n as [|n IH]; intros Hn Hrw Hv; [reflexivity|].
  cbn [spec_last].
  rewrite IH by (try (intros j Hj; (apply Hrw || apply Hv)); lia).
  unfold spec_target, spec_next_values.
  rewrite Hrw by lia. destruct (N - S n <? N - 1) eqn:E; [|reflexivity].
  apply Nat.ltb_lt in E. rewrite Hv by lia. reflexivity.
Qed.

(** X9.  A return looks forward only: the return of time step [i] is fixed by
    the rewards from step [i] on, the values from step [i + 1] on and the
    bootstrap.  Two aligned inputs that agree there agree on every return
    from step [i] on, whatever the earlier rewards and values are. *)
Theorem lambda_return_looks_forward
    (imged_reward value_pred imged_reward' value_pred' bootstrap : tensor)
    (discount lambda_ : R) (N i0 : nat) (s : list nat) :
  1 <= N ->
  shape imged_reward = N :: s -> shape value_pred = N :: s -> shape bootstrap = s ->
  wf imged_reward -> wf value_pred -> wf bootstrap ->
  shape imged_reward' = N :: s -> shape value_pred' = N :: s ->
  wf imged_reward' -> wf value_pred' ->
  (forall j k, i0 <= j < N -> k < numel s ->
     entry imged_reward' j k = entry imged_reward j k) ->
  (forall j k, i0 < j < N -> k < numel s ->
     entry value_pred' j k = entry value_pred j k) ->
  exists G G',
    lambda_return imged_reward value_pred bootstrap discount lambda_ = Ok G
    /\ lambda_return imged_reward' value_pred' bootstrap discount lambda_ = Ok G'
    /\ forall i k, i0 <= i < N -> k < numel s -> entry G' i k = entry G i k.
Proof.
  intros HN Hr Hv Hb Wr Wv Wb Hr' Hv' Wr' Wv' Er Ev.
  destruct (lambda_return_rows _ _ _ discount lambda_ N s HN Hr Hv Hb Wr Wv Wb)
    as [HG _].
  destruct (lambda_return_rows _ _ _ discount lambda_ N s HN Hr' Hv' Hb Wr' Wv' Wb)
    as [HG' _].
  do 2 eexists. split; [exact HG|]. split; [exact HG'|].
  intros i k Hi Hk. rewrite !lambda_rows_entry by (assumption || lia).
  apply spec_last_ext_tail; [lia| |].
  - intros j Hj. apply Er; [lia | exact Hk].
  - intros j Hj. apply Ev; [lia | exact Hk].
Qed.

Lemma lambda_return_looks_forward_witness :
  exists G G',
    lambda_return demo_reward demo_value demo_bootstrap 0.9 0.5 = Ok G
    /\ lambda_return (Tensor [3] [4; 1; 1]%R) (Tensor [3] [7; 5; 2]%R) demo_bootstrap
         0.9 0.5 = Ok G'
    /\ forall i k, 1 <= i < 3 -> k < numel [] -> entry G' i k = entry G i k.
Proof.
  apply (lambda_return_looks_forward demo_reward demo_value
           (Tensor [3] [4; 1; 1]%R) (Tensor [3] [7; 5; 2]%R) demo_bootstrap
           0.9 0.5 3 1 []); try (lia || reflexivity).
  - intros j k Hj Hk. change (numel []) with 1 in Hk.
    assert (Hk0 : k = 0) by lia. subst k.
    destruct j as [|[|[|j]]]; try lia; reflexivity.
  - intros j k Hj Hk. change (numel []) with 1 in Hk.
    assert (Hk0 : k = 0) by lia. subst k.
    destruct j as [|[|[|j]]]; try lia; reflexivity.
Defined.

(** ** Misaligned inputs of [lambda_return] *)

Lemma broadcast_rev_last (a : list nat) (n m : nat) :
  broadcast_rev (a ++ [n]) (a ++ [m])
  = if n =? m then Some (a ++ [n])
    else if n =? 1 then Some (a ++ [m])
    else if m =? 1 then Some (a ++ [n])
    else None.
Proof.
  induction a as [|x a IH]; cbn [app broadcast_rev].
  - destruct (n =? m), (n =? 1), (m =? 1); reflexivity.
  - rewrite Nat.eqb_refl, IH.
    destruct (n =? m), (n =? 1), (m =? 1); reflexivity.
Qed.

Lemma broadcast_shapes_rows (n m : nat) (s : list nat) :
  broadcast_shapes (n :: s) (m :: s)
  = if n =? m then Some (n :: s)
    else if n =? 1 then Some (m :: s)
    else if m =? 1 then Some (n :: s)
    else None.
Proof.
  unfold broadcast_shapes. rewrite !reverse_cons, broadcast_rev_last.
  destruct (n =? m), (n =? 1), (m =? 1); cbn [fmap option_fmap option_map];
    rewrite ?reverse_app, ?reverse_involutive; reflexivity.
Qed.

Lemma expand_one_row (n : nat) (s : list nat) (d : list R) :
  length d = numel s ->
  expand (n :: s) (1 :: s) d = concat (replicate n d).
Proof.
  intros Hd. cbn [expand]. destruct (1 =? n) eqn:E.
  - apply Nat.eqb_eq in E. subst n. cbn [blocks map concat replicate].
    rewrite expand_same by (rewrite length_take; lia).
    by rewrite take_ge by lia.
  - by rewrite expand_same.
Qed.

Lemma binop_rows_one (f : R -> R -> R) (x y : tensor) (n : nat) (s : list nat) :
  shape x = n :: s -> shape y = 1 :: s -> wf x -> wf y ->
  binop f x y
  = Ok (Tensor (n :: s) (zip_with f (data x) (concat (replicate n (data y))))).
Proof.
  intros Hx Hy Wx Wy. unfold wf in *. rewrite Hx in Wx. rewrite Hy in Wy.
  rewrite numel_cons in Wy.
  unfold binop, expand_to. rewrite Hx, Hy, broadcast_shapes_rows.
  assert (Hs : (if n =? 1 then Some (n :: s)
                else if n =? 1 then Some (1 :: s)
                     else if 1 =? 1 then Some (n :: s) else None)
               = Some (n :: s)).
  { destruct (n =? 1) eqn:E; reflexivity. }
  rewrite Hs.
  rewrite (pad_shape_same (n :: s)).
  change (length (n :: s)) with (length (1 :: s)). rewrite (pad_shape_same (1 :: s)).
  rewrite expand_same by exact Wx. rewrite expand_one_row by lia. reflexivity.
Qed.

Lemma binop_one_rows (f : R -> R -> R) (x y : tensor) (m : nat) (s : list nat) :
  shape x = 1 :: s -> shape y = m :: s -> wf x -> wf y ->
  binop f x y
  = Ok (Tensor (m :: s) (zip_with f (concat (replicate m (data x))) (data y))).
Proof.
  intros Hx Hy Wx Wy. unfold wf in *. rewrite Hx in Wx. rewrite Hy in Wy.
  rewrite numel_cons in Wx.
  unfold binop, expand_to. rewrite Hx, Hy, broadcast_shapes_rows.
  assert (Hs : (if 1 =? m then Some (1 :: s)
                else if 1 =? 1 then Some (m :: s)
                     else if m =? 1 then Some (1 :: s) else None)
               = Some (m :: s)).
  { destruct (1 =? m) eqn:E; [apply Nat.eqb_eq in E; by subst | reflexivity]. }
  rewrite Hs.
  rewrite (pad_shape_same (m :: s)).
  change (length (m :: s)) with (length (1 :: s)). rewrite (pad_shape_same (1 :: s)).
  rewrite expand_same by exact Wy. rewrite expand_one_row by lia. reflexivity.
Qed.

Lemma next_values_rows (value_pred bootstrap : tensor) (M : nat) (s : list nat) :
  shape value_pred = M :: s -> shape bootstrap = s -> wf value_pred -> wf bootstrap ->
  (tail_values ← slice_from1 value_pred; cat tail_values (unsqueeze0 bootstrap) 0)
  = Ok (Tensor (pred M + 1 :: s) (drop (numel s) (data value_pred) ++ data bootstrap)).
Proof.
  intros Hv Hb Wv Wb. unfold wf in *. rewrite Hv, numel_cons in Wv. rewrite Hb in Wb.
  unfold slice_from1. rewrite Hv. cbn [mbind result_bind].
  rewrite (cat0_rows _ _ (pred M) 1 s); cbn [shape data unsqueeze0];
    try reflexivity; try congruence.
  - unfold wf. cbn [shape data]. len_simpl. rewrite Wv. destruct M; simpl; lia.
  - unfold wf, unsqueeze0. cbn [shape data]. rewrite ?Hb, numel_cons. lia.
Qed.

Lemma lambda_return_next_values (imged_reward value_pred bootstrap next_values : tensor)
    (discount lambda_ : R) :
  (tail_values ← slice_from1 value_pred; cat tail_values (unsqueeze0 bootstrap) 0)
  = Ok next_values ->
  lambda_return imged_reward value_pred bootstrap discount lambda_
  = (outputs ←
       (let discount_tensor := scalar_mul discount (ones_like imged_reward) in
        discounted ← mul discount_tensor next_values;
        inputs ← add imged_reward (mul_scalar discounted (1 - lambda_));
        n ← len inputs;
        '(_, outputs) ←
          for_loop (lambda_body inputs discount_tensor lambda_)
            (reverse (seq 0 n)) (bootstrap, []);
        mret (reverse outputs));
     stack outputs).
Proof.
  intros Hnv. unfold lambda_return, lambda_return_outputs.
  destruct (slice_from1 value_pred) as [tv|]; [|discriminate].
  cbn [mbind result_bind] in Hnv |- *. rewrite Hnv. reflexivity.
Qed.

Lemma length_concat_replicate (n : nat) (d : list R) :
  length (concat (replicate n d)) = n * length d.
Proof.
  induction n as [|n IH]; cbn [replicate concat]; [reflexivity|].
  rewrite length_app, IH. lia.
Qed.

Lemma wf_discount_tensor (imged_reward : tensor) (discount : R) :
  wf (scalar_mul discount (ones_like imged_reward)).
Proof. unfold wf, scalar_mul, ones_like. cbn [data shape]. by len_simpl. Qed.

(** X10.  A bootstrap whose shape is not that of one time step of
    [value_pred] makes [lambda_return] raise [RuntimeError], at [torch.cat],
    whatever the rewards are; the one exception is a one-dimensional
    [value_pred] of at most one entry, whose slice [[1:]] is an empty
    one-dimensional tensor that [torch.cat] skips. *)
Theorem lambda_return_bootstrap_mismatch (imged_reward value_pred bootstrap : tensor)
    (discount lambda_ : R) (N : nat) (s : list nat) :
  shape value_pred = N :: s -> shape bootstrap <> s -> ~ (N <= 1 /\ s = []) ->
  lambda_return imged_reward value_pred bootstrap discount lambda_
  = Raise RuntimeError.
Proof.
  intros Hv Hb Hne.
  unfold lambda_return, lambda_return_outputs, slice_from1. rewrite Hv.
  cbn [mbind result_bind].
  set (tail_values := Tensor (pred N :: s) (drop (numel s) (data value_pred))).
  assert (Hcat : cat tail_values (unsqueeze0 bootstrap) 0 = Raise RuntimeError).
  { unfold cat.
    assert (Hx : legacy_empty tail_values = false).
    { unfold legacy_empty. cbn [shape tail_values].
      destruct (pred N) eqn:E, s; try reflexivity. exfalso. apply Hne. split; [lia | done]. }
    assert (Hy : legacy_empty (unsqueeze0 bootstrap) = false) by reflexivity.
    rewrite Hx, Hy. cbn [shape tail_values unsqueeze0 length Nat.eqb orb].
    destruct (length s =? length (shape bootstrap)); [|reflexivity].
    cbn [negb Nat.ltb Nat.leb take drop shape_eqb andb].
    change (drop 0 s) with s. change (drop 0 (shape bootstrap)) with (shape bootstrap).
    destruct (shape_eqb s (shape bootstrap)) eqn:E; [|reflexivity].
    apply shape_eqb_eq in E. congruence. }
  rewrite Hcat. reflexivity.
Qed.

Lemma lambda_return_bootstrap_mismatch_witness :
  lambda_return demo_reward demo_matrix demo_bootstrap 0.9 0.5 = Raise RuntimeError.
Proof.
  apply (lambda_return_bootstrap_mismatch demo_reward demo_matrix demo_bootstrap
           0.9 0.5 2 [3]).
  - reflexivity.
  - discriminate.
  - intros [_ H]. discriminate H.
Defined.

(** X11.  Rewards of [N] time steps against values of [M >= 2] time steps,
    [N <> M], make [lambda_return] raise: [RuntimeError] where the discounts
    are multiplied with the next values, whose [N] and [M] rows do not
    broadcast; for [N = 1] they do broadcast, the loop then runs over [M]
    inputs and [discount_tensor[index]] raises [IndexError] at the first
    index, [M - 1]. *)
Theorem lambda_return_length_mismatch (imged_reward value_pred bootstrap : tensor)
    (discount lambda_ : R) (N M : nat) (s : list nat) :
  shape imged_reward = N :: s -> shape value_pred = M :: s -> shape bootstrap = s ->
  wf imged_reward -> wf value_pred -> wf bootstrap ->
  2 <= M -> N <> M ->
  lambda_return imged_reward value_pred bootstrap discount lambda_
  = Raise (if N =? 1 then IndexError else RuntimeError).
Proof.
  intros Hr Hv Hb Wr Wv Wb HM Hne.
  rewrite (lambda_return_next_values _ _ _ _ _ _
             (next_values_rows value_pred bootstrap M s Hv Hb Wv Wb)).
  replace (pred M + 1) with M by lia. cbv zeta.
  set (next_values := Tensor (M :: s) _).
  set (discount_tensor := scalar_mul discount (ones_like imged_reward)).
  assert (Hd : shape discount_tensor = N :: s) by exact Hr.
  assert (Wnv : wf next_values).
  { unfold wf in *. cbn [shape data next_values]. len_simpl.
    rewrite Wv, Wb, Hv, Hb, numel_cons. nia. }
  destruct (N =? 1) eqn:EN.
  - apply Nat.eqb_eq in EN. subst N. unfold mul, add.
    rewrite (binop_one_rows Rmult discount_tensor next_values M s Hd eq_refl
               (wf_discount_tensor _ _) Wnv).
    cbn [mbind result_bind].
    set (discounted := Tensor (M :: s) _).
    rewrite (binop_one_rows Rplus imged_reward (mul_scalar discounted (1 - lambda_))
               M s Hr eq_refl Wr).
    2: { unfold wf in *. cbn [shape data mul_scalar discounted]. len_simpl.
         pose proof (wf_discount_tensor imged_reward discount) as Wd.
         fold discount_tensor in Wd. unfold wf in Wd.
         rewrite length_concat_replicate, Wd, Hd. cbn [next_values data]. len_simpl.
         rewrite Wv, Wb, Hv, Hb, !numel_cons. nia. }
    set (inputs := Tensor (M :: s) _).
    cbn [mbind result_bind len shape inputs].
    replace (seq 0 M) with (seq 0 (M - 1) ++ [M - 1])
      by (rewrite <- seq_S; f_equal; lia).
    rewrite reverse_app, reverse_singleton. cbn [app for_loop].
    assert (Hstep : lambda_body inputs discount_tensor lambda_ (bootstrap, []) (M - 1)
                    = Raise IndexError).
    { unfold lambda_body.
      rewrite (select_row inputs M s (M - 1) eq_refl) by lia. cbn [mbind result_bind].
      unfold select. rewrite Hd.
      replace (M - 1 <? 1) with false by (symmetry; apply Nat.ltb_ge; lia).
      reflexivity. }
    rewrite Hstep. reflexivity.
  - apply Nat.eqb_neq in EN. unfold mul, binop. rewrite Hd.
    cbn [shape next_values]. rewrite broadcast_shapes_rows.
    replace (N =? M) with false by (symmetry; by apply Nat.eqb_neq).
    replace (N =? 1) with false by (symmetry; by apply Nat.eqb_neq).
    replace (M =? 1) with false by (symmetry; apply Nat.eqb_neq; lia).
    reflexivity.
Qed.

Lemma lambda_return_length_mismatch_witness :
  lambda_return demo_reward (Tensor [2] [2; 2]%R) demo_bootstrap 0.9 0.5
  = Raise (if 3 =? 1 then IndexError else RuntimeError).
Proof.
  apply (lambda_return_length_mismatch demo_reward (Tensor [2] [2; 2]%R)
           demo_bootstrap 0.9 0.5 3 2 []); (reflexivity || lia).
Defined.

Lemma concat_replicate_end (n : nat) (d : list R) :
  concat (replicate n d) ++ d = concat (replicate (S n) d).
Proof.
  induction n as [|n IH]; cbn [replicate concat]; [by rewrite app_nil_r|].
  rewrite <- app_assoc, IH. reflexivity.
Qed.

Lemma nth_concat_replicate (n i k : nat) (d : list R) :
  i < n -> k < length d ->
  nth (i * length d + k) (concat (replicate n d)) 0%R = nth k d 0%R.
Proof.
  intros Hi Hk.
  rewrite (nth_concat_uniform (length d)); [| |by rewrite length_replicate|exact Hk].
  - f_equal. rewrite nth_lookup, lookup_replicate_2 by exact Hi. reflexivity.
  - apply Forall_replicate. reflexivity.
Qed.

(** X12.  A [value_pred] of at most one time step is accepted against rewards
    of any number [N >= 1] of time steps: its slice [[1:]] is empty, the next
    values are the single row [bootstrap[None]], and broadcasting repeats that
    row for every time step.  The result is the return in which every next
    value is the bootstrap; no entry of [value_pred] is read. *)
Theorem lambda_return_single_value_row (imged_reward value_pred bootstrap : tensor)
    (discount lambda_ : R) (N M : nat) (s : list nat) :
  1 <= N -> M <= 1 ->
  shape imged_reward = N :: s -> shape value_pred = M :: s -> shape bootstrap = s ->
  wf imged_reward -> wf value_pred -> wf bootstrap ->
  exists G,
    lambda_return imged_reward value_pred bootstrap discount lambda_ = Ok G
    /\ shape G = N :: s
    /\ forall i k, i < N -> k < numel s ->
       entry G i k
       = spec_G (fun j => entry imged_reward j k) (fun _ => item bootstrap k)
           (item bootstrap k) discount lambda_ N i.
Proof.
  intros HN HM Hr Hv Hb Wr Wv Wb.
  set (values := Tensor (N :: s)
                   (replicate (numel s) 0%R
                    ++ concat (replicate (N - 1) (data bootstrap)))).
  assert (Lb : length (data bootstrap) = numel s) by (unfold wf in Wb; congruence).
  assert (Hvs : shape values = N :: s) by reflexivity.
  assert (Wvs : wf values).
  { unfold wf. cbn [shape data values]. len_simpl.
    rewrite length_concat_replicate, Lb. nia. }
  assert (Hsame : lambda_return imged_reward value_pred bootstrap discount lambda_
                  = lambda_return imged_reward values bootstrap discount lambda_).
  { rewrite (lambda_return_next_values _ value_pred _ _ _ _
               (next_values_rows value_pred bootstrap M s Hv Hb Wv Wb)).
    rewrite (lambda_return_next_values _ values _ _ _ _
               (next_values_rows values bootstrap N s Hvs Hb Wvs Wb)).
    cbv zeta. unfold mul.
    rewrite (binop_rows_one Rmult _ _ N s); [|exact Hr| |apply wf_discount_tensor|].
    - rewrite binop_same_shape.
      + cbn [shape data values scalar_mul ones_like]. rewrite Hr.
        rewrite drop_ge by (unfold wf in Wv; rewrite Wv, Hv, numel_cons; nia).
        rewrite drop_app_length' by (by rewrite length_replicate).
        cbn [app]. rewrite concat_replicate_end.
        replace (S (N - 1)) with N by lia. reflexivity.
      + cbn [shape scalar_mul ones_like]. rewrite Hr. f_equal. lia.
      + apply wf_discount_tensor.
      + unfold wf. cbn [shape data values]. len_simpl.
        rewrite length_concat_replicate, Lb. nia.
    - cbn [shape]. f_equal. lia.
    - unfold wf. cbn [shape data]. len_simpl.
      unfold wf in Wv. rewrite Wv, Hv, Lb, !numel_cons. nia. }
  destruct (lambda_return_rows imged_reward values bootstrap discount lambda_ N s
              HN Hr Hvs Hb Wr Wvs Wb) as [HG Hlen].
  eexists. split; [by rewrite Hsame|]. split.
  - unfold stacked. cbn [shape]. by rewrite Hlen.
  - intros i k Hi Hk. rewrite lambda_rows_entry by assumption.
    unfold spec_G. apply spec_last_ext; [lia|reflexivity|].
    intros j Hj. unfold entry, item. cbn [shape data values tail].
    rewrite app_nth2 by (rewrite length_replicate; nia).
    rewrite length_replicate.
    replace (j * numel s + k - numel s) with ((j - 1) * length (data bootstrap) + k)
      by (rewrite Lb; nia).
    apply nth_concat_replicate; lia.
Qed.

Lemma lambda_return_single_value_row_witness :
  exists G,
    lambda_return demo_reward (Tensor [1] [7%R]) demo_bootstrap 0.9 0.5 = Ok G
    /\ shape G = [3]
    /\ forall i k, i < 3 -> k < numel [] ->
       entry G i k
       = spec_G (fun j => entry demo_reward j k) (fun _ => item demo_bootstrap k)
           (item demo_bootstrap k) 0.9 0.5 3 i.
Proof.
  apply (lambda_return_single_value_row demo_reward (Tensor [1] [7%R]) demo_bootstrap
           0.9 0.5 3 1 []); (reflexivity || lia).
Defined.

(** ** More on [flatten] and [imagine_ahead] *)

(** X14.  With horizon 0 [imagine_ahead] raises [IndexError]: the four lists
    are empty and the assignment [beliefs[0] = prev_belief] is out of range
    (an exception of flattening an input comes first). *)
Theorem imagine_ahead_horizon_zero (prev_state prev_belief : tensor)
    (policy : Policy) (transition_model : TransitionModel) (g : generator) :
  imagine_ahead prev_state prev_belief policy transition_model 0 g
  = match flatten prev_belief, flatten prev_state with
    | Ok _, Ok _ => Raise IndexError
    | Ok _, Raise e => Raise e
    | Raise e, _ => Raise e
    end.
Proof.
  unfold imagine_ahead, imagine_lists.
  destruct (flatten prev_belief); cbn [mbind result_bind]; [|reflexivity].
  destruct (flatten prev_state); reflexivity.
Qed.

Lemma for_loop_app {S : Type} (body : S -> nat -> result S) (l1 l2 : list nat) (s : S) :
  for_loop body (l1 ++ l2) s = (s' ← for_loop body l1 s; for_loop body l2 s').
Proof.
  revert s. induction l1 as [|i l1 IH]; intros s; cbn [app for_loop]; [reflexivity|].
  destruct (body s i) as [s1|e]; cbn [mbind result_bind]; [apply IH | reflexivity].
Qed.

Lemma imagine_loop_refines (policy : Policy) (transition_model : TransitionModel)
    (B0 S0 : tensor) (g : generator) (T n : nat) :
  n < T ->
  match spec_rollout policy transition_model B0 S0 g n with
  | Ok ts =>
      exists st,
        for_loop (imagine_step policy transition_model) (seq 0 n)
          (Rollout (<[0:=B0]> (replicate T empty0)) (<[0:=S0]> (replicate T empty0))
             (replicate T empty0) (replicate T empty0) g) = Ok st
        /\ length (beliefs st) = T /\ length (prior_states st) = T
        /\ length (prior_means st) = T /\ length (prior_std_devs st) = T
        /\ beliefs st !! n = Some (ts_belief ts)
        /\ prior_states st !! n = Some (ts_state ts)
        /\ gen st = ts_gen ts
  | Raise e =>
      for_loop (imagine_step policy transition_model) (seq 0 n)
        (Rollout (<[0:=B0]> (replicate T empty0)) (<[0:=S0]> (replicate T empty0))
           (replicate T empty0) (replicate T empty0) g) = Raise e
  end.
Proof.
  induction n as [|n IH]; intros Hn.
  - cbn [spec_rollout seq for_loop]. eexists. split; [reflexivity|].
    cbn [beliefs prior_states prior_means prior_std_devs gen ts_belief ts_state ts_gen].
    rewrite !length_insert, !length_replicate.
    rewrite !list_lookup_insert_eq by (rewrite length_replicate; lia).
    by repeat split.
  - specialize (IH ltac:(lia)). cbn [spec_rollout]. rewrite seq_S, for_loop_app.
    cbn [Nat.add].
    destruct (spec_rollout policy transition_model B0 S0 g n) as [prev|e].
    + destruct IH as (st & -> & Lb & Ls & Lm & Ld & Hb & Hs & Hg).
      cbn [mbind result_bind for_loop].
      rewrite (imagine_step_spec _ _ _ _ _ _ Hb Hs) by lia. rewrite Hg.
      destruct (spec_step policy transition_model (ts_belief prev) (ts_state prev)
                  (ts_gen prev)) as [ts|e]; cbn [mbind result_bind]; [|reflexivity].
      eexists. split; [reflexivity|]. unfold record_step.
      cbn [beliefs prior_states prior_means prior_std_devs gen].
      rewrite !length_insert. replace (n + 1) with (S n) by lia.
      rewrite !list_lookup_insert_eq by lia. by repeat split.
    + rewrite IH. reflexivity.
Qed.

Lemma imagine_lists_step_failure (prev_state prev_belief : tensor)
    (policy : Policy) (transition_model : TransitionModel) (T : nat) (g : generator)
    (B0 S0 : tensor) (t : nat) (e : exn) :
  flatten prev_belief = Ok B0 -> flatten prev_state = Ok S0 -> t < T ->
  spec_rollout policy transition_model B0 S0 g t = Raise e ->
  imagine_lists prev_state prev_belief policy transition_model T g = Raise e.
Proof.
  intros HB HS Ht Hfail. unfold imagine_lists. rewrite HB, HS.
  cbn [mbind result_bind]. rewrite !setitem_lt by (rewrite length_replicate; lia).
  cbn [mbind result_bind].
  replace (T - 1) with (t + (T - 1 - t)) by lia. rewrite seq_app, for_loop_app.
  pose proof (imagine_loop_refines policy transition_model B0 S0 g T t Ht) as Hloop.
  rewrite Hfail in Hloop. rewrite Hloop. reflexivity.
Qed.

(** X15.  The rollout stops at the first time step that fails: for any
    policy and transition model, with no assumption on shapes, if time step
    [t < T] of the rollout from the flattened inputs raises an exception
    (raised by the policy, by a layer of the transition model or by a tensor
    operation), [imagine_ahead] raises that exception. *)
Theorem imagine_ahead_step_failure (prev_state prev_belief : tensor)
    (policy : Policy) (transition_model : TransitionModel) (T : nat) (g : generator)
    (B0 S0 : tensor) (t : nat) (e : exn) :
  flatten prev_belief = Ok B0 -> flatten prev_state = Ok S0 -> t < T ->
  spec_rollout policy transition_model B0 S0 g t = Raise e ->
  imagine_ahead prev_state prev_belief policy transition_model T g = Raise e.
Proof.
  intros HB HS Ht Hfail. unfold imagine_ahead.
  rewrite (imagine_lists_step_failure _ _ _ _ T g B0 S0 t e HB HS Ht Hfail).
  reflexivity.
Qed.

Lemma imagine_ahead_step_failure_witness :
  imagine_ahead demo_state demo_belief failing_policy demo_model 3 demo_gen
  = Raise ValueError.
Proof.
  apply (imagine_ahead_step_failure demo_state demo_belief failing_policy demo_model 3
           demo_gen (Tensor [2; 2] (data demo_belief)) (Tensor [2; 1] (data demo_state))
           1 ValueError); (reflexivity || lia).
Defined.

Lemma cat_vector_dim1 (x y : tensor) (n : nat) :
  shape x = [n] -> n <> 0 -> exists e, cat x y 1 = Raise e.
Proof.
  intros Hx Hn. unfold cat.
  assert (Hle : legacy_empty x = false).
  { unfold legacy_empty. rewrite Hx. by destruct n. }
  rewrite Hle, Hx. cbn [length Nat.eqb orb Nat.ltb Nat.leb negb].
  destruct (length (shape y) =? 0); [eexists; reflexivity|].
  destruct (legacy_empty y); [eexists; reflexivity|].
  destruct (negb _); eexists; reflexivity.
Qed.

(** X16.  A state of fewer than three dimensions (and at least one element)
    cannot be rolled out: [flatten] turns it into a one-dimensional tensor,
    and the first pass of the loop stops at the latest at
    [torch.cat([_state, actions], dim=1)], which has no dimension 1 to join
    along.  For every horizon [T >= 2] the call raises. *)
Theorem imagine_ahead_low_rank_state_raises (prev_state prev_belief : tensor)
    (policy : Policy) (transition_model : TransitionModel) (T : nat) (g : generator) :
  length (shape prev_state) <= 2 -> numel (shape prev_state) <> 0 -> 2 <= T ->
  exists e,
    imagine_ahead prev_state prev_belief policy transition_model T g = Raise e.
Proof.
  intros Hrank Hne HT.
  destruct (flatten prev_belief) as [B0|e] eqn:HB.
  2: { exists e. unfold imagine_ahead, imagine_lists. by rewrite HB. }
  assert (HS : flatten prev_state
               = Ok (Tensor [numel (shape prev_state)] (data prev_state))).
  { unfold flatten, view_infer. rewrite drop_ge by lia. rewrite numel_nil.
    cbn [Nat.eqb negb]. by rewrite Nat.mod_1_r, Nat.div_1_r. }
  set (S0 := Tensor [numel (shape prev_state)] (data prev_state)) in HS.
  assert (Hstep : exists e, spec_rollout policy transition_model B0 S0 g 1 = Raise e).
  { cbn [spec_rollout mbind result_bind ts_belief ts_state ts_gen]. unfold spec_step.
    destruct (get_action policy B0 S0) as [actions|e]; [|by exists e].
    cbn [mbind result_bind].
    destruct (cat_vector_dim1 S0 actions _ eq_refl Hne) as [e ->]. by exists e. }
  destruct Hstep as [e Hfail]. exists e. unfold imagine_ahead.
  rewrite (imagine_lists_step_failure _ _ _ _ T g B0 S0 1 e HB HS ltac:(lia) Hfail).
  reflexivity.
Qed.

Lemma imagine_ahead_low_rank_state_raises_witness :
  exists e,
    imagine_ahead demo_matrix demo_belief demo_policy demo_model 2 demo_gen = Raise e.
Proof.
  apply (imagine_ahead_low_rank_state_raises demo_matrix demo_belief demo_policy
           demo_model 2 demo_gen).
  - simpl. lia.
  - vm_compute. lia.
  - lia.
Defined.

(** ** Sampling along the rollout *)

Section RolloutSampling.
Variables (policy : Policy) (transition_model : TransitionModel).
Variables (B Dh Ds Da E1 E2 : nat).
Hypothesis Hws : well_shaped policy transition_model B Dh Ds Da E1 E2.


Variables (B0 S0 : tensor) (g : generator).
Hypothesis HB0 : has_shape [B; Dh] B0.
Hypothesis HS0 : has_shape [B; Ds] S0.

Local Abbreviation traj := (rollout_at policy transition_model B0 S0 g).





End RolloutSampling.

Lemma stacked_has_shape (s : list nat) (ts : list tensor) :
  Forall (has_shape s) ts -> has_shape (length ts :: s) (stacked s ts).
Proof.
  intros Hall. split; [reflexivity|]. unfold wf, stacked. cbn [data shape].
  rewrite (length_concat_uniform (numel s)); [by rewrite length_map, numel_cons|].
  apply Forall_map. eapply Forall_impl; [exact Hall|].
  intros t [Ht Wt]. unfold wf in Wt. simpl. congruence.
Qed.

(** X17.  The tensors that [imagine_ahead] returns have the sizes its
    docstring lists: for inputs [[a; c; Dh]] and [[a; c; Ds]] and a horizon
    [T >= 2], the beliefs are a well-formed tensor of shape
    [[T - 1; a * c; Dh]], and the states, the means and the standard
    deviations well-formed tensors of shape [[T - 1; a * c; Ds]]. *)
Theorem imagine_ahead_output_shapes (policy : Policy)
    (transition_model : TransitionModel) (a c Dh Ds Da E1 E2 : nat)
    (prev_state prev_belief : tensor) (T : nat) (g : generator) :
  well_shaped policy transition_model (a * c) Dh Ds Da E1 E2 ->
  has_shape [a; c; Dh] prev_belief -> has_shape [a; c; Ds] prev_state ->
  0 < Dh -> 0 < Ds -> 2 <= T ->
  exists out_beliefs out_states out_means out_std_devs g',
    imagine_ahead prev_state prev_belief policy transition_model T g
    = Ok ([out_beliefs; out_states; out_means; out_std_devs], g')
    /\ has_shape [T - 1; a * c; Dh] out_beliefs
    /\ has_shape [T - 1; a * c; Ds] out_states
    /\ has_shape [T - 1; a * c; Ds] out_means
    /\ has_shape [T - 1; a * c; Ds] out_std_devs.
Proof.
  intros Hws Hb Hs HDh HDs HT.
  pose proof (imagine_ahead_result policy transition_model a c Dh Ds Da E1 E2
                prev_state prev_belief T g Hws Hb Hs HDh HDs HT) as Hres.
  cbv zeta in Hres.
  do 5 eexists. split; [exact Hres|].
  assert (Hst : forall (s : list nat) (f : nat -> tensor),
            (forall j, has_shape s (f (S j))) ->
            has_shape (T - 1 :: s) (stacked s (map (fun i => f (S i)) (seq 0 (T - 1))))).
  { intros s f Hf.
    replace (T - 1) with (length (map (fun i => f (S i)) (seq 0 (T - 1)))) at 1
      by (by rewrite length_map, length_seq).
    apply stacked_has_shape, Forall_map, Forall_forall. intros j _. apply Hf. }
  set (tr := rollout_at policy transition_model
               (Tensor [a * c; Dh] (data prev_belief))
               (Tensor [a * c; Ds] (data prev_state)) g).
  split; [|split; [|split]].
  - apply (Hst _ (fun j => ts_belief (tr j))). intros j.
    apply (traj_belief_shape policy transition_model a c Dh Ds Da E1 E2 prev_state
             prev_belief g Hws Hb Hs HDh HDs). lia.
  - apply (Hst _ (fun j => ts_state (tr j))). intros j.
    apply (traj_state_shape policy transition_model a c Dh Ds Da E1 E2 prev_state
             prev_belief g Hws Hb Hs HDh HDs). lia.
  - apply (Hst _ (fun j => ts_mean (tr j))). intros j.
    apply (traj_mean_shape policy transition_model a c Dh Ds Da E1 E2 prev_state
             prev_belief g Hws Hb Hs HDh HDs). lia.
  - apply (Hst _ (fun j => ts_std_dev (tr j))). intros j.
    apply (traj_std_dev_shape policy transition_model a c Dh Ds Da E1 E2 prev_state
             prev_belief g Hws Hb Hs HDh HDs). lia.
Qed.

Lemma imagine_ahead_output_shapes_witness :
  exists out_beliefs out_states out_means out_std_devs g',
    imagine_ahead demo_state demo_belief demo_policy demo_model 3 demo_gen
    = Ok ([out_beliefs; out_states; out_means; out_std_devs], g')
    /\ has_shape [3 - 1; 1 * 2; 2] out_beliefs
    /\ has_shape [3 - 1; 1 * 2; 1] out_states
    /\ has_shape [3 - 1; 1 * 2; 1] out_means
    /\ has_shape [3 - 1; 1 * 2; 1] out_std_devs.
Proof.
  apply (imagine_ahead_output_shapes demo_policy demo_model 1 2 2 1 1 2 2
           demo_state demo_belief 3 demo_gen).
  - exact demo_well_shaped.
  - split; reflexivity.
  - split; reflexivity.
  - lia.
  - lia.
  - lia.
Defined.



(** The number of elements of the tensors of a list. *)
Lemma sum_numel_same (s : list nat) (ts : list tensor) :
  Forall (fun t => shape t = s) ts ->
  sum_list_with (fun t => numel (shape t)) ts = length ts * numel s.
Proof.
  induction 1 as [|t ts Ht _ IH]; cbn [sum_list_with length]; [reflexivity|].
  rewrite IH, Ht. simpl. lia.
Qed.

Lemma stack_numel (ts : list tensor) (x : tensor) :
  stack ts = Ok x ->
  numel (shape x) = sum_list_with (fun t => numel (shape t)) ts.
Proof.
  destruct ts as [|t ts]; [discriminate|]. unfold stack.
  destruct (forallb _ ts) eqn:E; [|discriminate]. intros [= <-].
  rewrite (sum_numel_same (shape t)).
  - unfold stacked. cbn [shape]. by rewrite numel_cons.
  - constructor; [reflexivity|]. apply Forall_forall. intros u Hu.
    rewrite forallb_forall in E. apply shape_eqb_eq, E. by apply list_elem_of_In.
Qed.

Lemma setitem_Ok {A : Type} (l l' : list A) (i : nat) (v : A) :
  setitem l i v = Ok l' -> l' = <[i:=v]> l /\ i < length l.
Proof.
  unfold setitem. destruct (i <? length l) eqn:E; [|discriminate].
  intros [= <-]. apply Nat.ltb_lt in E. by split.
Qed.

Lemma take_drop1_insert (l : list tensor) (n : nat) (v : tensor) :
  n + 1 < length l ->
  take (S n) (drop 1 (<[n + 1 := v]> l)) = take n (drop 1 l) ++ [v].
Proof.
  intros Hn. destruct l as [|x l]; [simpl in Hn; lia|].
  replace (n + 1) with (S n) by lia. cbn [length] in Hn.
  change (drop 1 (<[S n := v]> (x :: l))) with (<[n := v]> l).
  change (drop 1 (x :: l)) with l.
  rewrite take_S_r with (x := v) by (apply list_lookup_insert_eq; lia).
  f_equal. apply take_insert_ge. lia.
Qed.

(** What one time step does to the random source: it hands out one draw per
    element of the mean it stores. *)
Lemma imagine_step_draws (policy : Policy) (transition_model : TransitionModel)
    (g : generator) (T n : nat) (st st' : rollout) :
  length (prior_means st) = T ->
  stream (gen st) = stream g ->
  offset (gen st)
  = offset g
    + sum_list_with (fun m => numel (shape m)) (take n (drop 1 (prior_means st))) ->
  imagine_step policy transition_model st n = Ok st' ->
  length (prior_means st') = T
  /\ stream (gen st') = stream g
  /\ offset (gen st')
     = offset g
       + sum_list_with (fun m => numel (shape m))
           (take (S n) (drop 1 (prior_means st'))).
Proof.
  intros Hlen Hstream Hoff. unfold imagine_step.
  repeat match goal with
  | |- mbind _ ?m = Ok _ -> _ =>
      destruct m eqn:?; cbn [mbind result_bind]; [|discriminate]
  | |- (let '(_, _) := ?p in _) = Ok _ -> _ => destruct p eqn:?
  end.
  intros [= <-]. cbn [prior_means gen].
  repeat match goal with
  | H : setitem _ _ _ = Ok _ |- _ => apply setitem_Ok in H as [-> ?]
  end.
  match goal with
  | H : getitem (<[n + 1 := ?m]> (prior_means st)) (n + 1) = Ok ?like,
    E : randn_like ?like (gen st) = _ |- _ =>
      rewrite getitem_insert in H by assumption; injection H as <-;
      unfold randn_like in E; injection E as <- <-
  end.
  rewrite length_insert. split; [exact Hlen|]. cbn [stream offset].
  split; [exact Hstream|].
  rewrite take_drop1_insert by lia.
  rewrite sum_list_with_app. cbn [sum_list_with]. rewrite Hoff. lia.
Qed.

Lemma imagine_loop_draws (policy : Policy) (transition_model : TransitionModel)
    (g : generator) (T n : nat) (st0 st : rollout) :
  length (prior_means st0) = T -> gen st0 = g ->
  for_loop (imagine_step policy transition_model) (seq 0 n) st0 = Ok st ->
  length (prior_means st) = T
  /\ stream (gen st) = stream g
  /\ offset (gen st)
     = offset g
       + sum_list_with (fun m => numel (shape m)) (take n (drop 1 (prior_means st))).
Proof.
  intros Hlen Hg. revert st. induction n as [|n IH]; intros st.
  - cbn [seq for_loop]. intros [= <-]. rewrite take_0, Hg. cbn [sum_list_with].
    split; [exact Hlen|]. split; [reflexivity | lia].
  - rewrite seq_S, for_loop_app. cbn [Nat.add].
    destruct (for_loop _ (seq 0 n) st0) as [st1|e]; cbn [mbind result_bind];
      [|discriminate].
    cbn [for_loop].
    destruct (imagine_step policy transition_model st1 n) as [st2|e] eqn:E;
      cbn [mbind result_bind]; [|discriminate].
    intros [= <-]. destruct (IH st1 eq_refl) as (H1 & H2 & H3).
    exact (imagine_step_draws policy transition_model g T n st1 st2 H1 H2 H3 E).
Qed.

(** X19.  Whatever the policy and the transition model (functions, which
    draw no random numbers themselves) and whatever the shapes are, a call
    of [imagine_ahead] that returns has advanced the random source by exactly
    as many draws as the returned means have elements, and by nothing else:
    [torch.randn_like] is called once per time step, on the mean of that
    step, and a second call continues with fresh draws of the same stream. *)
Theorem imagine_ahead_random_draws (prev_state prev_belief : tensor)
    (policy : Policy) (transition_model : TransitionModel) (T : nat) (g g' : generator)
    (out_beliefs out_states out_means out_std_devs : tensor) :
  imagine_ahead prev_state prev_belief policy transition_model T g
  = Ok ([out_beliefs; out_states; out_means; out_std_devs], g') ->
  stream g' = stream g /\ offset g' = offset g + numel (shape out_means).
Proof.
  unfold imagine_ahead.
  destruct (imagine_lists _ _ _ _ _ _) as [st|e] eqn:Hlists;
    cbn [mbind result_bind]; [|discriminate].
  destruct (stack (drop 1 (beliefs st))); cbn [mbind result_bind]; [|discriminate].
  destruct (stack (drop 1 (prior_states st))); cbn [mbind result_bind]; [|discriminate].
  destruct (stack (drop 1 (prior_means st))) as [om|] eqn:Hm;
    cbn [mbind result_bind]; [|discriminate].
  destruct (stack (drop 1 (prior_std_devs st))); cbn [mbind result_bind];
    [|discriminate].
  intros [= -> -> -> -> <-].
  unfold imagine_lists in Hlists.
  destruct (flatten prev_belief) as [B0|]; cbn [mbind result_bind] in Hlists;
    [|discriminate].
  destruct (flatten prev_state) as [S0|]; cbn [mbind result_bind] in Hlists;
    [|discriminate].
  destruct (setitem (replicate T empty0) 0 B0) as [b0|] eqn:Hb;
    cbn [mbind result_bind] in Hlists; [|discriminate].
  destruct (setitem (replicate T empty0) 0 S0) as [s0|];
    cbn [mbind result_bind] in Hlists; [|discriminate].
  apply setitem_Ok in Hb as [_ HT]. rewrite length_replicate in HT.
  apply (imagine_loop_draws policy transition_model g T (T - 1)) in Hlists.
  - destruct Hlists as (Hlen & Hstream & Hoff). split; [exact Hstream|].
    rewrite Hoff, (stack_numel _ _ Hm). do 2 f_equal.
    apply take_ge. rewrite length_drop. lia.
  - cbn [prior_means]. apply length_replicate.
  - reflexivity.
Qed.

Lemma imagine_ahead_random_draws_witness :
  exists out_beliefs out_states out_means out_std_devs g',
    imagine_ahead demo_state demo_belief demo_policy demo_model 3 demo_gen
    = Ok ([out_beliefs; out_states; out_means; out_std_devs], g')
    /\ stream g' = stream demo_gen
    /\ offset g' = offset demo_gen + numel (shape out_means).
Proof.
  do 5 eexists. split; [reflexivity|].
  eapply (imagine_ahead_random_draws demo_state demo_belief demo_policy demo_model 3
           demo_gen).
  reflexivity.
Defined.

(** X20.  A longer horizon extends a shorter one: on the same inputs and
    random source, the time steps that [imagine_ahead] returns for a horizon
    [T] are the first [T - 1] time steps of those it returns for any horizon
    [T' >= T]. *)
Theorem imagine_ahead_horizon_prefix (policy : Policy)
    (transition_model : TransitionModel) (a c Dh Ds Da E1 E2 : nat)
    (prev_state prev_belief : tensor) (T T' : nat) (g : generator) :
  well_shaped policy transition_model (a * c) Dh Ds Da E1 E2 ->
  has_shape [a; c; Dh] prev_belief -> has_shape [a; c; Ds] prev_state ->
  0 < Dh -> 0 < Ds -> 2 <= T -> T <= T' ->
  exists out g1 out' g2,
    imagine_ahead prev_state prev_belief policy transition_model T g = Ok (out, g1)
    /\ imagine_ahead prev_state prev_belief policy transition_model T' g
       = Ok (out', g2)
    /\ length out = 4 /\ length out' = 4
    /\ forall n x x' i, out !! n = Some x -> out' !! n = Some x' -> i < T - 1 ->
       exists row, select x i = Ok row /\ select x' i = Ok row.
Proof.
  intros Hws Hb Hs HDh HDs HT HT'.
  pose proof (imagine_ahead_result policy transition_model a c Dh Ds Da E1 E2
                prev_state prev_belief T g Hws Hb Hs HDh HDs HT) as Hres.
  pose proof (imagine_ahead_result policy transition_model a c Dh Ds Da E1 E2
                prev_state prev_belief T' g Hws Hb Hs HDh HDs ltac:(lia)) as Hres'.
  cbv zeta in Hres, Hres'.
  do 4 eexists. split; [exact Hres|]. split; [exact Hres'|].
  split; [reflexivity|]. split; [reflexivity|].
  set (tr := rollout_at policy transition_model
               (Tensor [a * c; Dh] (data prev_belief))
               (Tensor [a * c; Ds] (data prev_state)) g).
  assert (Hsel : forall (s : list nat) (f : timestep -> tensor) (n i : nat),
            (forall j, 1 <= j -> has_shape s (f (tr j))) -> i < n ->
            select (stacked s (map (fun j => f (tr (S j))) (seq 0 n))) i
            = Ok (f (tr (S i)))).
  { intros s f n i Hf Hi. apply select_stacked.
    - apply Forall_map, Forall_forall. intros j _. apply Hf. lia.
    - change (map ?h (seq 0 n)) with (h <$> seq 0 n).
      by rewrite list_lookup_fmap, lookup_seq_lt. }
  pose proof (traj_belief_shape policy transition_model a c Dh Ds Da E1 E2 prev_state
                prev_belief g Hws Hb Hs HDh HDs) as Sb.
  pose proof (traj_state_shape policy transition_model a c Dh Ds Da E1 E2 prev_state
                prev_belief g Hws Hb Hs HDh HDs) as Ss.
  pose proof (traj_mean_shape policy transition_model a c Dh Ds Da E1 E2 prev_state
                prev_belief g Hws Hb Hs HDh HDs) as Sm.
  pose proof (traj_std_dev_shape policy transition_model a c Dh Ds Da E1 E2 prev_state
                prev_belief g Hws Hb Hs HDh HDs) as Sd.
  cbv zeta in Sb, Ss, Sm, Sd. fold tr in Sb, Ss, Sm, Sd.
  intros n x x' i Hx Hx' Hi.
  destruct n as [|[|[|[|n]]]]; cbn in Hx, Hx'; try discriminate;
    injection Hx as <-; injection Hx' as <-; eexists;
    (split; [apply Hsel|apply Hsel]); (assumption || lia).
Qed.

Lemma imagine_ahead_horizon_prefix_witness :
  exists out g1 out' g2,
    imagine_ahead demo_state demo_belief demo_policy demo_model 2 demo_gen
    = Ok (out, g1)
    /\ imagine_ahead demo_state demo_belief demo_policy demo_model 3 demo_gen
       = Ok (out', g2)
    /\ length out = 4 /\ length out' = 4
    /\ forall n x x' i, out !! n = Some x -> out' !! n = Some x' -> i < 2 - 1 ->
       exists row, select x i = Ok row /\ select x' i = Ok row.
Proof.
  apply (imagine_ahead_horizon_prefix demo_policy demo_model 1 2 2 1 1 2 2
           demo_state demo_belief 2 3 demo_gen).
  - exact demo_well_shaped.
  - split; reflexivity.
  - split; reflexivity.
  - lia.
  - lia.
  - lia.
  - lia.
Defined.

(** ** [write_video] *)

Lemma length_flat_map_seq {A : Type} (f : nat -> list A) (a n w : nat) :
  (forall i, a <= i < a + n -> length (f i) = w) ->
  length (flat_map f (seq a n)) = n * w.
Proof.
  revert a. induction n as [|n IH]; intros a Hf; cbn [seq flat_map]; [reflexivity|].
  rewrite length_app, Hf, IH by (intros; apply Hf; lia) || lia. lia.
Qed.

Lemma lookup_flat_map_seq {A : Type} (f : nat -> list A) (a n w i k : nat) :
  (forall i, a <= i < a + n -> length (f i) = w) -> i < n -> k < w ->
  flat_map f (seq a n) !! (i * w + k) = f (a + i) !! k.
Proof.
  revert a i. induction n as [|n IH]; intros a i Hf Hi Hk; [lia|].
  cbn [seq flat_map]. destruct i as [|i].
  - rewrite lookup_app_l by (rewrite Hf; lia). by rewrite Nat.add_0_r.
  - rewrite lookup_app_r by (rewrite Hf; lia). rewrite Hf by lia.
    replace (S i * w + k - w) with (i * w + k) by lia.
    rewrite IH by (try (intros; apply Hf); lia).
    by replace (a + S i) with (S a + i) by lia.
Qed.

Lemma length_groups {A : Type} (w n : nat) (d : list A) : length (groups w n d) = n.
Proof.
  revert d. induction n as [|n IH]; intros d; cbn [groups length]; [reflexivity|].
  by rewrite IH.
Qed.

Lemma lookup_flip {A : Type} (C n : nat) (P : list A) (q c : nat) :
  length P = n * C -> q < n -> c < C ->
  concat (map reverse (groups C n P)) !! (q * C + c) = P !! (q * C + (C - 1 - c)).
Proof.
  revert P q. induction n as [|n IH]; intros P q HP Hq Hc; [lia|].
  cbn [groups map concat].
  assert (Hlen : length (reverse (take C P)) = C)
    by (rewrite length_reverse, length_take; lia).
  destruct q as [|q].
  - rewrite lookup_app_l by lia. cbn [Nat.mul Nat.add].
    rewrite reverse_lookup by (rewrite length_take; lia).
    rewrite length_take. replace (C `min` length P) with C by lia.
    rewrite lookup_take_lt by lia. f_equal. lia.
  - rewrite lookup_app_r by lia. rewrite Hlen.
    replace (S q * C + c - C) with (q * C + c) by lia.
    rewrite IH by (rewrite ?length_drop; lia).
    rewrite lookup_drop. f_equal. lia.
Qed.

Lemma length_flip {A : Type} (C n : nat) (P : list A) :
  length P = n * C -> length (concat (map reverse (groups C n P))) = n * C.
Proof.
  revert P. induction n as [|n IH]; intros P HP; cbn [groups map concat]; [reflexivity|].
  rewrite length_app, length_reverse, length_take, IH by (rewrite length_drop; lia).
  lia.
Qed.

Lemma Forall_flip {A : Type} (Q : A -> Prop) (C n : nat) (P : list A) :
  Forall Q P -> Forall Q (concat (map reverse (groups C n P))).
Proof.
  revert P. induction n as [|n IH]; intros P HP; cbn [groups map concat]; [constructor|].
  apply Forall_app. split.
  - by apply Forall_reverse, Forall_take.
  - by apply IH, Forall_drop.
Qed.

Lemma np_stack_same_shape (arrays : list tensor) (s : list nat) :
  arrays <> [] -> Forall (fun x => shape x = s) arrays ->
  np_stack arrays = Ok (stacked s arrays).
Proof.
  intros Hne Hall. destruct arrays as [|t ts]; [done|].
  inversion Hall as [|? ? Ht Hts]; subst. unfold np_stack.
  replace (forallb _ ts) with true; [reflexivity|].
  symmetry. apply forallb_forall. intros u Hu.
  rewrite Forall_forall in Hts. apply shape_eqb_eq.
  apply Hts. by apply list_elem_of_In.
Qed.

Lemma np_stack_inv (arrays : list tensor) (x : tensor) :
  np_stack arrays = Ok x ->
  exists t ts, arrays = t :: ts /\ Forall (fun u => shape u = shape t) arrays
               /\ x = stacked (shape t) arrays.
Proof.
  destruct arrays as [|t ts]; [discriminate|]. unfold np_stack.
  destruct (forallb _ ts) eqn:E; [|discriminate]. intros [= <-].
  exists t, ts. split; [reflexivity|]. split; [|reflexivity].
  constructor; [reflexivity|]. apply Forall_forall. intros u Hu.
  rewrite forallb_forall in E. apply shape_eqb_eq, E. by apply list_elem_of_In.
Qed.

(** Calls made one after the other. *)
Lemma for_each_app {A : Type} (body : A -> cv2_code) (xs ys : list A)
    (made : list cv2_call) :
  for_each body (xs ++ ys) made = and_then (for_each body xs) (for_each body ys) made.
Proof.
  revert made. induction xs as [|x xs IH]; intros made; cbn [app for_each].
  - reflexivity.
  - unfold and_then in *. destruct (body x made) as [made' [|e]]; [|reflexivity].
    apply IH.
Qed.

Lemma for_each_map {A : Type} (cv2 : cv2_lib) (f : A -> cv2_call) (xs : list A)
    (made : list cv2_call) :
  for_each (fun x => call cv2 (f x)) xs made = for_each (call cv2) (map f xs) made.
Proof.
  revert made. induction xs as [|x xs IH]; intros made; cbn [map for_each];
    [reflexivity|].
  unfold and_then. destruct (call cv2 (f x) made) as [made' [|e]]; [apply IH|reflexivity].
Qed.

Lemma and_then_congr (a a' b b' : cv2_code) (made : list cv2_call) :
  a made = a' made -> (forall m, b m = b' m) -> and_then a b made = and_then a' b' made.
Proof.
  unfold and_then. intros -> Hb. destruct (a' made) as [m [|e]]; [apply Hb|reflexivity].
Qed.

Lemma script_run (cv2 : cv2_lib) (open : cv2_call) (rows : list image)
    (made : list cv2_call) :
  and_then (call cv2 open)
    (and_then (for_each (fun frame => call cv2 (write frame)) rows) (call cv2 release))
    made
  = for_each (call cv2) (open :: map write rows ++ [release]) made.
Proof.
  cbn [for_each]. apply and_then_congr; [reflexivity|]. intros m.
  rewrite for_each_app. apply and_then_congr; [apply for_each_map|]. intros m'.
  cbn [for_each]. unfold and_then. by destruct (call cv2 release m') as [? [|?]].
Qed.

(** A script of calls is played up to the first call that raises: the calls
    before it have returned, and so has the last one if the script
    completes. *)
Lemma for_each_call (cv2 : cv2_lib) (script made : list cv2_call) :
  script <> [] ->
  exists n,
    1 <= n <= length script
    /\ (for_each (call cv2) script made).1 = made ++ take n script
    /\ (forall i c, i + 1 < n -> script !! i = Some c ->
        cv2 (made ++ take i script) c = Completed)
    /\ (exists c, script !! (n - 1) = Some c
        /\ cv2 (made ++ take (n - 1) script) c
           = (for_each (call cv2) script made).2)
    /\ ((for_each (call cv2) script made).2 = Completed -> n = length script).
Proof.
  revert made. induction script as [|c script IH]; intros made Hne; [done|].
  cbn [for_each]. unfold and_then.
  change (call cv2 c made) with (made ++ [c], cv2 made c).
  destruct (cv2 made c) as [|e] eqn:Hc.
  - destruct script as [|c' script'].
    + exists 1. cbn [for_each length take fst snd lookup list_lookup Nat.sub].
      split; [lia|]. split; [reflexivity|]. split; [intros; lia|].
      split; [|reflexivity]. exists c. split; [reflexivity|]. by rewrite app_nil_r.
    + destruct (IH (made ++ [c]) ltac:(done)) as (n & Hn & Hmade & Hbefore & Hlast & Hall).
      set (rest := c' :: script') in *.
      exists (S n). cbn [length]. split; [lia|]. split.
      { rewrite Hmade. cbn [take]. by rewrite <- app_assoc. }
      split.
      { intros [|i] x Hi Hx.
        - injection Hx as <-. by rewrite app_nil_r.
        - cbn [take]. rewrite cons_middle, app_assoc. apply Hbefore; [lia | exact Hx]. }
      split.
      { destruct Hlast as (x & Hx & Hans). exists x.
        replace (S n - 1) with (S (n - 1)) by lia. split; [exact Hx|].
        cbn [take]. by rewrite cons_middle, app_assoc. }
      intros Hdone. by rewrite (Hall Hdone).
  - exists 1. cbn [length take fst snd lookup list_lookup Nat.sub].
    split; [lia|]. split; [reflexivity|]. split; [intros; lia|].
    split; [|discriminate]. exists c. split; [reflexivity|]. by rewrite app_nil_r.
Qed.

Lemma written_script (n : nat) (open : cv2_call) (images : list image) :
  written [open] = [] ->
  written (take n (open :: map write images ++ [release])) = take (n - 1) images.
Proof.
  intros Hopen. destruct n as [|n]; [reflexivity|].
  cbn [take]. replace (S n - 1) with n by lia.
  assert (Hw : forall l, written (map write l) = l).
  { induction l as [|im l IHl]; [reflexivity|]. unfold written in *.
    cbn [map flat_map app]. by rewrite IHl. }
  assert (Happ : forall a b, written (a ++ b) = written a ++ written b).
  { intros a b. unfold written. apply flat_map_app. }
  change (open :: take n (map write images ++ [release]))
    with ([open] ++ take n (map write images ++ [release])).
  rewrite Happ, Hopen. cbn [app].
  destruct (decide (n <= length images)) as [Hn|Hn].
  - rewrite take_app_le by (rewrite length_map; lia).
    change (map write images) with (write <$> images).
    rewrite <- fmap_take. apply Hw.
  - rewrite take_ge by (rewrite length_app, length_map; cbn [length]; lia).
    rewrite Happ, Hw. cbn. rewrite app_nil_r. symmetry. apply take_ge. lia.
Qed.

(** The value of a pixel: the frame value times 255, clipped to [[0, 255]],
    without its fractional part. *)
Lemma Int_part_clip_range (v : R) :
  (0 <= Int_part (Rmin (Rmax v 0) 255) <= 255)%Z.
Proof.
  set (r := Rmin (Rmax v 0) 255).
  assert (Hr : (0 <= r <= 255)%R).
  { unfold r, Rmin, Rmax. repeat destruct (Rle_dec _ _); lra. }
  destruct (base_Int_part r) as [H1 H2]. split.
  - assert (H : (-1 < Int_part r)%Z) by (apply lt_IZR; lra). lia.
  - apply le_IZR. lra.
Qed.

Lemma Int_part_unique (r : R) (z : Z) :
  (IZR z <= r < IZR z + 1)%R -> Int_part r = z.
Proof.
  intros [H1 H2]. unfold Int_part.
  assert (Hup : (z + 1)%Z = up r).
  { apply tech_up; rewrite plus_IZR; lra. }
  lia.
Qed.

Lemma index2_lt (a b A B : nat) : a < A -> b < B -> a * B + b < A * B.
Proof. intros Ha Hb. pose proof (Nat.mul_le_mono_r (S a) A B ltac:(lia)). lia. Qed.

Lemma index3_lt (a b c A B C : nat) :
  a < A -> b < B -> c < C -> (a * B + b) * C + c < A * B * C.
Proof. intros Ha Hb Hc. by apply index2_lt; [apply index2_lt|]. Qed.

Section WriteVideo.
Variables (cv2 : cv2_lib) (fl : rounding).
Variables (frames : list tensor) (title path : string) (C H W : nat).
Hypothesis Hne : frames <> [].
Hypothesis Hshape : Forall (has_shape [C; H; W]) frames.

Local Abbreviation T := (length frames).

Let D : list R :=
  flat_map (fun t =>
    flat_map (fun h =>
      flat_map (fun w =>
        map (fun c => nth (((t * C + c) * H + h) * W + w)
                        (data (stacked [C; H; W] frames)) 0%R)
            (seq 0 C))
        (seq 0 W))
      (seq 0 H))
    (seq 0 T).

Let P : list Z :=
  map Int_part (map (fun v => Rmin (Rmax v 0) 255) (map (fun v => fl (v * 255)%R) D)).

Let F : image := Image [T; H; W; C] (concat (map reverse (groups C (T * H * W) P))).

Lemma write_video_calls :
  write_video cv2 fl frames title path
  = for_each (call cv2)
      (VideoWriter (os_path_join path (String.app title ".mp4")) "mp4v" 30 (W, H) true
       :: map write (im_rows F) ++ [release]) [].
Proof.
  unfold write_video. rewrite (np_stack_same_shape frames [C; H; W]); [|exact Hne|].
  - cbn [mbind result_bind transpose_0231 shape stacked flip_channels astype_uint8
         clip np_multiply im_shape data pixels mret result_ret].
    fold D. fold P. fold F. apply script_run.
  - eapply Forall_impl; [exact Hshape|]. by intros x [Hx _].
Qed.

Lemma length_D : length D = T * H * W * C.
Proof.
  unfold D.
  rewrite (length_flat_map_seq _ 0 T (H * (W * C))); [lia|]. intros t _.
  rewrite (length_flat_map_seq _ 0 H (W * C)); [lia|]. intros h _.
  rewrite (length_flat_map_seq _ 0 W C); [lia|]. intros w _.
  by rewrite length_map, length_seq.
Qed.

Lemma lookup_D (t h w c : nat) :
  t < T -> h < H -> w < W -> c < C ->
  D !! (((t * H + h) * W + w) * C + c)
  = Some (nth (((t * C + c) * H + h) * W + w) (data (stacked [C; H; W] frames)) 0%R).
Proof.
  intros Ht Hh Hw Hc. unfold D.
  assert (H1 : w * C + c < W * C).
  { pose proof (Nat.mul_le_mono_r (S w) W C ltac:(lia)). lia. }
  assert (H2 : h * (W * C) + (w * C + c) < H * (W * C)).
  { pose proof (Nat.mul_le_mono_r (S h) H (W * C) ltac:(lia)). lia. }
  replace (((t * H + h) * W + w) * C + c)
    with (t * (H * (W * C)) + (h * (W * C) + (w * C + c))) by ring.
  rewrite (lookup_flat_map_seq _ 0 T (H * (W * C))); [| |exact Ht|exact H2].
  2: { intros t' _. rewrite (length_flat_map_seq _ 0 H (W * C)); [lia|]. intros h' _.
       rewrite (length_flat_map_seq _ 0 W C); [lia|]. intros w' _.
       by rewrite length_map, length_seq. }
  rewrite (lookup_flat_map_seq _ 0 H (W * C)); [| |exact Hh|exact H1].
  2: { intros h' _. rewrite (length_flat_map_seq _ 0 W C); [lia|]. intros w' _.
       by rewrite length_map, length_seq. }
  rewrite (lookup_flat_map_seq _ 0 W C); [| |exact Hw|exact Hc].
  2: { intros w' _. by rewrite length_map, length_seq. }
  cbn [Nat.add].
  change (map ?f (seq 0 C)) with (f <$> seq 0 C).
  rewrite list_lookup_fmap, lookup_seq_lt by exact Hc. reflexivity.
Qed.

Lemma stacked_frame_entry (t c h w : nat) (frame : tensor) :
  frames !! t = Some frame -> c < C -> h < H -> w < W ->
  nth (((t * C + c) * H + h) * W + w) (data (stacked [C; H; W] frames)) 0%R
  = frame_entry frame c h w.
Proof.
  intros Ht Hc Hh Hw. pose proof (lookup_lt_Some _ _ _ Ht) as Hlt.
  rewrite Forall_forall in Hshape.
  destruct (Hshape frame) as [Hs Hwf]; [apply list_elem_of_lookup; by exists t|].
  unfold frame_entry. rewrite Hs. unfold stacked. cbn [data].
  replace (((t * C + c) * H + h) * W + w)
    with (t * numel [C; H; W] + ((c * H + h) * W + w))
    by (rewrite !numel_cons, numel_nil; ring).
  rewrite (nth_concat_uniform (numel [C; H; W])).
  - f_equal. change [] with (data empty0). rewrite map_nth. f_equal.
    rewrite nth_lookup, Ht. reflexivity.
  - apply Forall_map, Forall_forall. intros x Hx.
    destruct (Hshape x Hx) as [Hxs Hxw]. unfold wf in Hxw. simpl. congruence.
  - by rewrite length_map.
  - rewrite !numel_cons, numel_nil.
    pose proof (index3_lt c h w C H W Hc Hh Hw). lia.
Qed.

Lemma lookup_P (j : nat) :
  P !! j = (fun v => Int_part (Rmin (Rmax (fl (v * 255)%R) 0) 255)) <$> D !! j.
Proof.
  unfold P. change (map ?f ?l) with (f <$> l).
  rewrite !list_lookup_fmap. by destruct (D !! j).
Qed.

Lemma length_P : length P = T * H * W * C.
Proof. unfold P. by rewrite !length_map, length_D. Qed.

Lemma lookup_rows (t : nat) :
  t < T ->
  im_rows F !! t
  = Some (Image [H; W; C]
            (take (numel [H; W; C]) (drop (t * numel [H; W; C]) (pixels F)))).
Proof.
  intros Ht. unfold im_rows. cbn [im_shape F].
  change (map ?f (seq 0 T)) with (f <$> seq 0 T).
  by rewrite list_lookup_fmap, lookup_seq_lt.
Qed.

Lemma written_pixel (t h w c : nat) (frame : tensor) (im : image) :
  frames !! t = Some frame -> im_rows F !! t = Some im ->
  h < H -> w < W -> c < C ->
  pixel im h w c
  = Int_part (Rmin (Rmax (fl (frame_entry frame (C - 1 - c) h w * 255)%R) 0) 255).
Proof.
  intros Hfr Him Hh Hw Hc. pose proof (lookup_lt_Some _ _ _ Hfr) as Ht.
  rewrite lookup_rows in Him by exact Ht. injection Him as <-.
  unfold pixel. cbn [im_shape pixels F].
  pose proof (index3_lt h w c H W C Hh Hw Hc) as Hidx.
  pose proof (index3_lt t h w T H W Ht Hh Hw) as Hgrp.
  rewrite nth_lookup, lookup_take_lt by (rewrite !numel_cons, numel_nil; lia).
  rewrite lookup_drop.
  replace (t * numel [H; W; C] + ((h * W + w) * C + c))
    with (((t * H + h) * W + w) * C + c) by (rewrite !numel_cons, numel_nil; ring).
  rewrite lookup_flip; [|rewrite length_P; ring|exact Hgrp|exact Hc].
  rewrite lookup_P, lookup_D by lia. cbn [fmap option_fmap option_map default].
  by rewrite (stacked_frame_entry t (C - 1 - c) h w frame) by (assumption || lia).
Qed.

End WriteVideo.

(** The byte that a frame value gives. *)
Lemma byte_range (fl : rounding) (v : R) :
  (0 <= Int_part (Rmin (Rmax (fl (v * 255)%R) 0) 255) <= 255)%Z.
Proof. apply Int_part_clip_range. Qed.

Lemma byte_low (fl : rounding) (v : R) :
  (v <= 0)%R -> Int_part (Rmin (Rmax (fl (v * 255)%R) 0) 255) = 0%Z.
Proof.
  intros Hv. pose proof (fl_monotone fl (v * 255)%R 0 ltac:(lra)) as Hm.
  rewrite fl_0 in Hm. apply Int_part_unique. unfold Rmin, Rmax.
  repeat destruct (Rle_dec _ _); lra.
Qed.

Lemma byte_high (fl : rounding) (v : R) :
  (1 <= v)%R -> Int_part (Rmin (Rmax (fl (v * 255)%R) 0) 255) = 255%Z.
Proof.
  intros Hv. pose proof (fl_monotone fl 255 (v * 255) ltac:(lra)) as Hm.
  rewrite fl_255 in Hm. apply Int_part_unique. unfold Rmin, Rmax.
  repeat destruct (Rle_dec _ _); lra.
Qed.

Lemma byte_between (fl : rounding) (v : R) :
  (0 <= v <= 1)%R ->
  (IZR (Int_part (Rmin (Rmax (fl (v * 255)%R) 0) 255)) <= fl (v * 255)%R
   < IZR (Int_part (Rmin (Rmax (fl (v * 255)%R) 0) 255)) + 1)%R.
Proof.
  intros Hv. pose proof (fl_monotone fl 0 (v * 255) ltac:(lra)) as H0.
  pose proof (fl_monotone fl (v * 255)%R 255 ltac:(lra)) as H1.
  rewrite fl_0 in H0. rewrite fl_255 in H1.
  assert (Hclip : Rmin (Rmax (fl (v * 255)%R) 0) 255 = fl (v * 255)%R).
  { unfold Rmin, Rmax. repeat destruct (Rle_dec _ _); lra. }
  rewrite Hclip. destruct (base_Int_part (fl (v * 255)%R)) as [H2 H3]. lra.
Qed.

Lemma Int_part_monotone (x y : R) : (x <= y)%R -> (Int_part x <= Int_part y)%Z.
Proof.
  intros Hxy. destruct (base_Int_part x) as [Hx1 Hx2].
  destruct (base_Int_part y) as [Hy1 Hy2].
  assert (H : (Int_part x < Int_part y + 1)%Z).
  { apply lt_IZR. rewrite plus_IZR. lra. }
  lia.
Qed.

Lemma byte_monotone (fl : rounding) (v v' : R) :
  (v <= v')%R ->
  (Int_part (Rmin (Rmax (fl (v * 255)%R) 0) 255)
   <= Int_part (Rmin (Rmax (fl (v' * 255)%R) 0) 255))%Z.
Proof.
  intros Hv. pose proof (fl_monotone fl (v * 255)%R (v' * 255) ltac:(lra)) as Hm.
  apply Int_part_monotone. unfold Rmin, Rmax. repeat destruct (Rle_dec _ _); lra.
Qed.

(** The images of a video and the calls that carry them. *)
Lemma write_video_images (cv2 : cv2_lib) (fl : rounding) (frames : list tensor)
    (title path : string) (C H W : nat) :
  frames <> [] -> Forall (has_shape [C; H; W]) frames ->
  exists images,
    write_video cv2 fl frames title path
    = for_each (call cv2)
        (VideoWriter (os_path_join path (String.app title ".mp4")) "mp4v" 30 (W, H)
           true
         :: map write images ++ [release]) []
    /\ length images = length frames
    /\ forall t frame, frames !! t = Some frame ->
       exists im,
         images !! t = Some im /\ im_shape im = [H; W; C]
         /\ forall h w c, h < H -> w < W -> c < C ->
            pixel im h w c
            = Int_part
                (Rmin (Rmax (fl (frame_entry frame (C - 1 - c) h w * 255)%R) 0) 255).
Proof.
  intros Hne Hshape. eexists.
  split; [by apply (write_video_calls cv2 fl _ _ _ C H W)|]. split.
  - unfold im_rows. cbn [im_shape]. by rewrite length_map, length_seq.
  - intros t frame Hfr. pose proof (lookup_lt_Some _ _ _ Hfr) as Ht.
    eexists. split; [by apply lookup_rows|]. split; [reflexivity|].
    intros h w c Hh Hw Hc.
    apply (written_pixel fl frames C H W Hshape t h w c frame); try assumption.
    by apply lookup_rows.
Qed.

(** X21.  For a non-empty list of frames, all of shape [[C; H; W]],
    [write_video] prepares one image per frame, in the order of the frames.
    Each image has shape [[H; W; C]] and its channels in reverse order: its
    pixel [(h, w, c)] is the entry [(C - 1 - c, h, w)] of the frame, times
    255 and rounded to the format of the frames, clipped to [[0, 255]],
    without its fractional part.  The calls to OpenCV follow one script: the
    writer is opened for the file [title.mp4] under [path], with codec
    [mp4v], 30 frames per second, frame size [(W, H)] and colour; the images
    are written, in order; the writer is released.  The calls made are the
    first [n >= 1] calls of the script: all but the last have returned, the
    answer to the last is the way [write_video] stops, and if it returns
    every call of the script was made.  So a call that raises ends the
    function with its exception, and the writer is then not released. *)
Theorem write_video_frames (cv2 : cv2_lib) (fl : rounding) (frames : list tensor)
    (title path : string) (C H W : nat) :
  frames <> [] -> Forall (has_shape [C; H; W]) frames ->
  exists images n,
    length images = length frames
    /\ (forall t frame, frames !! t = Some frame ->
        exists im,
          images !! t = Some im /\ im_shape im = [H; W; C]
          /\ forall h w c, h < H -> w < W -> c < C ->
             pixel im h w c
             = Int_part
                 (Rmin (Rmax (fl (frame_entry frame (C - 1 - c) h w * 255)%R) 0) 255))
    /\ let script :=
         VideoWriter (os_path_join path (String.app title ".mp4")) "mp4v" 30 (W, H)
           true
         :: map write images ++ [release] in
       1 <= n <= length script
       /\ (write_video cv2 fl frames title path).1 = take n script
       /\ (forall i c, i + 1 < n -> script !! i = Some c ->
           cv2 (take i script) c = Completed)
       /\ (exists c, script !! (n - 1) = Some c
           /\ cv2 (take (n - 1) script) c = (write_video cv2 fl frames title path).2)
       /\ ((write_video cv2 fl frames title path).2 = Completed -> n = length script).
Proof.
  intros Hne Hshape.
  destruct (write_video_images cv2 fl frames title path C H W Hne Hshape)
    as (images & Hrun & Hlen & Hpix).
  destruct (for_each_call cv2
              (VideoWriter (os_path_join path (String.app title ".mp4")) "mp4v" 30
                 (W, H) true :: map write images ++ [release]) [] ltac:(done))
    as (n & Hn & Hmade & Hbefore & Hlast & Hall).
  exists images, n. split; [exact Hlen|]. split; [exact Hpix|].
  cbv zeta. rewrite Hrun. split; [exact Hn|]. split; [exact Hmade|].
  split; [exact Hbefore|]. split; [exact Hlast | exact Hall].
Qed.

Lemma write_video_frames_witness :
  exists images n,
    length images = length [demo_frame; demo_frame]
    /\ (forall t frame, [demo_frame; demo_frame] !! t = Some frame ->
        exists im,
          images !! t = Some im /\ im_shape im = [1; 2; 3]
          /\ forall h w c, h < 1 -> w < 2 -> c < 3 ->
             pixel im h w c
             = Int_part
                 (Rmin (Rmax (exact_rounding (frame_entry frame (3 - 1 - c) h w * 255)%R)
                          0) 255))
    /\ let script :=
         VideoWriter (os_path_join "results" (String.app "rollout" ".mp4")) "mp4v" 30
           (2, 1) true
         :: map write images ++ [release] in
       1 <= n <= length script
       /\ (write_video demo_cv2 exact_rounding [demo_frame; demo_frame]
             "rollout" "results").1 = take n script
       /\ (forall i c, i + 1 < n -> script !! i = Some c ->
           demo_cv2 (take i script) c = Completed)
       /\ (exists c, script !! (n - 1) = Some c
           /\ demo_cv2 (take (n - 1) script) c
              = (write_video demo_cv2 exact_rounding [demo_frame; demo_frame]
                   "rollout" "results").2)
       /\ ((write_video demo_cv2 exact_rounding [demo_frame; demo_frame]
              "rollout" "results").2 = Completed -> n = length script).
Proof.
  apply (write_video_frames demo_cv2 exact_rounding [demo_frame; demo_frame]
           "rollout" "results" 3 1 2).
  - discriminate.
  - repeat constructor.
Defined.

(** X22.  Frame values are saturated and truncated.  For a non-empty list of
    frames of one shape [[C; H; W]], in every image passed to the writer each
    pixel is a byte between 0 and 255; a frame value of 0 or less gives 0, a
    value of 1 or more gives 255, and a value [v] in between gives the
    integer part of the product [255 * v] as rounded to the format of the
    frames.  A larger frame value never gives a smaller byte. *)
Theorem write_video_saturates (cv2 : cv2_lib) (fl : rounding) (frames : list tensor)
    (title path : string) (C H W : nat) :
  frames <> [] -> Forall (has_shape [C; H; W]) frames ->
  exists calls o,
    write_video cv2 fl frames title path = (calls, o)
    /\ forall t frame im, frames !! t = Some frame -> written calls !! t = Some im ->
       forall h w c, h < H -> w < W -> c < C ->
         (0 <= pixel im h w c <= 255)%Z
         /\ ((frame_entry frame (C - 1 - c) h w <= 0)%R -> pixel im h w c = 0%Z)
         /\ ((1 <= frame_entry frame (C - 1 - c) h w)%R -> pixel im h w c = 255%Z)
         /\ ((0 <= frame_entry frame (C - 1 - c) h w <= 1)%R ->
             (IZR (pixel im h w c) <= fl (frame_entry frame (C - 1 - c) h w * 255)%R
              < IZR (pixel im h w c) + 1)%R)
         /\ forall t' frame' im' h' w' c',
              frames !! t' = Some frame' -> written calls !! t' = Some im' ->
              h' < H -> w' < W -> c' < C ->
              (frame_entry frame (C - 1 - c) h w
               <= frame_entry frame' (C - 1 - c') h' w')%R ->
              (pixel im h w c <= pixel im' h' w' c')%Z.
Proof.
  intros Hne Hshape.
  destruct (write_video_images cv2 fl frames title path C H W Hne Hshape)
    as (images & Hrun & Hlen & Hpix).
  set (script := VideoWriter (os_path_join path (String.app title ".mp4")) "mp4v" 30
                   (W, H) true :: map write images ++ [release]) in *.
  destruct (for_each_call cv2 script [] ltac:(done))
    as (n & Hn & Hmade & _).
  exists (for_each (call cv2) script []).1, (for_each (call cv2) script []).2.
  split; [rewrite Hrun; by destruct (for_each (call cv2) script [])|].
  rewrite Hmade. cbn [app]. unfold script. rewrite written_script by reflexivity.
  assert (Hpx : forall t frame im h w c,
            frames !! t = Some frame -> take (n - 1) images !! t = Some im ->
            h < H -> w < W -> c < C ->
            pixel im h w c
            = Int_part
                (Rmin (Rmax (fl (frame_entry frame (C - 1 - c) h w * 255)%R) 0) 255)).
  { intros t frame im h w c Hfr Him Hh Hw Hc.
    apply lookup_take_Some in Him as [Him _].
    destruct (Hpix t frame Hfr) as (im0 & Him0 & _ & Hval).
    assert (im0 = im) as -> by congruence. by apply Hval. }
  intros t frame im Hfr Him h w c Hh Hw Hc.
  rewrite (Hpx t frame im h w c) by assumption.
  split; [apply byte_range|]. split; [apply byte_low|]. split; [apply byte_high|].
  split; [apply byte_between|].
  intros t' frame' im' h' w' c' Hfr' Him' Hh' Hw' Hc' Hle.
  rewrite (Hpx t' frame' im' h' w' c') by assumption. by apply byte_monotone.
Qed.

Lemma write_video_saturates_witness :
  exists calls o,
    write_video demo_cv2 exact_rounding [demo_frame] "rollout" "" = (calls, o)
    /\ forall t frame im, [demo_frame] !! t = Some frame -> written calls !! t = Some im ->
       forall h w c, h < 1 -> w < 2 -> c < 3 ->
         (0 <= pixel im h w c <= 255)%Z
         /\ ((frame_entry frame (3 - 1 - c) h w <= 0)%R -> pixel im h w c = 0%Z)
         /\ ((1 <= frame_entry frame (3 - 1 - c) h w)%R -> pixel im h w c = 255%Z)
         /\ ((0 <= frame_entry frame (3 - 1 - c) h w <= 1)%R ->
             (IZR (pixel im h w c)
              <= exact_rounding (frame_entry frame (3 - 1 - c) h w * 255)%R
              < IZR (pixel im h w c) + 1)%R)
         /\ forall t' frame' im' h' w' c',
              [demo_frame] !! t' = Some frame' -> written calls !! t' = Some im' ->
              h' < 1 -> w' < 2 -> c' < 3 ->
              (frame_entry frame (3 - 1 - c) h w
               <= frame_entry frame' (3 - 1 - c') h' w')%R ->
              (pixel im h w c <= pixel im' h' w' c')%Z.
Proof.
  apply (write_video_saturates demo_cv2 exact_rounding [demo_frame] "rollout" "" 3 1 2).
  - discriminate.
  - repeat constructor.
Defined.

(** X23.  [write_video] opens no writer exactly when the list of frames is
    empty or the frames are not three-dimensional arrays of one shape: it
    then raises [ValueError], from [np.stack] (no frame, or frames of
    different shapes) or from [transpose] (frames that are not
    three-dimensional), and no call on a writer is made.  In every other
    case the first call recorded opens the writer, with frame size [(W, H)]
    for frames of shape [[C; H; W]]; what follows depends on the answers of
    OpenCV. *)
Theorem write_video_raises (cv2 : cv2_lib) (fl : rounding) (frames : list tensor)
    (title path : string) :
  match write_video cv2 fl frames title path with
  | ([], o) =>
      o = Raised ValueError
      /\ (frames = []
          \/ ~ exists C H W, Forall (fun x => shape x = [C; H; W]) frames)
  | (first :: _, _) =>
      frames <> []
      /\ exists C H W,
           Forall (fun x => shape x = [C; H; W]) frames
           /\ first
              = VideoWriter (os_path_join path (String.app title ".mp4")) "mp4v" 30
                  (W, H) true
  end.
Proof.
  unfold write_video. destruct (np_stack frames) as [x|e] eqn:E.
  - apply np_stack_inv in E as (t & ts & -> & Hall & ->).
    cbn [mbind result_bind]. unfold transpose_0231. cbn [shape stacked].
    destruct (shape t) as [|C [|H [|W [|n s]]]] eqn:Es; cbn [mbind result_bind].
    4: { cbn [flip_channels astype_uint8 clip np_multiply im_shape shape mbind
              result_bind mret result_ret].
         rewrite script_run.
         match goal with
         | |- context [for_each (call cv2) ?script []] =>
             destruct (for_each_call cv2 script [] ltac:(done)) as (n & Hn & Hmade & _);
             destruct (for_each (call cv2) script []) as [made o]
         end.
         cbn [fst app] in Hmade. destruct n as [|n]; [lia|]. cbn [take] in Hmade.
         subst made. split; [discriminate|]. by exists C, H, W. }
    all: split; [reflexivity|]; right; intros (C' & H' & W' & HF);
      inversion HF as [|? ? Ht _]; congruence.
  - cbn [mbind result_bind]. destruct frames as [|t ts].
    + injection E as <-. split; [reflexivity | by left].
    + unfold np_stack in E. destruct (forallb _ ts) eqn:Eb; [discriminate|].
      injection E as <-. split; [reflexivity|]. right. intros (C & H & W & HF).
      inversion HF as [|? ? Ht Hts]; subst.
      assert (Hb : forallb (fun u => shape_eqb (shape u) (shape t)) ts = true).
      { apply forallb_forall. intros u Hu. apply shape_eqb_eq.
        rewrite Forall_forall in Hts. rewrite Ht. apply Hts. by apply list_elem_of_In. }
      congruence.
Qed.

(** ** [contrastive] *)

Lemma sum_to_ext (n : nat) (f h : nat -> R) :
  (forall j, j < n -> f j = h j) -> sum_to n f = sum_to n h.
Proof. intros Hfh. apply sum_ext_seq. intros j Hj. apply Hfh. lia. Qed.

Lemma sum_to_S (n : nat) (f : nat -> R) : sum_to (S n) f = (sum_to n f + f n)%R.
Proof.
  unfold sum_to. rewrite seq_S, map_app, foldr_app. cbn [map foldr Nat.add].
  generalize (map f (seq 0 n)). intros l.
  induction l as [|y l IH]; cbn [foldr]; [ring | rewrite IH; ring].
Qed.

Lemma sum_to_scale (n : nat) (c : R) (f : nat -> R) :
  sum_to n (fun j => (c * f j)%R) = (c * sum_to n f)%R.
Proof. apply sum_scale. Qed.

Lemma sum_to_nonneg (n : nat) (f : nat -> R) :
  (forall j, j < n -> (0 <= f j)%R) -> (0 <= sum_to n f)%R.
Proof.
  induction n as [|n IH]; intros Hf; [unfold sum_to; simpl; lra|].
  rewrite sum_to_S. specialize (IH ltac:(intros; apply Hf; lia)).
  specialize (Hf n ltac:(lia)). lra.
Qed.

Lemma sum_to_ge_term (n i : nat) (f : nat -> R) :
  (forall j, j < n -> (0 <= f j)%R) -> i < n -> (f i <= sum_to n f)%R.
Proof.
  induction n as [|n IH]; intros Hf Hi; [lia|].
  rewrite sum_to_S. pose proof (Hf n ltac:(lia)) as Hn.
  destruct (decide (i = n)) as [->|Hne].
  - pose proof (sum_to_nonneg n f ltac:(intros; apply Hf; lia)). lra.
  - specialize (IH ltac:(intros; apply Hf; lia) ltac:(lia)). lra.
Qed.

Lemma sum_to_nonpos (n : nat) (f : nat -> R) :
  (forall j, j < n -> (f j <= 0)%R) -> (sum_to n f <= 0)%R.
Proof.
  induction n as [|n IH]; intros Hf; [unfold sum_to; simpl; lra|].
  rewrite sum_to_S. specialize (IH ltac:(intros; apply Hf; lia)).
  specialize (Hf n ltac:(lia)). lra.
Qed.

Lemma sum_exp_pos (n : nat) (f : nat -> R) :
  0 < n -> (0 < sum_to n (fun j => exp (f j)))%R.
Proof.
  intros Hn. pose proof (exp_pos (f 0)) as H0.
  pose proof (sum_to_ge_term n 0 (fun j => exp (f j))
                ltac:(intros; left; apply exp_pos) Hn) as Hge.
  cbv beta in Hge. lra.
Qed.

Lemma log_softmax_nonpos (x : matrix) (i j : nat) :
  j < ncols x -> (log_softmax x i j <= 0)%R.
Proof.
  intros Hj. unfold log_softmax.
  pose proof (sum_to_ge_term (ncols x) j (fun l => exp (coeff x i l))
                ltac:(intros; left; apply exp_pos) Hj) as Hge.
  cbv beta in Hge. pose proof (exp_pos (coeff x i j)) as Hpos.
  assert (Hln : (ln (exp (coeff x i j))
                 <= ln (sum_to (ncols x) (fun l => exp (coeff x i l))))%R).
  { destruct Hge as [Hlt|Heq]; [left; by apply ln_increasing | rewrite <- Heq; lra]. }
  rewrite ln_exp in Hln. lra.
Qed.

Lemma log_softmax_shift (x : matrix) (v : nat -> R) (c : R) (i j : nat) :
  0 < ncols x ->
  log_softmax (scale (sub_column x v) c) i j = log_softmax (scale x c) i j.
Proof.
  intros Hn. unfold log_softmax. cbn [ncols coeff scale sub_column].
  rewrite (sum_to_ext _ _ (fun l => (exp (- v i * c) * exp (coeff x i l * c))%R)).
  2: { intros l _. rewrite <- exp_plus. f_equal. ring. }
  rewrite sum_to_scale, ln_mult, ln_exp; [ring|apply exp_pos|].
  by apply (sum_exp_pos _ (fun l => (coeff x i l * c)%R)).
Qed.

Lemma CrossEntropyLoss_shift (x : matrix) (v : nat -> R) (c : R) (labels : list nat) :
  0 < ncols x ->
  CrossEntropyLoss (scale (sub_column x v) c) labels
  = CrossEntropyLoss (scale x c) labels.
Proof.
  intros Hn. unfold CrossEntropyLoss. cbn [nrows ncols scale sub_column].
  destruct (negb _); [reflexivity|]. destruct (negb _); [reflexivity|].
  destruct (nrows x =? 0); [reflexivity|]. cbv zeta. do 4 f_equal.
  apply sum_to_ext. intros i _. by apply log_softmax_shift.
Qed.

Lemma forallb_seq_lt (n m : nat) :
  forallb (fun label => label <? m) (seq 0 n) = (n <=? m).
Proof.
  destruct (n <=? m) eqn:E.
  - apply Nat.leb_le in E. apply forallb_forall. intros j Hj.
    apply in_seq in Hj. apply Nat.ltb_lt. lia.
  - apply Nat.leb_gt in E. apply not_true_is_false. intros Hall.
    rewrite forallb_forall in Hall.
    specialize (Hall m ltac:(apply in_seq; lia)). apply Nat.ltb_lt in Hall. lia.
Qed.

(** X24.  The line that subtracts the largest logit of each row changes
    nothing in the loss: for keys of at least one row, [contrastive] returns
    what the same computation without that line returns (the same loss or
    the same exception, and the same random source). *)
Theorem contrastive_max_is_neutral (q k : matrix) (g : generator) :
  1 <= nrows k ->
  contrastive q k g
  = (let q := normalize q in
     let k := normalize k in
     let '(W, g) := rand (ncols q) (ncols q) g in
     k_ ← matmul W (transpose k);
     logits ← matmul q k_;
     contrastive_loss ← CrossEntropyLoss (scale logits 0.1) (seq 0 (nrows logits));
     mret (contrastive_loss, g)).
Proof.
  intros Hk. unfold contrastive, rand. cbv zeta.
  unfold matmul. cbn [ncols nrows normalize transpose].
  destruct (ncols q =? ncols k); cbn [mbind result_bind]; [|reflexivity].
  cbn [ncols nrows]. rewrite Nat.eqb_refl.
  cbn [mbind result_bind]. unfold max_dim1. cbn [ncols nrows].
  replace (nrows k =? 0) with false by (symmetry; apply Nat.eqb_neq; lia).
  cbn [mbind result_bind]. rewrite CrossEntropyLoss_shift by (cbn [ncols]; lia).
  reflexivity.
Qed.

Lemma contrastive_max_is_neutral_witness :
  contrastive demo_queries demo_keys demo_gen
  = (let q := normalize demo_queries in
     let k := normalize demo_keys in
     let '(W, g) := rand (ncols q) (ncols q) demo_gen in
     k_ ← matmul W (transpose k);
     logits ← matmul q k_;
     contrastive_loss ← CrossEntropyLoss (scale logits 0.1) (seq 0 (nrows logits));
     mret (contrastive_loss, g)).
Proof.
  apply (contrastive_max_is_neutral demo_queries demo_keys demo_gen).
  simpl. lia.
Defined.

(** X25.  Whenever [contrastive] returns, the queries and the keys have the
    same width [C], there is at least one key and there are at most as many
    queries as keys (the label of a query must be a column of the logits);
    the random source is left advanced by the [C * C] draws of the projection
    matrix, so every call draws a new projection; and the loss is [nan] if
    there is no query, and otherwise a finite number that is never
    negative. *)
Theorem contrastive_nonneg (q k : matrix) (g g' : generator) (loss : float) :
  contrastive q k g = Ok (loss, g') ->
  ncols q = ncols k /\ 1 <= nrows k /\ nrows q <= nrows k
  /\ g' = Generator (stream g) (offset g + ncols q * ncols q)
  /\ match loss with
     | NaN => nrows q = 0
     | Finite v => 1 <= nrows q /\ (0 <= v)%R
     end.
Proof.
  unfold contrastive, rand. cbv zeta.
  unfold matmul. cbn [ncols nrows normalize transpose].
  destruct (ncols q =? ncols k) eqn:Ec; cbn [mbind result_bind]; [|discriminate].
  apply Nat.eqb_eq in Ec. cbn [ncols nrows]. rewrite Nat.eqb_refl.
  cbn [mbind result_bind]. unfold max_dim1. cbn [ncols nrows].
  destruct (nrows k =? 0) eqn:Ek; cbn [mbind result_bind]; [discriminate|].
  apply Nat.eqb_neq in Ek. unfold CrossEntropyLoss.
  cbn [nrows ncols scale sub_column]. rewrite length_seq, Nat.eqb_refl, forallb_seq_lt.
  cbn [negb]. destruct (nrows q <=? nrows k) eqn:El; cbn [negb mbind result_bind];
    [|discriminate].
  apply Nat.leb_le in El.
  destruct (nrows q =? 0) eqn:Eq; cbn [mbind result_bind mret result_ret].
  - apply Nat.eqb_eq in Eq. intros [= <- <-].
    split; [exact Ec|]. split; [lia|]. split; [exact El|]. split; [reflexivity|].
    exact Eq.
  - apply Nat.eqb_neq in Eq. intros [= <- <-].
    split; [exact Ec|]. split; [lia|]. split; [exact El|]. split; [reflexivity|].
    split; [lia|].
    set (total := sum_to _ _).
    assert (Htotal : (total <= 0)%R).
    { apply sum_to_nonpos. intros i Hi. apply log_softmax_nonpos.
      cbn [ncols scale sub_column]. rewrite seq_nth by exact Hi. lia. }
    assert (HposN : (0 < INR (nrows q))%R) by (apply lt_0_INR; lia).
    unfold Rdiv. apply Rmult_le_pos; [lra | left; by apply Rinv_0_lt_compat].
Qed.

Lemma contrastive_nonneg_witness :
  exists loss g',
    contrastive demo_queries demo_keys demo_gen = Ok (loss, g')
    /\ ncols demo_queries = ncols demo_keys /\ 1 <= nrows demo_keys
    /\ nrows demo_queries <= nrows demo_keys
    /\ g' = Generator (stream demo_gen)
              (offset demo_gen + ncols demo_queries * ncols demo_queries)
    /\ match loss with
       | NaN => nrows demo_queries = 0
       | Finite v => 1 <= nrows demo_queries /\ (0 <= v)%R
       end.
Proof.
  do 2 eexists. split; [reflexivity|].
  eapply (contrastive_nonneg demo_queries demo_keys demo_gen). reflexivity.
Defined.
